(** * arithmetic-transformer: digit codec, batch synthesis and curriculum driver

    A shallow embedding of [dataset.py] and of the curriculum loop and entry
    point of [train.py], followed by the properties established about them.

    Conventions of the embedding.
    - Python integers are unbounded: they are [Z], with Python's floor
      division and sign-of-divisor remainder, which are [Z.div] and
      [Z.modulo]; dividing by zero raises.
    - Integer tensors are [torch.int64] (the dtype [torch.randint],
      [torch.arange] and [torch.full] produce): their elements are [Z] and
      every tensor operation that can leave the 64-bit range is followed by
      [wrap64], two's-complement wrap-around. Integer division of a CPU
      tensor by zero raises [RuntimeError].
    - A Python integer passed to torch as a scalar operand must fit in 64
      bits, signed or unsigned, or the call raises [OverflowError]; an
      arithmetic operation with an int64 tensor reduces it to int64, and
      [torch.full] refuses a fill value that is not an int64 value.
    - A 1-D tensor is a list; a 2-D tensor is the list of its rows, all of one
      width; [size(1)] of a 2-D tensor is the length of a row.
    - Randomness is an input: the values drawn by [torch.randint] are passed
      in explicitly, and the facts only assume they have the shape and range
      [torch.randint] guarantees.
    - In-place updates return the updated tensor.
    - Validation accuracies are the entries of the float32 tensor
      [torch.tensor(accs)]; float32 arithmetic is IEEE 754 binary32 with
      rounding to nearest, and the order in which [torch.mean] adds the
      entries is an input, as the reduction kernel chooses it. *)

From Stdlib Require Import ZArith List Lia SpecFloat.
From stdpp Require Import gmap list strings sorting.

Local Open Scope Z_scope.

(** ** Outcomes of Python code *)

Module Py.

Inductive exn : Set :=
| ZeroDivisionError
| IndexError
| TypeError
| OverflowError
| RuntimeError.

(** A computation returns, raises, or (for the one unbounded loop of the
    repository) is cut off by the fuel of its model. *)
Inductive result (A : Type) : Type :=
| Ok (a : A)
| Raise (e : exn)
| OutOfFuel.

Arguments Ok {A} a.
Arguments Raise {A} e.
Arguments OutOfFuel {A}.

Definition bind {A B : Type} (c : result A) (k : A → result B) : result B :=
  match c with
  | Ok a => k a
  | Raise e => Raise e
  | OutOfFuel => OutOfFuel
  end.

#[export] Instance result_ret : MRet result := @Ok.
#[export] Instance result_bind : MBind result := λ A B k c, bind c k.
#[export] Instance result_fmap : FMap result :=
  λ A B f c, bind c (λ a, Ok (f a)).

(** [a // b] and [a % b] on Python integers. *)
Definition floordiv (a b : Z) : result Z :=
  if decide (b = 0) then Raise ZeroDivisionError else Ok (a / b).

Definition mod_ (a b : Z) : result Z :=
  if decide (b = 0) then Raise ZeroDivisionError else Ok (a mod b).

(** Binding of a call's arguments to the parameters of a function that has
    neither defaults nor variadic parameters: positional arguments fill the
    parameters in order, each keyword must name a parameter that is still
    unbound, and no parameter may stay unbound. *)
Fixpoint bind_positional (params : list string) (args : list Z)
    (env : gmap string Z) : result (gmap string Z * list string) :=
  match args, params with
  | [], _ => Ok (env, params)
  | _ :: _, [] => Raise TypeError
  | a :: args', p :: params' => bind_positional params' args' (<[p := a]> env)
  end.

Fixpoint bind_keywords (params : list string) (kwargs : list (string * Z))
    (env : gmap string Z) : result (gmap string Z) :=
  match kwargs with
  | [] => Ok env
  | (k, v) :: kwargs' =>
      if decide (k ∈ params) then
        match env !! k with
        | Some _ => Raise TypeError
        | None => bind_keywords params kwargs' (<[k := v]> env)
        end
      else Raise TypeError
  end.

Definition bind_arguments (params : list string) (args : list Z)
    (kwargs : list (string * Z)) : result (gmap string Z) :=
  '(env, _) ← bind_positional params args ∅;
  env ← bind_keywords params kwargs env;
  if decide (Forall (λ p, is_Some (env !! p)) params) then Ok env
  else Raise TypeError.

End Py.

Export Py.

(** ** int64 tensors *)

Module Torch.

Definition wrap64 (z : Z) : Z := (z + 2 ^ 63) mod 2 ^ 64 - 2 ^ 63.

Definition int64 (z : Z) : Prop := - 2 ^ 63 ≤ z < 2 ^ 63.

Definition add64 (a b : Z) : Z := wrap64 (a + b).
Definition mul64 (a b : Z) : Z := wrap64 (a * b).

(** [t.sum()] of a 1-D tensor. *)
Definition sum64 (t : list Z) : Z := foldl add64 0 t.

(** A Python integer passed as a scalar operand: torch takes it when it fits
    in 64 bits, signed or unsigned, and raises [OverflowError] otherwise. *)
Definition scalar (v : Z) : result Z :=
  if decide (- 2 ^ 63 ≤ v < 2 ^ 64) then Ok v else Raise OverflowError.

(** [a // b] on int64 tensor elements (floor division); a zero divisor raises
    [RuntimeError]. *)
Definition floor_divide (a b : Z) : result Z :=
  if decide (b = 0) then Raise RuntimeError else Ok (wrap64 (a / b)).

(** [a % b] on int64 tensor elements (the remainder has the divisor's sign);
    a zero divisor raises [RuntimeError]. *)
Definition remainder (a b : Z) : result Z :=
  if decide (b = 0) then Raise RuntimeError else Ok (a mod b).

(** [a % v] for an int64 tensor element and a Python integer [v], which is
    reduced to int64. *)
Definition remainder_scalar (a v : Z) : result Z :=
  b ← scalar v; remainder a (wrap64 b).

(** [torch.arange(n)]. *)
Definition arange (n : Z) : list Z := seqZ 0 n.

(** [torch.arange(n - 1, -1, -1)]. *)
Definition arange_desc (n : Z) : list Z := reverse (seqZ 0 n).

(** The int64 powers [b ^ e] of a base, for non-negative exponents. *)
Definition powers (b : Z) (exponents : list Z) : list Z :=
  (λ e, wrap64 (b ^ e)) <$> exponents.

(** [torch.pow(base, exponents)] for a Python integer base and an int64
    tensor of non-negative exponents. *)
Definition pow (base : Z) (exponents : list Z) : result (list Z) :=
  b ← scalar base; Ok (powers b exponents).

(** A tensor of [rows] rows and [cols] columns that holds [v] everywhere. *)
Definition filled (rows cols : Z) (v : Z) : list (list Z) :=
  replicate (Z.to_nat rows) (replicate (Z.to_nat cols) v).

(** [torch.full((rows, cols), v)], for dimensions that are not negative and
    a Python integer [v]: the tensor is int64, and a value that is not an
    int64 value is refused. *)
Definition full (rows cols : Z) (v : Z) : result (list (list Z)) :=
  s ← scalar v;
  if decide (s < 2 ^ 63) then Ok (filled rows cols s) else Raise RuntimeError.

(** [t.size(1)] of a 2-D tensor; the width of a tensor without rows is not
    kept by the list of its rows and is read as 0. *)
Definition size1 {A : Type} (t : list (list A)) : Z :=
  match t with
  | [] => 0
  | row :: _ => Z.of_nat (length row)
  end.

(** [torch.randint(high, shape)]: [drawn] is the tensor the generator
    produced. *)
Definition randint {A : Type} (high : Z) (shape : list Z) (drawn : A) : result A :=
  if decide (0 < high ∧ Forall (λ d, 0 ≤ d) shape) then Ok drawn
  else Raise RuntimeError.

(** [t.cumsum(1)], row by row. *)
Fixpoint cumsum_from (acc : Z) (row : list Z) : list Z :=
  match row with
  | [] => []
  | x :: row' => let s := add64 acc x in s :: cumsum_from s row'
  end.

Definition cumsum (row : list Z) : list Z := cumsum_from 0 row.

(** [t[mask] = v]. *)
Definition masked_fill (t : list (list Z)) (mask : list (list bool)) (v : Z)
  : list (list Z) :=
  zip_with (zip_with (λ x (m : bool), if m then v else x)) t mask.

(** [mask[:, -1] = v]: the last column must exist. *)
Definition set_last_column {A : Type} (t : list (list A)) (v : A)
  : result (list (list A)) :=
  mapM (λ row, match row with
               | [] => Raise IndexError
               | _ :: _ => Ok (<[Nat.pred (length row) := v]> row)
               end) t.

(** [torch.cat(ts, dim=1)]. *)
Fixpoint cat_dim1 (ts : list (list (list Z))) : result (list (list Z)) :=
  match ts with
  | [] => Raise RuntimeError
  | [t] => Ok t
  | t :: ts' =>
      rest ← cat_dim1 ts';
      if decide (length t = length rest) then Ok (zip_with app t rest)
      else Raise RuntimeError
  end.

(** [keys.sort()] of a 1-D tensor: the sorted values and the indices that
    sort them. The sort is a merge sort of the keys paired with their
    columns; [torch.sort] promises no more than sorted values and the indices
    of a rearrangement, and the properties below use no more. *)
Definition key_le (p q : Z * nat) : Prop := p.1 ≤ q.1.

#[export] Instance key_le_dec : RelDecision key_le :=
  λ p q, decide (p.1 ≤ q.1).

Definition sort (keys : list Z) : list Z * list nat :=
  let ps := merge_sort key_le (zip keys (seq 0 (length keys))) in
  (ps.*1, ps.*2).

(** [torch.gather(row, indices)] of a 1-D tensor. *)
Definition gather (row : list Z) (indices : list nat) : list Z :=
  (λ i, row !!! i) <$> indices.

End Torch.

(** ** float32 tensors *)

Module Float32.

(** IEEE 754 binary32: 24 bits of precision, exponents below 128. *)
Definition float32 : Set := spec_float.

Definition prec : Z := 24.
Definition emax : Z := 128.

Definition add (x y : float32) : float32 := SFadd prec emax x y.
Definition div (x y : float32) : float32 := SFdiv prec emax x y.

(** [x < y]; it is false when one of them is nan. *)
Definition ltb (x y : float32) : bool := SFltb x y.

(** The float32 nearest to an integer. *)
Definition of_int (n : Z) : float32 := binary_normalize prec emax n 0 false.

(** The float32 nearest to [p / q], for integers that are float32 values. *)
Definition of_ratio (p q : Z) : float32 := div (of_int p) (of_int q).

Definition zero : float32 := S754_zero false.
Definition nan : float32 := S754_nan.

(** The order in which a reduction kernel adds the entries of a tensor: a
    tree over their indices, whose partial sums may start from zero. *)
Inductive reduction : Set :=
| Zero
| Entry (i : nat)
| Plus (l r : reduction).

Fixpoint reduce (t : list float32) (order : reduction) : float32 :=
  match order with
  | Zero => zero
  | Entry i => default nan (t !! i)
  | Plus l r => add (reduce t l) (reduce t r)
  end.

(** [t.mean()] of a 1-D float32 tensor: the sum of the entries, added in the
    kernel's order, divided by their number; of no entry it is nan. *)
Definition mean (t : list float32) (order : reduction) : float32 :=
  div (reduce t order) (of_int (Z.of_nat (length t))).

End Float32.

(** ** dataset.py *)

Module Dataset.

Import Torch.

(** [int_to_digits] (lines 4-10). The [while n > 0] loop runs on fuel; for a
    base of 1 it never ends, and for a base of 0 the remainder raises. *)
Fixpoint int_to_digits_loop (fuel : nat) (n base : Z) (digits : list Z)
  : result (list Z) :=
  match fuel with
  | O => OutOfFuel
  | S fuel' =>
      if decide (n > 0) then
        d ← Py.mod_ n base;
        n' ← Py.floordiv n base;
        int_to_digits_loop fuel' n' base (digits ++ [d])
      else Ok digits
  end.

(** [return digits or [0]]. *)
Definition int_to_digits_fuel (fuel : nat) (n base : Z) : result (list Z) :=
  digits ← int_to_digits_loop fuel n base [];
  Ok (match digits with [] => [0] | _ :: _ => digits end).

(** Iterations granted to the loop of [int_to_digits]: one more than the
    binary length of [n], which is enough for every base from 2 up. *)
Definition digits_fuel (n : Z) : nat := S (S (Z.to_nat (Z.log2 n))).

Definition int_to_digits (n base : Z) : result (list Z) :=
  int_to_digits_fuel (digits_fuel n) n base.

(** [digits_to_int] (lines 13-18). *)
Definition digits_to_int (digits : list Z) (base : Z) : Z :=
  foldl (λ n digit, n * base + digit) 0 (reverse digits).

(** [numbers_to_digits] (lines 26-33). [repeat(1, max_length)] raises on a
    negative [max_length]; column [i] has the weight
    [base ^ (max_length - 1 - i)], wrapped to int64. *)
Definition numbers_to_digits (tensor : list Z) (base max_length : Z)
  : result (list (list Z)) :=
  if decide (max_length < 0) then Raise RuntimeError else
  bases ← pow base (arange_desc max_length);
  mapM (λ x, mapM (λ w, q ← floor_divide x w; remainder_scalar q base) bases)
    tensor.

(** [digits_to_numbers] (lines 36-43). *)
Definition digits_to_numbers (digits : list (list Z)) (base : Z)
  : result (list Z) :=
  let max_length := size1 digits in
  bases ← pow base (arange_desc max_length);
  Ok ((λ row, sum64 (zip_with mul64 row bases)) <$> digits).

(** What one call of [make_digits_random_length] draws: the digit grid and
    the per-row count of leading positions to blank. *)
Record operand_draw : Type := {
  drawn_digits : list (list Z);
  drawn_n_digits : list Z
}.

(** [make_digits_random_length] (lines 46-51). *)
Definition make_digits_random_length (bs base max_number_length : Z)
    (rng : operand_draw) : result (list (list Z)) :=
  digits ← randint base [bs; max_number_length] (drawn_digits rng);
  n_digits ← randint max_number_length [bs] (drawn_n_digits rng);
  let mask :=
    (λ n, (λ j, bool_decide (j < n)) <$> arange max_number_length) <$> n_digits in
  Ok (masked_fill digits mask 0).

(** The sort key of the token [t] in column [j] of a row of [width] columns:
    [non_padding_mask * arange + (~non_padding_mask) * width]. *)
Definition sort_key (width padding_token : Z) (j : nat) (t : Z) : Z :=
  let non_padding := bool_decide (t ≠ padding_token) in
  Z.b2z non_padding * Z.of_nat j + Z.b2z (negb non_padding) * width.

(** [move_padding_to_end] (lines 54-71), row by row. *)
Definition sorting_row (row : list Z) (padding_token : Z) : list Z :=
  imap (sort_key (Z.of_nat (length row)) padding_token) row.

Definition move_padding_to_end (tensor : list (list Z)) (padding_token : Z)
  : list (list Z) :=
  (λ row,
     let sorting_tensor := sorting_row row padding_token in
     let sorted_indices := (sort sorting_tensor).2 in
     gather row sorted_indices) <$> tensor.

(** [leading_zeros_to_padding_] (lines 74-77). *)
Definition leading_zeros_to_padding_ (digits : list (list Z)) (padding_token : Z)
  : result (list (list Z)) :=
  let mask := (λ row, (λ s, bool_decide (s = 0)) <$> cumsum row) <$> digits in
  mask ← set_last_column mask false;
  Ok (masked_fill digits mask padding_token).

(** [AdditionDataset] (lines 80-136). *)
Record AdditionDataset : Type := {
  num_samples : Z;
  base : Z;
  number_length : Z;
  sequence_length : Z;
  end_token : Z;
  separator_token : Z;
  padding_token : Z;
  eos_token : Z
}.

(** [__init__]. *)
Definition init (num_samples base number_length : Z) : AdditionDataset := {|
  num_samples := num_samples;
  base := base;
  number_length := number_length;
  sequence_length := 2;
  end_token := base;
  separator_token := base + 1;
  padding_token := base + 2;
  eos_token := base + 3
|}.

(** Calling the class with positional and keyword arguments runs [__init__]
    on them. *)
Definition init_params : list string :=
  ["num_samples"; "base"; "number_length"]%string.

Definition call (args : list Z) (kwargs : list (string * Z))
  : result AdditionDataset :=
  env ← Py.bind_arguments init_params args kwargs;
  Ok (init (env !!! "num_samples"%string) (env !!! "base"%string)
        (env !!! "number_length"%string)).

(** [dataset.number_length = n]. *)
Definition set_number_length (self : AdditionDataset) (n : Z) : AdditionDataset := {|
  num_samples := num_samples self;
  base := base self;
  number_length := n;
  sequence_length := sequence_length self;
  end_token := end_token self;
  separator_token := separator_token self;
  padding_token := padding_token self;
  eos_token := eos_token self
|}.

Definition max_input_length (self : AdditionDataset) : Z :=
  sequence_length self * (number_length self + 1).

Definition max_output_length (self : AdditionDataset) : result Z :=
  let max_number := sequence_length self * base self ^ number_length self in
  digits ← int_to_digits max_number (base self);
  Ok (Z.of_nat (length digits) + 1).

Definition seq (self : AdditionDataset) : result Z :=
  out ← max_output_length self;
  Ok (max_input_length self + out).

Definition len (self : AdditionDataset) : Z := num_samples self.

(** Lines 117-118 of [generate_batch]: the sums and their digits. *)
Definition sum_digits (self : AdditionDataset) (in_digits0 in_digits1 : list (list Z))
  : result (list (list Z)) :=
  numbers0 ← digits_to_numbers in_digits0 (base self);
  numbers1 ← digits_to_numbers in_digits1 (base self);
  let sums := zip_with add64 numbers0 numbers1 in
  numbers_to_digits sums (base self) (number_length self + 1).

Definition generate_batch (self : AdditionDataset) (bs : Z)
    (rng0 rng1 : operand_draw) : result (list (list Z)) :=
  let base := base self in
  in_digits0 ← make_digits_random_length bs base (number_length self) rng0;
  in_digits1 ← make_digits_random_length bs base (number_length self) rng1;
  out_digits ← sum_digits self in_digits0 in_digits1;
  out_digits ← leading_zeros_to_padding_ out_digits (padding_token self);
  in_digits0 ← leading_zeros_to_padding_ in_digits0 (padding_token self);
  in_digits1 ← leading_zeros_to_padding_ in_digits1 (padding_token self);
  separators ← full bs 1 (separator_token self);
  ends ← full bs 1 (end_token self);
  eoss ← full bs 1 (eos_token self);
  res ← cat_dim1 [ in_digits0;
                   separators;
                   in_digits1;
                   ends;
                   out_digits;
                   eoss ];
  Ok (move_padding_to_end res (padding_token self)).

End Dataset.

(** ** train.py *)

Module Train.

Import Float32 Dataset.

(** [collections.Counter]: a key that is absent reads as 0. *)
Definition counter_get (c : gmap Z Z) (k : Z) : Z := default 0 (c !! k).

(** [c[k] += 1]. *)
Definition counter_incr (c : gmap Z Z) (k : Z) : gmap Z Z :=
  <[k := counter_get c k + 1]> c.

(** [.9] next to a float32 tensor: the float32 nearest to 0.9, which is
    [15099494 * 2 ^ -24]. *)
Definition threshold : float32 := of_ratio 9 10.

(** [acc > .9] for the float32 scalar [acc]; it is false of nan. *)
Definition gt (acc threshold : float32) : bool := ltb threshold acc.

(** The state the loop of [manual_training] carries from epoch to epoch. *)
Record driver_state : Type := {
  dataset : AdditionDataset;
  time_to_success : gmap Z Z
}.

(** What the training and validation phases of one epoch (lines 137-155) hand
    to the curriculum check: the entries of [torch.tensor(accs)], with the
    order in which [torch.mean] will add them, unless one of their calls
    raised. They read [dataset.number_length] and write neither it nor the
    counter. *)
Inductive epoch_outcome : Type :=
| Validated (accs : list float32) (order : reduction)
| Raised (e : exn).

(** Lines 157-165. *)
Definition curriculum_check (st : driver_state) (accs : list float32)
    (order : reduction) : driver_state :=
  let time_to_success :=
    counter_incr (time_to_success st) (number_length (dataset st)) in
  let acc := mean accs order in
  if gt acc threshold then
    {| dataset :=
         set_number_length (dataset st) (number_length (dataset st) + 1);
       time_to_success := time_to_success |}
  else
    {| dataset := dataset st; time_to_success := time_to_success |}.

(** [for epoch in range(epochs)], from epoch number [epoch] on, with
    [remaining] iterations to go. An exception leaves the loop; the state
    returned is the one reached. *)
Fixpoint epoch_loop (remaining epoch : nat) (observe : nat → epoch_outcome)
    (st : driver_state) : driver_state * result () :=
  match remaining with
  | O => (st, Ok ())
  | S remaining' =>
      match observe epoch with
      | Raised e => (st, Raise e)
      | Validated accs order =>
          epoch_loop remaining' (S epoch) observe (curriculum_check st accs order)
      end
  end.

(** The fields of the parsed command line that the loop reads. *)
Record Namespace : Type := {
  epochs : Z;
  batch_size : Z
}.

Definition manual_training (dataset : AdditionDataset) (args : Namespace)
    (observe : nat → epoch_outcome) : driver_state * result () :=
  epoch_loop (Z.to_nat (epochs args)) 0 observe
    {| dataset := dataset; time_to_success := ∅ |}.

(** How far [main] got. *)
Inductive stage : Set :=
| DatasetBuilt
| ModelBuilt
| TrainingEntered.

(** [main] from line 73 on, that is once [parse_args] has returned [args].
    [AdditionModel] is the constructor of the external model. *)
Definition main {Model : Type} (AdditionModel : AdditionDataset → result Model)
    (args : Namespace) (observe : nat → epoch_outcome) : list stage * result () :=
  match
    Dataset.call [10 ^ 6]
      [("base", 10); ("number_length", 1); ("sequence_length", 2)]%string
  with
  | Raise e => ([], Raise e)
  | OutOfFuel => ([], OutOfFuel)
  | Ok dataset =>
      match AdditionModel dataset with
      | Raise e => ([DatasetBuilt], Raise e)
      | OutOfFuel => ([DatasetBuilt], OutOfFuel)
      | Ok model =>
          ([DatasetBuilt; ModelBuilt; TrainingEntered],
           (manual_training dataset args observe).2)
      end
  end.

End Train.

(** ** Notions used to state the properties *)

Module Notions.

Import Torch Dataset.

(** The number a row of digits denotes, most significant digit first. *)
Fixpoint row_value (base : Z) (row : list Z) : Z :=
  match row with
  | [] => 0
  | d :: row' => d * base ^ Z.of_nat (length row') + row_value base row'
  end.

(** A row of base-[base] digits. *)
Definition digit_row (base : Z) (row : list Z) : Prop :=
  Forall (λ d, 0 ≤ d < base) row.

(** Length of the leading run of zeros of a row. *)
Fixpoint leading_zeros (row : list Z) : nat :=
  match row with
  | 0 :: row' => S (leading_zeros row')
  | _ => O
  end.

(** The shape and range of a tensor drawn by [torch.randint(high, (bs, cols))]
    and by [torch.randint(high, (bs,))]. *)
Definition drawn_2d (high bs cols : Z) (t : list (list Z)) : Prop :=
  Z.of_nat (length t) = bs ∧
  Forall (λ row, Z.of_nat (length row) = cols ∧ digit_row high row) t.

Definition drawn_1d (high bs : Z) (t : list Z) : Prop :=
  Z.of_nat (length t) = bs ∧ Forall (λ n, 0 ≤ n < high) t.

(** A draw [make_digits_random_length(bs, base, max_number_length)] can make. *)
Definition draw_ok (bs base max_number_length : Z) (rng : operand_draw) : Prop :=
  drawn_2d base bs max_number_length (drawn_digits rng) ∧
  drawn_1d max_number_length bs (drawn_n_digits rng).

(** The shape [(rows, cols)] of a 2-D tensor. *)
Definition has_shape {A : Type} (rows cols : Z) (t : list (list A)) : Prop :=
  Z.of_nat (length t) = rows ∧ Forall (λ row, Z.of_nat (length row) = cols) t.

(** No positional weight [base ^ k], [k] up to [max_exponent], wraps to 0. *)
Definition weights_nonzero (base max_exponent : Z) : Prop :=
  ∀ k, 0 ≤ k ≤ max_exponent → wrap64 (base ^ k) ≠ 0.

(** The sum of the entries of a row. *)
Definition row_sum (row : list Z) : Z := foldr Z.add 0 row.

(** A row of a digit matrix: it has a last column, its entries are
    non-negative, and their sum fits the int64 accumulator of [cumsum]. *)
Definition digits_row (row : list Z) : Prop :=
  row ≠ [] ∧ Forall (λ d, 0 ≤ d) row ∧ row_sum row < 2 ^ 63.

(** A row with its leading run of zeros, the last column excepted, replaced
    by the padding token. *)
Definition padded_row (padding_token : Z) (row : list Z) : list Z :=
  let k := (leading_zeros row `min` Nat.pred (length row))%nat in
  replicate k padding_token ++ drop k row.

(** Tokens paired with their sort keys, and the order of the keys. *)
Definition keyed_row (row : list Z) (padding_token : Z) : list (Z * Z) :=
  zip (sorting_row row padding_token) row.

Definition keyed_le (p q : Z * Z) : Prop := p.1 ≤ q.1.

(** A row with its padding moved to the end, the other tokens in order. *)
Definition padding_last (padding_token : Z) (row : list Z) : list Z :=
  filter (λ t, t ≠ padding_token) row ++
  replicate (length (filter (λ t, ¬ t ≠ padding_token) row)) padding_token.

(** What [__init__] establishes and assignments to [number_length] keep. *)
Definition constructed (self : AdditionDataset) : Prop :=
  sequence_length self = 2 ∧
  end_token self = base self ∧
  separator_token self = base self + 1 ∧
  padding_token self = base self + 2 ∧
  eos_token self = base self + 3.

(** A row of digits of [base] and padding tokens. *)
Definition token_row (base padding_token : Z) (row : list Z) : Prop :=
  Forall (λ t, 0 ≤ t < base ∨ t = padding_token) row.

(** How often a token occurs in a row. *)
Definition count (token : Z) (row : list Z) : nat :=
  length (filter (λ t, t = token) row).

(** Two orders in which [n] entries can be added: from left to right,
    starting from zero, and by halves. *)
Fixpoint sequential (n : nat) : Float32.reduction :=
  match n with
  | O => Float32.Zero
  | S n' => Float32.Plus (sequential n') (Float32.Entry n')
  end.

Fixpoint pairwise (depth first n : nat) : Float32.reduction :=
  match depth with
  | O => Float32.Zero
  | S depth' =>
      match n with
      | O => Float32.Zero
      | 1%nat => Float32.Entry first
      | _ =>
          let half := (n / 2)%nat in
          Float32.Plus (pairwise depth' first half)
            (pairwise depth' (first + half) (n - half))
      end
  end.

End Notions.

(** ** Notions used to state the further properties *)

Module MoreNotions.

Import Torch Dataset Train Notions.

(** A row without its leading zeros; its last column stays. *)
Definition strip_zeros (row : list Z) : list Z :=
  drop (leading_zeros row `min` Nat.pred (length row))%nat row.

(** A row that is a single digit or starts with a digit other than 0. *)
Definition no_leading_zero (row : list Z) : Prop :=
  match row with
  | [] => False
  | [_] => True
  | d :: _ => d ≠ 0
  end.

(** One row of a batch: the digits of the two operands and of the result,
    each followed by its marker, then [k] padding tokens. *)
Definition example_row (self : AdditionDataset) (a b c : list Z) (k : nat)
  : list Z :=
  a ++ separator_token self :: b ++ end_token self :: c
    ++ eos_token self :: replicate k (padding_token self).

(** The value a call gives to the parameter [name], the [i]-th of the
    function: the [i]-th positional argument or else the keyword argument of
    that name. *)
Definition argument (args : list Z) (kwargs : list (string * Z)) (i : nat)
    (name : string) : Z :=
  match args !! i with
  | Some v => v
  | None => default 0 ((list_to_map kwargs : gmap string Z) !! name)
  end.

(** A call that gives each parameter once: positional arguments for the
    first parameters and keywords, in any order, for exactly the others. *)
Definition binds_each_once (params : list string) (args : list Z)
    (kwargs : list (string * Z)) : Prop :=
  (length args ≤ length params)%nat ∧
  kwargs.*1 ≡ₚ drop (length args) params.

(** [sum(c.values())]. *)
Definition counter_total (c : gmap Z Z) : Z :=
  map_fold (λ _ v total, v + total) 0 c.

(** Whether the curriculum check that follows an epoch raises
    [number_length]. *)
Definition passed (o : epoch_outcome) : bool :=
  match o with
  | Validated accs order => gt (Float32.mean accs order) threshold
  | Raised _ => false
  end.

(** How many of the epochs [0, ..., k - 1] passed. *)
Fixpoint promotions (observe : nat → epoch_outcome) (k : nat) : Z :=
  match k with
  | O => 0
  | S k' => promotions observe k' + (if passed (observe k') then 1 else 0)
  end.

(** How many epochs there have been, after [k] of them, since the last one
    that passed. *)
Fixpoint trailing_failures (observe : nat → epoch_outcome) (k : nat) : Z :=
  match k with
  | O => 0
  | S k' => if passed (observe k') then 0 else trailing_failures observe k' + 1
  end.

(** All of the epochs [0, ..., k - 1] reach their curriculum check. *)
Definition all_validated (observe : nat → epoch_outcome) (k : nat) : Prop :=
  ∀ i, (i < k)%nat → ∃ accs order, observe i = Validated accs order.

(** The state of the loop after [k] epochs, from a dataset and an empty
    counter. *)
Definition after_epochs (ds : AdditionDataset) (observe : nat → epoch_outcome)
    (k : nat) : driver_state * result () :=
  epoch_loop k 0 observe {| dataset := ds; time_to_success := ∅ |}.

End MoreNotions.

(** * Properties *)

(** ** The result monad *)

Section ResultFacts.

Context {A B : Type}.

Lemma bind_Ok (a : A) (k : A → result B) : (Ok a ≫= k) = k a.
Proof. reflexivity. Qed.

Lemma bind_Raise (e : exn) (k : A → result B) : (Raise e ≫= k) = Raise e.
Proof. reflexivity. Qed.

Lemma bind_Ok_inv (c : result A) (k : A → result B) (b : B) :
  (c ≫= k) = Ok b → ∃ a, c = Ok a ∧ k a = Ok b.
Proof. destruct c as [a| |]; [eauto | discriminate..]. Qed.

End ResultFacts.

Section MapM.

Context {A B : Type}.

Lemma mapM_ext (f g : A → result B) (l : list A) :
  (∀ a, f a = g a) → mapM f l = mapM g l.
Proof.
  intros Hfg. induction l as [|a l IH]; [done|]. cbn. by rewrite Hfg, IH.
Qed.

Lemma mapM_Ok (f : A → B) (g : A → result B) (l : list A) :
  Forall (λ x, g x = Ok (f x)) l → mapM g l = Ok (f <$> l).
Proof.
  induction 1 as [|x l Hx _ IH]; [reflexivity|].
  cbn [mapM]. rewrite Hx, bind_Ok, IH. reflexivity.
Qed.

Lemma mapM_Ok_inv (g : A → result B) (l : list A) (k : list B) :
  mapM g l = Ok k → Forall2 (λ x y, g x = Ok y) l k.
Proof.
  revert k. induction l as [|x l IH]; intros k H; cbn [mapM] in H.
  - injection H as <-. constructor.
  - apply bind_Ok_inv in H as (y & Hy & H).
    apply bind_Ok_inv in H as (k' & Hk' & H).
    injection H as <-. constructor; auto.
Qed.

End MapM.

Ltac result_simpl :=
  repeat (rewrite ?bind_Ok, ?bind_Raise; cbn [mret result_ret]).

(** ** Python integers and int64 arithmetic *)

Section Arithmetic.

Import Torch.

Lemma mod_Ok (a b : Z) : b ≠ 0 → Py.mod_ a b = Ok (a mod b).
Proof. intros. unfold Py.mod_. by rewrite decide_False. Qed.

Lemma floordiv_Ok (a b : Z) : b ≠ 0 → Py.floordiv a b = Ok (a / b).
Proof. intros. unfold Py.floordiv. by rewrite decide_False. Qed.

Lemma wrap64_small (z : Z) : int64 z → wrap64 z = z.
Proof. unfold int64, wrap64. intros. rewrite Z.mod_small; lia. Qed.

Lemma wrap64_range (z : Z) : int64 (wrap64 z).
Proof.
  unfold int64, wrap64.
  pose proof (Z.mod_pos_bound (z + 2 ^ 63) (2 ^ 64)). lia.
Qed.

Lemma wrap64_congr (x y : Z) :
  x mod 2 ^ 64 = y mod 2 ^ 64 → wrap64 x = wrap64 y.
Proof.
  unfold wrap64. intros H.
  rewrite <- (Zplus_mod_idemp_l x), H, Zplus_mod_idemp_l. reflexivity.
Qed.

Lemma wrap64_mod (x : Z) : wrap64 x mod 2 ^ 64 = x mod 2 ^ 64.
Proof.
  unfold wrap64.
  rewrite <- Zminus_mod_idemp_l, Z.mod_mod by lia.
  rewrite Zminus_mod_idemp_l. f_equal. lia.
Qed.

Lemma add64_wrap_l (x y : Z) : add64 (wrap64 x) y = wrap64 (x + y).
Proof.
  apply wrap64_congr.
  rewrite <- Zplus_mod_idemp_l, wrap64_mod, Zplus_mod_idemp_l. reflexivity.
Qed.

Lemma mul64_wrap_r (x y : Z) : mul64 x (wrap64 y) = wrap64 (x * y).
Proof.
  apply wrap64_congr.
  rewrite <- Zmult_mod_idemp_r, wrap64_mod, Zmult_mod_idemp_r. reflexivity.
Qed.

Lemma add64_wrap_r (x y : Z) : add64 x (wrap64 y) = wrap64 (x + y).
Proof. unfold add64. rewrite Z.add_comm, <- (Z.add_comm y). apply add64_wrap_l. Qed.

End Arithmetic.

(** ** The scalar codec: [int_to_digits] and [digits_to_int] *)

Section ScalarCodec.

Import Dataset.

Lemma digits_to_int_cons (d : Z) (ds : list Z) (b : Z) :
  digits_to_int (d :: ds) b = d + b * digits_to_int ds b.
Proof.
  unfold digits_to_int. rewrite reverse_cons, foldl_snoc. lia.
Qed.

Lemma int_to_digits_loop_S (fuel : nat) (n b : Z) (acc : list Z) :
  int_to_digits_loop (S fuel) n b acc =
  if decide (n > 0) then
    d ← Py.mod_ n b; n' ← Py.floordiv n b;
    int_to_digits_loop fuel n' b (acc ++ [d])
  else Ok acc.
Proof. reflexivity. Qed.

Lemma int_to_digits_loop_more_fuel (fuel fuel' : nat) (n b : Z) (acc ds : list Z) :
  (fuel ≤ fuel')%nat →
  int_to_digits_loop fuel n b acc = Ok ds →
  int_to_digits_loop fuel' n b acc = Ok ds.
Proof.
  revert fuel' n acc. induction fuel as [|fuel IH]; intros fuel' n acc Hle H.
  - discriminate.
  - destruct fuel' as [|fuel']; [lia|].
    cbn [int_to_digits_loop] in *.
    destruct (decide (n > 0)); [|done].
    destruct (Py.mod_ n b) as [d| |]; [|done..].
    destruct (Py.floordiv n b) as [n'| |]; [|done..].
    rewrite bind_Ok in *. apply IH; [lia | done].
Qed.

(** What the loop appends for [n] below [2 ^ fuel]: the digits of [n], least
    significant first, as many as [n] has. *)
Lemma int_to_digits_loop_digits (b : Z) (fuel : nat) :
  2 ≤ b → ∀ (n : Z) (acc : list Z), 0 ≤ n < 2 ^ Z.of_nat fuel →
  ∃ ds, int_to_digits_loop (S fuel) n b acc = Ok (acc ++ ds) ∧
        digits_to_int ds b = n ∧
        (∀ i, (i < length ds)%nat → ds !! i = Some ((n / b ^ Z.of_nat i) mod b)) ∧
        (0 < n → b ^ Z.of_nat (length ds) ≤ b * n) ∧
        n < b ^ Z.of_nat (length ds) ∧
        (n = 0 → ds = []).
Proof.
  intros Hb. induction fuel as [|fuel IH]; intros n acc Hn.
  - assert (n = 0) as -> by (change (2 ^ Z.of_nat 0) with 1 in Hn; lia).
    exists []. cbn. rewrite app_nil_r. repeat split; [|lia..].
    intros i Hi. cbn in Hi. lia.
  - rewrite int_to_digits_loop_S. destruct (decide (n > 0)) as [Hpos|Hnpos].
    + rewrite mod_Ok, floordiv_Ok by lia. result_simpl.
      assert (0 ≤ n / b < 2 ^ Z.of_nat fuel) as Hq.
      { split; [apply Z.div_pos; lia|].
        apply Z.div_lt_upper_bound; [lia|].
        rewrite Nat2Z.inj_succ, Z.pow_succ_r in Hn by lia. nia. }
      destruct (IH (n / b) (acc ++ [n mod b]) Hq)
        as (ds & Hrun & Hval & Hdig & Hlo & Hhi & Hnil).
      exists (n mod b :: ds). split; [|split; [|split; [|split; [|split]]]].
      * rewrite Hrun, <- app_assoc. reflexivity.
      * rewrite digits_to_int_cons, Hval. pose proof (Z.div_mod n b). lia.
      * intros [|i] Hi; cbn [length] in Hi.
        -- cbn. rewrite Z.div_1_r. reflexivity.
        -- cbn [lookup list_lookup]. rewrite Hdig by lia.
           rewrite Nat2Z.inj_succ, Z.pow_succ_r, Z.div_div by lia. reflexivity.
      * intros _. cbn [length]. rewrite Nat2Z.inj_succ, Z.pow_succ_r by lia.
        destruct (decide (n / b = 0)) as [Hz|Hnz].
        -- rewrite (Hnil Hz). cbn.
           pose proof (Z.div_mod n b). pose proof (Z.mod_pos_bound n b). nia.
        -- pose proof (Z.div_mod n b). pose proof (Z.mod_pos_bound n b). nia.
      * cbn [length]. rewrite Nat2Z.inj_succ, Z.pow_succ_r by lia.
        pose proof (Z.div_mod n b). pose proof (Z.mod_pos_bound n b). nia.
      * lia.
    + assert (n = 0) as -> by lia.
      exists []. cbn. rewrite app_nil_r. repeat split; [|lia..].
      intros i Hi. cbn in Hi. lia.
Qed.

Lemma digits_fuel_enough (n : Z) :
  0 ≤ n → ∃ fuel, digits_fuel n = S fuel ∧ n < 2 ^ Z.of_nat fuel.
Proof.
  intros Hn. exists (S (Z.to_nat (Z.log2 n))). split; [reflexivity|].
  pose proof (Z.log2_nonneg n).
  rewrite Nat2Z.inj_succ, Z2Nat.id by lia.
  destruct (decide (n = 0)) as [->|]; [cbn; lia|].
  apply Z.log2_spec. lia.
Qed.

(** [int_to_digits] returns for every base from 2 up, with any fuel from
    [digits_fuel n] on, and what it returns is the digit sequence of [n]. *)
Lemma int_to_digits_spec (n b : Z) :
  0 ≤ n → 2 ≤ b →
  ∃ ds, int_to_digits n b = Ok ds ∧
        (∀ fuel, (digits_fuel n ≤ fuel)%nat → int_to_digits_fuel fuel n b = Ok ds) ∧
        digits_to_int ds b = n ∧
        (∀ i, (i < length ds)%nat → ds !! i = Some ((n / b ^ Z.of_nat i) mod b)) ∧
        (0 < n → b ^ (Z.of_nat (length ds) - 1) ≤ n < b ^ Z.of_nat (length ds)) ∧
        (n = 0 → ds = [0]).
Proof.
  intros Hn Hb.
  destruct (digits_fuel_enough n Hn) as (fuel0 & Hfuel & Hlt).
  destruct (int_to_digits_loop_digits b fuel0 Hb n [] (conj Hn Hlt))
    as (ds & Hrun & Hval & Hdig & Hlo & Hhi & Hnil).
  rewrite app_nil_l in Hrun.
  assert (∀ fuel, (digits_fuel n ≤ fuel)%nat →
            int_to_digits_loop fuel n b [] = Ok ds) as Hall.
  { intros fuel Hle. eapply int_to_digits_loop_more_fuel; [|exact Hrun]. lia. }
  destruct (decide (n = 0)) as [->|Hnz].
  - rewrite (Hnil eq_refl) in *. exists [0].
    split; [|split; [|split; [|split; [|split]]]].
    + unfold int_to_digits, int_to_digits_fuel. by rewrite Hall.
    + intros fuel Hle. unfold int_to_digits_fuel. by rewrite Hall.
    + reflexivity.
    + intros [|i] Hi; cbn in Hi; [|lia]. cbn. by rewrite Z.mod_0_l by lia.
    + lia.
    + reflexivity.
  - destruct ds as [|d ds'] eqn:Hds; [cbn in Hhi; lia|]. rewrite <- Hds in *.
    exists ds. split; [|split; [|split; [|split; [|split]]]].
    + unfold int_to_digits, int_to_digits_fuel. rewrite Hall by done.
      rewrite bind_Ok. by rewrite Hds.
    + intros fuel Hle. unfold int_to_digits_fuel. rewrite Hall by done.
      rewrite bind_Ok. by rewrite Hds.
    + done.
    + done.
    + intros Hpos. split; [|done].
      assert (Z.of_nat (length ds) = Z.succ (Z.of_nat (length ds) - 1)) as Hlen by lia.
      specialize (Hlo Hpos). rewrite Hlen, Z.pow_succ_r in Hlo.
      * nia.
      * rewrite Hds. cbn [length]. lia.
    + done.
Qed.

(** C3. For every non-negative [n] and every base [b] from 2 up,
    [int_to_digits n b] returns a list [ds] with
    [digits_to_int ds b = n]; [ds] holds the digits of [n] least significant
    first, its [i]-th entry being [(n / b ^ i) mod b], and as many of them as
    [n] has; and [ds] is [[0]] when [n] is 0. *)
Theorem int_to_digits_roundtrip (n b : Z) :
  0 ≤ n → 2 ≤ b →
  ∃ ds, int_to_digits n b = Ok ds ∧
        digits_to_int ds b = n ∧
        (∀ i, (i < length ds)%nat → ds !! i = Some ((n / b ^ Z.of_nat i) mod b)) ∧
        (0 < n → b ^ (Z.of_nat (length ds) - 1) ≤ n < b ^ Z.of_nat (length ds)) ∧
        (n = 0 → ds = [0]).
Proof.
  intros Hn Hb.
  destruct (int_to_digits_spec n b Hn Hb) as (ds & H1 & _ & H2 & H3 & H4 & H5).
  exists ds. auto.
Qed.

Lemma int_to_digits_roundtrip_witness :
  0 ≤ 1234 ∧ 2 ≤ 10 ∧
  ∃ ds, int_to_digits 1234 10 = Ok ds ∧ digits_to_int ds 10 = 1234.
Proof.
  split; [lia|]. split; [lia|].
  destruct (int_to_digits_roundtrip 1234 10) as (ds & H1 & H2 & _); [lia..|].
  exists ds. split; assumption.
Defined.

End ScalarCodec.

(** ** The batched codec: [numbers_to_digits] and [digits_to_numbers] *)

Section TensorCodec.

Import Torch Dataset Notions.

Lemma arange_desc_S (n : nat) :
  arange_desc (Z.of_nat (S n)) = Z.of_nat n :: arange_desc (Z.of_nat n).
Proof. unfold arange_desc. rewrite seqZ_S, reverse_snoc. f_equal. Qed.

Lemma length_arange_desc (n : Z) : length (arange_desc n) = Z.to_nat n.
Proof. unfold arange_desc. by rewrite length_reverse, length_seqZ. Qed.

Lemma elem_of_arange_desc (n e : Z) : e ∈ arange_desc n ↔ 0 ≤ e < n.
Proof. unfold arange_desc. rewrite elem_of_reverse, elem_of_seqZ. lia. Qed.

Lemma wrap64_add_idemp_r (x y : Z) : wrap64 (x + wrap64 y) = wrap64 (x + y).
Proof. exact (add64_wrap_r x y). Qed.

Lemma scalar_Ok (v : Z) : - 2 ^ 63 ≤ v < 2 ^ 64 → scalar v = Ok v.
Proof. intros. unfold scalar. by rewrite decide_True. Qed.

Lemma scalar_Raise (v : Z) :
  v < - 2 ^ 63 ∨ 2 ^ 64 ≤ v → scalar v = Raise OverflowError.
Proof. intros. unfold scalar. rewrite decide_False; [done|lia]. Qed.

Lemma pow_Ok (b : Z) (exponents : list Z) :
  - 2 ^ 63 ≤ b < 2 ^ 64 → pow b exponents = Ok (powers b exponents).
Proof. intros. unfold pow. by rewrite scalar_Ok. Qed.

Lemma remainder_scalar_int64 (a b : Z) :
  int64 b → remainder_scalar a b = remainder a b.
Proof.
  intros Hb. unfold remainder_scalar. unfold int64 in Hb.
  rewrite scalar_Ok, bind_Ok by lia. by rewrite wrap64_small.
Qed.

Lemma full_Ok (rows cols v : Z) :
  int64 v → full rows cols v = Ok (filled rows cols v).
Proof.
  intros Hv. unfold full. unfold int64 in Hv.
  rewrite scalar_Ok, bind_Ok by lia. by rewrite decide_True by lia.
Qed.

Lemma full_Ok_inv (rows cols v : Z) (t : list (list Z)) :
  full rows cols v = Ok t → int64 v ∧ t = filled rows cols v.
Proof.
  unfold full, scalar, int64. intros H.
  destruct (decide (- 2 ^ 63 ≤ v < 2 ^ 64)); [|discriminate].
  rewrite bind_Ok in H. destruct (decide (v < 2 ^ 63)); [|discriminate].
  injection H as <-. split; [lia|done].
Qed.

(** [numbers_to_digits] once the base is known to be an int64 value. *)
Lemma numbers_to_digits_int64 (xs : list Z) (b L : Z) :
  int64 b →
  numbers_to_digits xs b L =
  if decide (L < 0) then Raise RuntimeError else
  mapM (λ x, mapM (λ w, q ← floor_divide x w; remainder q b)
               (powers b (arange_desc L))) xs.
Proof.
  intros Hb. unfold numbers_to_digits. destruct (decide (L < 0)); [done|].
  unfold int64 in Hb. rewrite pow_Ok, bind_Ok by lia.
  apply mapM_ext. intros x. apply mapM_ext. intros w.
  destruct (floor_divide x w); [|done..].
  rewrite !bind_Ok. by apply remainder_scalar_int64.
Qed.

(** Decoding a row is its positional value, wrapped. *)
Lemma decode_row_from (b : Z) (row : list Z) (acc : Z) :
  foldl add64 (wrap64 acc)
    (zip_with mul64 row (powers b (arange_desc (Z.of_nat (length row))))) =
  wrap64 (acc + row_value b row).
Proof.
  revert acc. induction row as [|d row IH]; intros acc.
  - cbn. by rewrite Z.add_0_r.
  - cbn [length]. rewrite arange_desc_S. cbn [powers fmap list_fmap zip_with foldl].
    change (list_fmap Z Z (λ e, wrap64 (b ^ e)) ?l) with (powers b l).
    rewrite mul64_wrap_r, add64_wrap_l, wrap64_add_idemp_r, IH.
    cbn [row_value]. f_equal. lia.
Qed.

Lemma size1_has_shape {A : Type} (rows cols : Z) (t : list (list A)) (i : nat)
    (row : list A) :
  has_shape rows cols t → t !! i = Some row →
  size1 t = cols ∧ Z.of_nat (length row) = cols.
Proof.
  intros [_ Hcols] Hrow. rewrite Forall_lookup in Hcols. split.
  - destruct t as [|first t]; [done|]. cbn. by apply (Hcols 0%nat).
  - by apply (Hcols i).
Qed.

(** On a tensor whose rows have one width, and for a base that [torch.pow]
    takes, [digits_to_numbers] returns the positional values of the rows,
    wrapped. *)
Lemma digits_to_numbers_value (ds : list (list Z)) (b rows cols : Z) :
  - 2 ^ 63 ≤ b < 2 ^ 64 → has_shape rows cols ds →
  digits_to_numbers ds b = Ok ((λ row, wrap64 (row_value b row)) <$> ds).
Proof.
  intros Hb Hshape. unfold digits_to_numbers. rewrite pow_Ok, bind_Ok by done.
  f_equal. apply list_fmap_ext. intros i row Hrow. cbn.
  destruct (size1_has_shape rows cols ds i row Hshape Hrow) as [-> <-].
  unfold sum64. change 0 with (wrap64 0) at 1. by rewrite decode_row_from.
Qed.

Lemma digits_to_numbers_Raise (ds : list (list Z)) (b : Z) :
  b < - 2 ^ 63 ∨ 2 ^ 64 ≤ b → digits_to_numbers ds b = Raise OverflowError.
Proof. intros. unfold digits_to_numbers, pow. by rewrite scalar_Raise. Qed.

Lemma row_value_bounds (b : Z) (row : list Z) :
  1 ≤ b → digit_row b row → 0 ≤ row_value b row < b ^ Z.of_nat (length row).
Proof.
  intros Hb. induction 1 as [|d row Hd _ IH]; cbn [row_value length].
  - cbn. lia.
  - rewrite Nat2Z.inj_succ, Z.pow_succ_r by lia.
    pose proof (Z.pow_pos_nonneg b (Z.of_nat (length row))). nia.
Qed.

(** Encoding returns whenever no weight is 0: each entry is then the wrapped
    quotient by its weight, reduced modulo the base. *)
Lemma numbers_to_digits_Ok (xs : list Z) (b L : Z) :
  int64 b → b ≠ 0 → 0 ≤ L → weights_nonzero b (L - 1) →
  numbers_to_digits xs b L =
  Ok ((λ x, (λ e, wrap64 (x / wrap64 (b ^ e)) mod b) <$> arange_desc L) <$> xs).
Proof.
  intros H64 Hb HL Hw. rewrite numbers_to_digits_int64 by done.
  rewrite decide_False by lia.
  apply mapM_Ok, Forall_forall. intros x _. unfold powers.
  rewrite (mapM_Ok (λ w, wrap64 (x / w) mod b)).
  - by rewrite <- list_fmap_compose.
  - apply Forall_forall. intros w [e [-> He]]%list_elem_of_fmap.
    apply elem_of_arange_desc in He.
    unfold floor_divide, remainder.
    rewrite decide_False by (apply Hw; lia). rewrite bind_Ok.
    by rewrite decide_False.
Qed.

Lemma numbers_to_digits_shape (xs : list Z) (b L : Z) (ds : list (list Z)) :
  0 < b < 2 ^ 63 → numbers_to_digits xs b L = Ok ds →
  length ds = length xs ∧
  Forall (λ row, Z.of_nat (length row) = L ∧ digit_row b row) ds.
Proof.
  intros Hb H. rewrite numbers_to_digits_int64 in H by (unfold int64; lia).
  destruct (decide (L < 0)); [discriminate|].
  apply mapM_Ok_inv in H. split.
  - symmetry. by eapply Forall2_length.
  - eapply Forall2_Forall_r; [exact H|]. apply Forall_forall.
    intros x _ row Hrow. apply mapM_Ok_inv in Hrow. split.
    + apply Forall2_length in Hrow. rewrite <- Hrow.
      unfold powers. rewrite length_fmap, length_arange_desc. lia.
    + eapply Forall2_Forall_r; [exact Hrow|]. apply Forall_forall.
      intros w _ d Hd. apply bind_Ok_inv in Hd as (q & _ & Hd).
      unfold remainder in Hd. destruct (decide (b = 0)); [lia|].
      injection Hd as <-. apply Z.mod_pos_bound. lia.
Qed.

(** The digits of [x] in [L] columns denote [x mod b ^ L]. *)
Lemma row_value_digits (b x : Z) (L : nat) :
  0 < b →
  row_value b ((λ e, (x / b ^ e) mod b) <$> arange_desc (Z.of_nat L)) =
  x mod b ^ Z.of_nat L.
Proof.
  intros Hb. induction L as [|L IH].
  - cbn. by rewrite Z.mod_1_r.
  - rewrite arange_desc_S. cbn [fmap list_fmap row_value].
    change (list_fmap Z Z ?f ?l) with (f <$> l).
    rewrite length_fmap, length_arange_desc, Nat2Z.id, IH.
    rewrite Nat2Z.inj_succ, Z.pow_succ_r, (Z.mul_comm b) by lia.
    rewrite Z.rem_mul_r by (pose proof (Z.pow_pos_nonneg b (Z.of_nat L)); lia).
    lia.
Qed.

(** Exact digits: weights that fit are not wrapped, and neither are the
    quotients of a non-negative int64 value. *)
Lemma numbers_to_digits_exact (xs : list Z) (b L : Z) :
  2 ≤ b < 2 ^ 63 → 0 ≤ L → (∀ k, 0 ≤ k < L → b ^ k < 2 ^ 63) →
  Forall (λ x, 0 ≤ x < 2 ^ 63) xs →
  numbers_to_digits xs b L =
  Ok ((λ x, (λ e, (x / b ^ e) mod b) <$> arange_desc L) <$> xs).
Proof.
  intros Hb HL Hfit Hxs.
  assert (∀ e, 0 ≤ e < L → wrap64 (b ^ e) = b ^ e) as Hweight.
  { intros e He. apply wrap64_small. unfold int64.
    pose proof (Z.pow_pos_nonneg b e). specialize (Hfit e). lia. }
  rewrite numbers_to_digits_Ok; [|unfold int64; lia|lia|lia|].
  - f_equal. apply list_fmap_ext. intros _ x Hx%list_elem_of_lookup_2.
    rewrite Forall_forall in Hxs. specialize (Hxs x Hx).
    apply list_fmap_ext. intros _ e He%list_elem_of_lookup_2.
    apply elem_of_arange_desc in He. rewrite Hweight by done.
    rewrite wrap64_small; [done|]. unfold int64.
    pose proof (Z.pow_pos_nonneg b e).
    assert (0 ≤ x / b ^ e ≤ x); [|lia].
    split; [apply Z.div_pos; lia|]. apply Z.div_le_upper_bound; nia.
  - intros k Hk. rewrite Hweight by lia. pose proof (Z.pow_pos_nonneg b k). lia.
Qed.

Lemma digits_shape (xs : list Z) (L : Z) (f : Z → Z → Z) :
  0 ≤ L →
  has_shape (Z.of_nat (length xs)) L ((λ x, f x <$> arange_desc L) <$> xs).
Proof.
  intros HL. split; [by rewrite length_fmap|].
  apply Forall_fmap, Forall_forall. intros x _. cbn.
  rewrite length_fmap, length_arange_desc. lia.
Qed.

Lemma roundtrip_exact (xs : list Z) (b L : Z) :
  2 ≤ b < 2 ^ 63 → 0 ≤ L → (∀ k, 0 ≤ k < L → b ^ k < 2 ^ 63) →
  Forall (λ x, 0 ≤ x < b ^ L ∧ x < 2 ^ 63) xs →
  ∃ ds, numbers_to_digits xs b L = Ok ds ∧ digits_to_numbers ds b = Ok xs.
Proof.
  intros Hb HL Hfit Hxs. eexists. split.
  - apply numbers_to_digits_exact; try done.
    eapply Forall_impl; [exact Hxs|]. cbn. lia.
  - rewrite (digits_to_numbers_value _ b (Z.of_nat (length xs)) L);
      [|lia|by apply digits_shape].
    f_equal. rewrite <- list_fmap_compose.
    rewrite <- (list_fmap_id xs) at 2.
    apply list_fmap_ext. intros _ x Hx%list_elem_of_lookup_2. cbn.
    rewrite Forall_forall in Hxs. specialize (Hxs x Hx).
    rewrite <- (Z2Nat.id L) by done.
    rewrite row_value_digits by lia. rewrite Z2Nat.id by done.
    rewrite Z.mod_small by lia. apply wrap64_small. unfold int64. lia.
Qed.

End TensorCodec.

Section TensorCodecClaims.

Import Torch Dataset Notions.

(** C4, as amended. For every batch [xs] of non-negative int64 values, every
    base [b] from 2 up that is an int64 value and every [L] such that each
    value is below [b ^ L] and each weight [b ^ k], [k < L], fits in int64,
    [numbers_to_digits] returns and [digits_to_numbers] gives [xs] back. *)
Theorem numbers_roundtrip (xs : list Z) (b L : Z) :
  2 ≤ b < 2 ^ 63 → 0 ≤ L → (∀ k, 0 ≤ k < L → b ^ k < 2 ^ 63) →
  Forall (λ x, 0 ≤ x < b ^ L ∧ x < 2 ^ 63) xs →
  ∃ ds, numbers_to_digits xs b L = Ok ds ∧ digits_to_numbers ds b = Ok xs.
Proof. apply roundtrip_exact. Qed.

Lemma numbers_roundtrip_witness :
  Forall (λ x, 0 ≤ x < 10 ^ 3 ∧ x < 2 ^ 63) [10; 2] ∧
  ∃ ds, numbers_to_digits [10; 2] 10 3 = Ok ds ∧
        digits_to_numbers ds 10 = Ok [10; 2].
Proof.
  assert (Forall (λ x, 0 ≤ x < 10 ^ 3 ∧ x < 2 ^ 63) [10; 2]) as Hxs
    by (repeat constructor; lia).
  split; [exact Hxs|].
  apply (numbers_roundtrip [10; 2] 10 3); [lia | lia | | exact Hxs].
  intros k Hk. apply Z.le_lt_trans with (10 ^ 2); [|lia].
  apply Z.pow_le_mono_r; lia.
Defined.

(** C4 as stated fails once a weight leaves int64. The value
    8922003266371364727 is below [7 ^ 24], yet with base 7 and [L = 24] the
    weight [7 ^ 23] of the first column wraps to that very value, the first
    digit comes out as 1 instead of 0, and the digits decode to another
    number. The value 1 is below [2 ^ 65], yet with base 2 and [L = 65] the
    weight [2 ^ 64] wraps to 0 and the division raises. And it fails for a
    base that is not an int64 value: 5 is below [(2 ^ 63) ^ 1], yet with base
    [2 ^ 63] and [L = 1] the remainder is taken by the base reduced to int64,
    [- 2 ^ 63], and the digit decodes to [5 - 2 ^ 63]. *)
Lemma numbers_roundtrip_overflow :
  Forall (λ x, 0 ≤ x < 7 ^ 24) [8922003266371364727] ∧
  (∃ ds, numbers_to_digits [8922003266371364727] 7 24 = Ok ds ∧
         digits_to_numbers ds 7 = Ok [-602737540966822162]) ∧
  Forall (λ x, 0 ≤ x < 2 ^ 65) [1] ∧
  numbers_to_digits [1] 2 65 = Raise RuntimeError ∧
  Forall (λ x, 0 ≤ x < (2 ^ 63) ^ 1) [5] ∧
  numbers_to_digits [5] (2 ^ 63) 1 = Ok [[5 - 2 ^ 63]] ∧
  digits_to_numbers [[5 - 2 ^ 63]] (2 ^ 63) = Ok [5 - 2 ^ 63].
Proof.
  split; [repeat constructor; lia|]. split.
  - eexists. split; [vm_compute; reflexivity|]. vm_compute. reflexivity.
  - split; [repeat constructor; lia|]. split; [vm_compute; reflexivity|].
    split; [repeat constructor; lia|]. split; vm_compute; reflexivity.
Qed.

End TensorCodecClaims.

(** ** Operand generation and the sum block of [generate_batch] *)

Section Operands.

Import Torch Dataset Notions.

Lemma masked_fill_Forall (P : Z → Prop) (t : list (list Z))
    (mask : list (list bool)) (v : Z) :
  P v → Forall (Forall P) t → Forall (Forall P) (masked_fill t mask v).
Proof.
  intros Hv Ht. unfold masked_fill. apply Forall_lookup. intros i row' Hi.
  apply lookup_zip_with_Some in Hi as (row & m & -> & Hrow & _).
  rewrite Forall_lookup in Ht. specialize (Ht i row Hrow).
  apply Forall_lookup. intros j x Hj.
  apply lookup_zip_with_Some in Hj as (y & c & -> & Hy & _).
  destruct c; [done|]. rewrite Forall_lookup in Ht. eauto.
Qed.

Lemma masked_fill_shape (rows cols : Z) (t : list (list Z))
    (mask : list (list bool)) (v : Z) :
  has_shape rows cols t → has_shape rows cols mask →
  has_shape rows cols (masked_fill t mask v).
Proof.
  intros [Hrows Hcols] [Hmrows Hmcols]. unfold masked_fill. split.
  - rewrite length_zip_with. lia.
  - apply Forall_lookup. intros i row' Hi.
    apply lookup_zip_with_Some in Hi as (row & m & -> & Hrow & Hm).
    rewrite Forall_lookup in Hcols. rewrite Forall_lookup in Hmcols.
    specialize (Hcols i row Hrow). specialize (Hmcols i m Hm). cbn in *.
    rewrite length_zip_with. lia.
Qed.

Lemma randint_Ok {A : Type} (high : Z) (shape : list Z) (drawn : A) :
  0 < high → Forall (λ d, 0 ≤ d) shape → randint high shape drawn = Ok drawn.
Proof. intros. unfold randint. by rewrite decide_True. Qed.

(** A well-formed draw gives a [(bs, L)] grid of digits. *)
Lemma make_digits_random_length_Ok (bs b L : Z) (rng : operand_draw) :
  0 < b → 0 < L → draw_ok bs b L rng →
  ∃ t, make_digits_random_length bs b L rng = Ok t ∧
       has_shape bs L t ∧ Forall (digit_row b) t.
Proof.
  intros Hb HL [[Hrows Hgrid] [Hn _]]. unfold make_digits_random_length.
  rewrite !randint_Ok by (repeat constructor; lia). result_simpl.
  eexists. split; [reflexivity|]. split.
  - apply masked_fill_shape.
    + split; [done|]. eapply Forall_impl; [exact Hgrid|]. by intros row [? _].
    + split; [by rewrite length_fmap|].
      apply Forall_fmap, Forall_forall. intros n _. cbn.
      unfold arange. rewrite length_fmap, length_seqZ. lia.
  - apply (masked_fill_Forall (λ d, 0 ≤ d < b)); [lia|].
    eapply Forall_impl; [exact Hgrid|]. by intros row [_ ?].
Qed.

(** Rows of digits whose width keeps [b ^ L] within int64 decode to their
    value, with no wrap-around. *)
Lemma digits_to_numbers_exact (t : list (list Z)) (rows b L : Z) :
  1 ≤ b < 2 ^ 63 → b ^ L ≤ 2 ^ 63 → has_shape rows L t → Forall (digit_row b) t →
  digits_to_numbers t b = Ok (row_value b <$> t).
Proof.
  intros Hb Hfit Hshape Hdig.
  rewrite (digits_to_numbers_value t b rows L) by (done || lia).
  destruct Hshape as [_ Hcols].
  f_equal. apply list_fmap_ext. intros i row Hrow.
  rewrite Forall_lookup in Hcols, Hdig.
  specialize (Hcols i row Hrow). specialize (Hdig i row Hrow). cbn in Hcols.
  pose proof (row_value_bounds b row ltac:(lia) Hdig) as Hv. rewrite Hcols in Hv.
  apply wrap64_small. unfold int64. lia.
Qed.

(** A base whose power [2 * base ^ L], [L] at least 1, fits in int64 is far
    inside int64, and so are the four tokens above it. *)
Lemma base_bound (b L : Z) : 2 ≤ b → 1 ≤ L → 2 * b ^ L < 2 ^ 63 → b < 2 ^ 62.
Proof.
  intros Hb HL Hfit.
  assert (b ^ 1 ≤ b ^ L) by (apply Z.pow_le_mono_r; lia).
  rewrite Z.pow_1_r in *. lia.
Qed.

(** The sum block, when [2 * base ^ number_length] fits in int64. *)
Lemma sum_digits_exact (self : AdditionDataset) (rows : Z)
    (in0 in1 : list (list Z)) :
  2 ≤ base self < 2 ^ 63 → 0 ≤ number_length self →
  2 * base self ^ number_length self < 2 ^ 63 →
  has_shape rows (number_length self) in0 → Forall (digit_row (base self)) in0 →
  has_shape rows (number_length self) in1 → Forall (digit_row (base self)) in1 →
  ∃ out, sum_digits self in0 in1 = Ok out ∧
         digits_to_numbers in0 (base self) = Ok (row_value (base self) <$> in0) ∧
         digits_to_numbers in1 (base self) = Ok (row_value (base self) <$> in1) ∧
         digits_to_numbers out (base self) =
           Ok (zip_with add64 (row_value (base self) <$> in0)
                 (row_value (base self) <$> in1)) ∧
         zip_with add64 (row_value (base self) <$> in0)
           (row_value (base self) <$> in1) =
         zip_with Z.add (row_value (base self) <$> in0)
           (row_value (base self) <$> in1).
Proof.
  set (b := base self). set (L := number_length self).
  intros Hb HL Hfit Hs0 Hd0 Hs1 Hd1.
  assert (0 < b ^ L) as Hpos by (apply Z.pow_pos_nonneg; lia).
  assert (b ^ (L + 1) = b * b ^ L) as Hsucc by (rewrite Z.pow_add_r; lia).
  pose proof (digits_to_numbers_exact in0 rows b L ltac:(lia) ltac:(lia) Hs0 Hd0)
    as Hn0.
  pose proof (digits_to_numbers_exact in1 rows b L ltac:(lia) ltac:(lia) Hs1 Hd1)
    as Hn1.
  unfold sum_digits. fold b L. rewrite Hn0, bind_Ok, Hn1, bind_Ok.
  assert (Forall (λ x, 0 ≤ x < 2 * b ^ L)
            (zip_with Z.add (row_value b <$> in0) (row_value b <$> in1))) as Hsum.
  { apply Forall_lookup. intros i x Hi.
    apply lookup_zip_with_Some in Hi as (v0 & v1 & -> & H0 & H1).
    apply list_lookup_fmap_Some in H0 as (r0 & -> & Hr0).
    apply list_lookup_fmap_Some in H1 as (r1 & -> & Hr1).
    destruct Hs0 as [_ Hc0]. destruct Hs1 as [_ Hc1].
    rewrite Forall_lookup in Hc0, Hc1, Hd0, Hd1.
    pose proof (row_value_bounds b r0 ltac:(lia) (Hd0 i r0 Hr0)) as B0.
    pose proof (row_value_bounds b r1 ltac:(lia) (Hd1 i r1 Hr1)) as B1.
    rewrite (Hc0 i r0 Hr0) in B0. rewrite (Hc1 i r1 Hr1) in B1. lia. }
  assert (zip_with add64 (row_value b <$> in0) (row_value b <$> in1) =
          zip_with Z.add (row_value b <$> in0) (row_value b <$> in1)) as Hadd.
  { apply list_eq. intros i. rewrite !lookup_zip_with.
    destruct ((row_value b <$> in0) !! i) as [v0|] eqn:H0; [|done].
    destruct ((row_value b <$> in1) !! i) as [v1|] eqn:H1; [|done]. cbn.
    f_equal. apply wrap64_small. unfold int64.
    rewrite Forall_lookup in Hsum. specialize (Hsum i (v0 + v1)).
    rewrite lookup_zip_with, H0, H1 in Hsum. specialize (Hsum eq_refl). lia. }
  rewrite Hadd.
  destruct (roundtrip_exact
              (zip_with Z.add (row_value b <$> in0) (row_value b <$> in1))
              b (L + 1)) as (out & Hout & Hdec); [lia | lia | | | ].
  - intros k Hk. apply Z.le_lt_trans with (b ^ L); [|lia].
    apply Z.pow_le_mono_r; lia.
  - eapply Forall_impl; [exact Hsum|]. cbn. intros x Hx. nia.
  - exists out. by rewrite Hout, Hdec.
Qed.

End Operands.

Section SumBlockClaims.

Import Torch Dataset Notions.

(** C1, as amended. In [generate_batch], for every base from 2 up and every
    [number_length] from 1 up such that [2 * base ^ number_length] fits in
    int64, and for every batch the generator can draw, the operands and the
    output digit block are produced, and decoding the output block with
    [digits_to_numbers] yields
    [digits_to_numbers in_digits0 + digits_to_numbers in_digits1], which is
    the sum of the numbers the operand rows denote. *)
Theorem generate_batch_sum_digits (self : AdditionDataset) (bs : Z)
    (rng0 rng1 : operand_draw) :
  2 ≤ base self → 1 ≤ number_length self →
  2 * base self ^ number_length self < 2 ^ 63 →
  draw_ok bs (base self) (number_length self) rng0 →
  draw_ok bs (base self) (number_length self) rng1 →
  ∃ in_digits0 in_digits1 out_digits numbers0 numbers1,
    make_digits_random_length bs (base self) (number_length self) rng0
      = Ok in_digits0 ∧
    make_digits_random_length bs (base self) (number_length self) rng1
      = Ok in_digits1 ∧
    sum_digits self in_digits0 in_digits1 = Ok out_digits ∧
    digits_to_numbers in_digits0 (base self) = Ok numbers0 ∧
    digits_to_numbers in_digits1 (base self) = Ok numbers1 ∧
    digits_to_numbers out_digits (base self)
      = Ok (zip_with add64 numbers0 numbers1) ∧
    zip_with add64 numbers0 numbers1 =
      zip_with Z.add (row_value (base self) <$> in_digits0)
        (row_value (base self) <$> in_digits1).
Proof.
  intros Hb HL Hfit Hrng0 Hrng1.
  pose proof (base_bound _ _ Hb HL Hfit) as Hb62.
  destruct (make_digits_random_length_Ok bs (base self) (number_length self) rng0)
    as (in0 & Hin0 & Hs0 & Hd0); [lia | lia | done |].
  destruct (make_digits_random_length_Ok bs (base self) (number_length self) rng1)
    as (in1 & Hin1 & Hs1 & Hd1); [lia | lia | done |].
  destruct (sum_digits_exact self bs in0 in1)
    as (out & Hout & Hn0 & Hn1 & Hdec & Hval); try done; [lia | lia|].
  exists in0, in1, out. eexists. eexists.
  repeat (split; [done|]). done.
Qed.

(** The scenario of the specification: base 10, operands [[0; 7]] and
    [[0; 3]]; the output digits decode to 10. *)
Lemma generate_batch_sum_digits_witness :
  let self := Dataset.init (10 ^ 6) 10 2 in
  let rng0 := {| drawn_digits := [[4; 7]]; drawn_n_digits := [1] |} in
  let rng1 := {| drawn_digits := [[8; 3]]; drawn_n_digits := [1] |} in
  draw_ok 1 10 2 rng0 ∧ draw_ok 1 10 2 rng1 ∧
  ∃ out_digits,
    make_digits_random_length 1 10 2 rng0 = Ok [[0; 7]] ∧
    make_digits_random_length 1 10 2 rng1 = Ok [[0; 3]] ∧
    sum_digits self [[0; 7]] [[0; 3]] = Ok out_digits ∧
    digits_to_numbers out_digits 10 = Ok [10].
Proof.
  intros self rng0 rng1.
  assert (draw_ok 1 10 2 rng0) as H0 by (repeat split; repeat constructor; lia).
  assert (draw_ok 1 10 2 rng1) as H1 by (repeat split; repeat constructor; lia).
  split; [exact H0|]. split; [exact H1|].
  destruct (generate_batch_sum_digits self 1 rng0 rng1)
    as (in0 & in1 & out & n0 & n1 & Hin0 & Hin1 & Hout & Hn0 & Hn1 & Hdec & _);
    [cbn; lia | cbn; lia | cbn; lia | exact H0 | exact H1 |].
  vm_compute in Hin0. injection Hin0 as <-.
  vm_compute in Hin1. injection Hin1 as <-.
  vm_compute in Hn0. injection Hn0 as <-.
  vm_compute in Hn1. injection Hn1 as <-.
  exists out. repeat split; [exact Hout | exact Hdec].
Defined.

(** C1 as stated fails when [base ^ number_length] leaves int64. With base 7
    and [number_length] 23 the weight [7 ^ 23] of the first output column
    wraps to 8922003266371364727; for the operands 8922003266371364727 and 0
    the first output digit is then 1 instead of 0 and the output block
    decodes to another number than the sum. With base 16 and [number_length]
    16 the weight [16 ^ 16] wraps to 0 and the division raises. *)
Lemma generate_batch_sum_digits_overflow :
  let a := [2; 1; 6; 5; 4; 6; 4; 5; 1; 4; 4; 1; 4; 3; 5; 3; 2; 5; 3; 2; 0; 6; 5] in
  let rng0 := {| drawn_digits := [a]; drawn_n_digits := [0] |} in
  let rng1 := {| drawn_digits := [replicate 23 0]; drawn_n_digits := [0] |} in
  let self := Dataset.init (10 ^ 6) 7 23 in
  let zeros := {| drawn_digits := [replicate 16 0]; drawn_n_digits := [0] |} in
  let self16 := Dataset.init (10 ^ 6) 16 16 in
  (draw_ok 1 7 23 rng0 ∧ draw_ok 1 7 23 rng1 ∧
   make_digits_random_length 1 7 23 rng0 = Ok [a] ∧
   make_digits_random_length 1 7 23 rng1 = Ok [replicate 23 0] ∧
   digits_to_numbers [a] 7 = Ok [8922003266371364727] ∧
   digits_to_numbers [replicate 23 0] 7 = Ok [0] ∧
   ∃ out_digits decoded,
     sum_digits self [a] [replicate 23 0] = Ok out_digits ∧
     digits_to_numbers out_digits 7 = Ok decoded ∧
     decoded ≠ zip_with add64 [8922003266371364727] [0]) ∧
  (draw_ok 1 16 16 zeros ∧
   make_digits_random_length 1 16 16 zeros = Ok [replicate 16 0] ∧
   sum_digits self16 [replicate 16 0] [replicate 16 0] = Raise RuntimeError ∧
   generate_batch self16 1 zeros zeros = Raise RuntimeError).
Proof.
  intros a rng0 rng1 self zeros self16. split.
  - split; [repeat split; repeat constructor; lia|].
    split; [repeat split; repeat constructor; lia|].
    split; [vm_compute; reflexivity|]. split; [vm_compute; reflexivity|].
    split; [vm_compute; reflexivity|]. split; [vm_compute; reflexivity|].
    eexists. eexists. split; [vm_compute; reflexivity|].
    split; [vm_compute; reflexivity|]. vm_compute. discriminate.
  - split; [repeat split; repeat constructor; lia|].
    repeat split; vm_compute; reflexivity.
Qed.

End SumBlockClaims.

(** ** [leading_zeros_to_padding_] *)

Section LeadingZeros.

Import Torch Dataset Notions.

Lemma length_cumsum_from (acc : Z) (row : list Z) :
  length (cumsum_from acc row) = length row.
Proof. revert acc. induction row as [|x row IH]; intros acc; cbn; [done|]. by rewrite IH. Qed.

Lemma length_cumsum (row : list Z) : length (cumsum row) = length row.
Proof. apply length_cumsum_from. Qed.

Lemma set_last_column_Ok {A : Type} (t : list (list A)) (v : A) :
  Forall (λ row, row ≠ []) t →
  set_last_column t v = Ok ((λ row, <[Nat.pred (length row) := v]> row) <$> t).
Proof.
  intros Ht. unfold set_last_column. apply mapM_Ok.
  eapply Forall_impl; [exact Ht|]. intros [|x row] Hrow; [done|reflexivity].
Qed.

(** Row by row: the mask is the zero test of the running sum, with its last
    position cleared. *)
Lemma leading_zeros_to_padding_rows (digits : list (list Z)) (pad : Z) :
  Forall (λ row, row ≠ []) digits →
  leading_zeros_to_padding_ digits pad =
  Ok ((λ row,
         zip_with (λ x (m : bool), if m then pad else x) row
           (<[Nat.pred (length row) := false]>
              ((λ s, bool_decide (s = 0)) <$> cumsum row))) <$> digits).
Proof.
  intros Hne. unfold leading_zeros_to_padding_.
  rewrite set_last_column_Ok.
  - rewrite bind_Ok. f_equal. unfold masked_fill.
    rewrite <- list_fmap_compose, zip_with_fmap_r, zip_with_diag.
    apply list_fmap_ext. intros _ row _. cbn.
    by rewrite length_fmap, length_cumsum.
  - apply Forall_fmap. eapply Forall_impl; [exact Hne|].
    intros [|x row] Hrow; [done|]. cbn. done.
Qed.

Lemma row_sum_cons (x : Z) (row : list Z) : row_sum (x :: row) = x + row_sum row.
Proof. reflexivity. Qed.

Lemma row_sum_nonneg (row : list Z) : Forall (λ d, 0 ≤ d) row → 0 ≤ row_sum row.
Proof. induction 1; rewrite ?row_sum_cons; [done|lia]. Qed.

Lemma cumsum_from_pos (acc : Z) (row : list Z) :
  0 < acc → Forall (λ d, 0 ≤ d) row → acc + row_sum row < 2 ^ 63 →
  Forall (λ s, s ≠ 0) (cumsum_from acc row).
Proof.
  intros Hacc Hrow. revert acc Hacc.
  induction Hrow as [|x row Hx Hrow IH]; intros acc Hacc Hsum; cbn; [constructor|].
  pose proof (row_sum_nonneg row Hrow). rewrite row_sum_cons in Hsum.
  unfold add64. rewrite wrap64_small by (unfold int64; lia).
  constructor; [lia|]. apply IH; lia.
Qed.

(** While the running sum does not wrap, it is 0 exactly on the leading run
    of zeros. *)
Lemma cumsum_zero_iff (row : list Z) (j : nat) (s : Z) :
  Forall (λ d, 0 ≤ d) row → row_sum row < 2 ^ 63 →
  cumsum row !! j = Some s → (s = 0 ↔ (j < leading_zeros row)%nat).
Proof.
  unfold cumsum. intros Hrow. revert j.
  induction Hrow as [|x row Hx Hrow IH]; intros j Hsum Hj; [done|].
  pose proof (row_sum_nonneg row Hrow). rewrite row_sum_cons in Hsum.
  cbn [cumsum_from] in Hj. unfold add64 in Hj. cbn [Z.add] in Hj.
  rewrite wrap64_small in Hj by (unfold int64; lia).
  destruct j as [|j]; cbn in Hj.
  - injection Hj as <-. destruct x; cbn; split; (lia || done).
  - destruct (decide (x = 0)) as [->|Hnz].
    + cbn. rewrite (IH j) by (done || lia). lia.
    + assert (s ≠ 0) as Hs.
      { pose proof (cumsum_from_pos x row ltac:(lia) Hrow ltac:(lia)) as Hall.
        rewrite Forall_lookup in Hall. by apply (Hall j). }
      destruct x; cbn; split; (lia || done).
Qed.

Lemma leading_zeros_le (row : list Z) : (leading_zeros row ≤ length row)%nat.
Proof. induction row as [|[| |] row IH]; cbn; lia. Qed.

Lemma padded_row_eq (pad : Z) (row : list Z) :
  digits_row row →
  zip_with (λ x (m : bool), if m then pad else x) row
    (<[Nat.pred (length row) := false]>
       ((λ s, bool_decide (s = 0)) <$> cumsum row)) =
  padded_row pad row.
Proof.
  intros (Hne & Hrow & Hsum). unfold padded_row.
  set (k := (leading_zeros row `min` Nat.pred (length row))%nat).
  assert (0 < length row)%nat as Hlen by (destruct row; [done|cbn; lia]).
  pose proof (leading_zeros_le row) as Hlz.
  apply list_eq. intros j. rewrite lookup_zip_with.
  destruct (row !! j) as [x|] eqn:Hx; cbn.
  - pose proof (lookup_lt_Some _ _ _ Hx) as Hj.
    destruct (cumsum row !! j) as [s|] eqn:Hs.
    2:{ apply lookup_ge_None in Hs. rewrite length_cumsum in Hs. lia. }
    pose proof (cumsum_zero_iff row j s Hrow Hsum Hs) as Hiff.
    destruct (decide (j = Nat.pred (length row))) as [Hlast|Hnlast].
    + rewrite Hlast, list_lookup_insert_eq
        by (rewrite length_fmap, length_cumsum; lia).
      cbn. rewrite lookup_app_r by (rewrite length_replicate; lia).
      rewrite length_replicate, lookup_drop, <- Hlast.
      replace (k + (j - k))%nat with j by lia. done.
    + rewrite list_lookup_insert_ne by done.
      rewrite list_lookup_fmap, Hs. cbn.
      destruct (decide (j < k)%nat) as [Hjk|Hjk].
      * rewrite bool_decide_eq_true_2 by (apply Hiff; lia).
        rewrite lookup_app_l by (rewrite length_replicate; lia).
        by rewrite lookup_replicate_2.
      * rewrite bool_decide_eq_false_2 by (rewrite Hiff; lia).
        rewrite lookup_app_r by (rewrite length_replicate; lia).
        rewrite length_replicate, lookup_drop.
        replace (k + (j - k))%nat with j by lia. done.
  - apply lookup_ge_None in Hx. symmetry. apply lookup_ge_None.
    rewrite length_app, length_replicate, length_drop. lia.
Qed.

(** C6. For every digit matrix (rows that have a last column and hold
    non-negative digits whose sum fits in int64),
    [leading_zeros_to_padding_] returns the matrix in which each row has
    exactly its leading run of zeros replaced by the padding token, the last
    column excepted: the last column keeps its digit, and a row of zeros
    becomes padding in every column but the last, which stays 0. *)
Theorem leading_zeros_to_padding_spec (digits : list (list Z)) (pad : Z) :
  Forall digits_row digits →
  leading_zeros_to_padding_ digits pad = Ok (padded_row pad <$> digits) ∧
  (∀ row, row ∈ digits → last (padded_row pad row) = last row) ∧
  (∀ n : nat, padded_row pad (replicate (S n) 0) = replicate n pad ++ [0]).
Proof.
  intros Hdigits. split; [|split].
  - rewrite leading_zeros_to_padding_rows.
    + f_equal. apply list_fmap_ext. intros i row Hrow%list_elem_of_lookup_2.
      rewrite Forall_forall in Hdigits. by apply padded_row_eq, Hdigits.
    + eapply Forall_impl; [exact Hdigits|]. by intros row [? _].
  - intros row Hrow. rewrite Forall_forall in Hdigits.
    destruct (Hdigits row Hrow) as (Hne & _). unfold padded_row.
    set (k := (leading_zeros row `min` Nat.pred (length row))%nat).
    assert (0 < length row)%nat as Hlen by (destruct row; [done|cbn; lia]).
    rewrite <- (take_drop k row) at 2.
    assert (drop k row ≠ []) as Hd.
    { intros Hnil%(f_equal length). rewrite length_drop in Hnil. cbn in Hnil. lia. }
    destruct (drop k row) as [|y l] eqn:Hdrop; [done|].
    by rewrite !last_app_cons.
  - intros n. unfold padded_row.
    assert (leading_zeros (replicate (S n) 0) = S n) as ->.
    { generalize (S n). intros m. induction m as [|m IH]; cbn; [done|]. by rewrite IH. }
    rewrite length_replicate. cbn [Nat.pred].
    replace (S n `min` n)%nat with n by lia.
    rewrite drop_replicate. by replace (S n - n)%nat with 1%nat by lia.
Qed.

Lemma leading_zeros_to_padding_spec_witness :
  Forall digits_row [[0; 0; 3; 0]; [0; 0; 0; 0]] ∧
  leading_zeros_to_padding_ [[0; 0; 3; 0]; [0; 0; 0; 0]] 12
    = Ok [[12; 12; 3; 0]; [12; 12; 12; 0]].
Proof.
  assert (Forall digits_row [[0; 0; 3; 0]; [0; 0; 0; 0]]) as H.
  { repeat constructor; (done || cbn; lia). }
  split; [exact H|].
  exact (proj1 (leading_zeros_to_padding_spec [[0; 0; 3; 0]; [0; 0; 0; 0]] 12 H)).
Defined.

End LeadingZeros.

(** ** [move_padding_to_end] *)

Section MovePadding.

Import Torch Dataset Notions.

#[local] Instance key_le_total : Total key_le.
Proof. intros p q. unfold key_le. lia. Qed.

#[local] Instance key_le_trans : Transitive key_le.
Proof. intros p q r. unfold key_le. lia. Qed.

Lemma sort_key_non_padding (W pad : Z) (j : nat) (t : Z) :
  t ≠ pad → sort_key W pad j t = Z.of_nat j.
Proof. intros. unfold sort_key. rewrite bool_decide_eq_true_2 by done. cbn. lia. Qed.

Lemma sort_key_padding (W pad : Z) (j : nat) :
  sort_key W pad j pad = W.
Proof.
  unfold sort_key. rewrite bool_decide_eq_false_2 by (intros H; by apply H).
  cbn. lia.
Qed.

Lemma length_sorting_row (row : list Z) (pad : Z) :
  length (sorting_row row pad) = length row.
Proof. unfold sorting_row. apply length_imap. Qed.

(** The indices the sort returns are a rearrangement of the columns, and the
    keys read along them are sorted. Nothing else about the sort is used
    below, so the order in which it leaves equal keys does not matter. *)
Lemma sort_indices (keys : list Z) :
  (sort keys).2 ≡ₚ List.seq 0 (length keys) ∧
  StronglySorted Z.le ((λ i, keys !!! i) <$> (sort keys).2).
Proof.
  unfold sort. cbn [fst snd].
  set (ps := merge_sort key_le (zip keys (List.seq 0 (length keys)))).
  assert (ps ≡ₚ zip keys (List.seq 0 (length keys))) as Hperm
    by apply merge_sort_Permutation.
  split.
  - rewrite Hperm. rewrite snd_zip; [done|]. by rewrite length_seq.
  - assert ((λ i, keys !!! i) <$> ps.*2 = ps.*1) as ->.
    { rewrite <- list_fmap_compose. apply list_fmap_ext.
      intros _ [k i] Hin%list_elem_of_lookup_2. cbn.
      rewrite Hperm in Hin. apply list_elem_of_lookup_1 in Hin as (j & Hj).
      apply lookup_zip_with_Some in Hj as (k' & i' & [= <- <-] & Hk & Hi).
      apply lookup_seq in Hi as [-> _].
      by apply list_lookup_total_correct. }
    apply (StronglySorted_fmap _ key_le); [by intros [] []|].
    apply StronglySorted_merge_sort; apply _.
Qed.

Lemma StronglySorted_fmap_inv {A B : Type} (f : A → B) (R : relation B)
    (l : list A) :
  StronglySorted R (f <$> l) → StronglySorted (λ x y, R (f x) (f y)) l.
Proof.
  induction l as [|a l IH]; intros H; [constructor|].
  rewrite fmap_cons in H. apply StronglySorted_inv in H as [Htail Hhead].
  constructor; [by apply IH|]. exact (proj1 (Forall_fmap f (R (f a)) l) Hhead).
Qed.

Lemma keyed_row_elem (row : list Z) (pad : Z) (p : Z * Z) :
  p ∈ keyed_row row pad →
  ∃ j, row !! j = Some p.2 ∧
       p.1 = sort_key (Z.of_nat (length row)) pad j p.2.
Proof.
  intros (j & Hj)%list_elem_of_lookup_1. unfold keyed_row in Hj.
  apply lookup_zip_with_Some in Hj as (k & t & -> & Hk & Ht).
  unfold sorting_row in Hk. rewrite list_lookup_imap, Ht in Hk.
  injection Hk as <-. exists j. done.
Qed.

Lemma StronglySorted_all {A : Type} (R : relation A) (l : list A) :
  (∀ x y, x ∈ l → y ∈ l → R x y) → StronglySorted R l.
Proof.
  induction l as [|a l IH]; intros H; constructor.
  - apply IH. intros x y Hx Hy. apply H; by right.
  - apply Forall_forall. intros y Hy. apply H; [left|by right].
Qed.

(** The tokens that are not padding carry increasing keys. *)
Lemma non_padding_sorted (W pad : Z) (row : list Z) (off : nat) :
  let kept := filter (λ p : Z * Z, p.2 ≠ pad)
                (zip (imap (λ j, sort_key W pad (off + j)) row) row) in
  StronglySorted keyed_le kept ∧ Forall (λ p, Z.of_nat off ≤ p.1) kept.
Proof.
  revert off. induction row as [|x row IH]; intros off; cbn zeta.
  - cbn. split; constructor.
  - rewrite imap_cons. cbn [zip_with].
    rewrite (imap_ext _ (λ j, sort_key W pad (S off + j)))
      by (intros j t _; cbn; f_equal; lia).
    destruct (IH (S off)) as [Hsorted Hlow]. cbn zeta in Hsorted, Hlow.
    destruct (decide (x = pad)) as [->|Hx].
    + rewrite filter_cons_False by (cbn; intros H; by apply H).
      split; [done|]. eapply Forall_impl; [exact Hlow|]. cbn. lia.
    + rewrite filter_cons_True by done.
      rewrite sort_key_non_padding by done.
      replace (off + 0)%nat with off by lia. split.
      * constructor; [done|]. eapply Forall_impl; [exact Hlow|].
        unfold keyed_le. cbn. lia.
      * constructor; [cbn; lia|]. eapply Forall_impl; [exact Hlow|]. cbn. lia.
Qed.

Lemma keyed_partition_sorted (row : list Z) (pad : Z) :
  StronglySorted keyed_le
    (filter (λ p : Z * Z, p.2 ≠ pad) (keyed_row row pad) ++
     filter (λ p : Z * Z, ¬ p.2 ≠ pad) (keyed_row row pad)).
Proof.
  apply StronglySorted_app_2.
  - intros p q [Hp1 Hp2]%list_elem_of_filter [Hq1 Hq2]%list_elem_of_filter.
    apply keyed_row_elem in Hp2 as (j & Hj & Hkp).
    apply keyed_row_elem in Hq2 as (k & _ & Hkq).
    assert (q.2 = pad) as Hpad by (destruct (decide (q.2 = pad)); done).
    rewrite Hpad, sort_key_padding in Hkq.
    rewrite sort_key_non_padding in Hkp by done.
    apply lookup_lt_Some in Hj. unfold keyed_le. lia.
  - pose proof (non_padding_sorted (Z.of_nat (length row)) pad row 0) as [H _].
    exact H.
  - apply StronglySorted_all.
    intros p q [Hp1 Hp2]%list_elem_of_filter [Hq1 Hq2]%list_elem_of_filter.
    apply keyed_row_elem in Hp2 as (j & _ & Hkp).
    apply keyed_row_elem in Hq2 as (k & _ & Hkq).
    assert (p.2 = pad) as Hp by (destruct (decide (p.2 = pad)); done).
    assert (q.2 = pad) as Hq by (destruct (decide (q.2 = pad)); done).
    rewrite Hp, sort_key_padding in Hkp. rewrite Hq, sort_key_padding in Hkq.
    unfold keyed_le. lia.
Qed.

Lemma keyed_row_key_inj (row : list Z) (pad : Z) (p q : Z * Z) :
  p ∈ keyed_row row pad → q ∈ keyed_row row pad → p.1 = q.1 → p = q.
Proof.
  intros (j & Hj & Hkp)%keyed_row_elem (k & Hk & Hkq)%keyed_row_elem Heq.
  destruct p as [kp tp], q as [kq tq]. cbn in *. subst kq.
  pose proof (lookup_lt_Some _ _ _ Hj). pose proof (lookup_lt_Some _ _ _ Hk).
  destruct (decide (tp = pad)) as [->|Hp], (decide (tq = pad)) as [->|Hq];
    rewrite ?sort_key_padding in *;
    rewrite ?sort_key_non_padding in * by done.
  - congruence.
  - lia.
  - lia.
  - assert (j = k) as -> by lia. congruence.
Qed.

Lemma filter_zip_snd (P : Z → Prop) `{!∀ t, Decision (P t)} (keys row : list Z) :
  length keys = length row →
  (filter (λ p : Z * Z, P p.2) (zip keys row)).*2 = filter P row.
Proof.
  revert keys. induction row as [|t row IH]; intros [|k keys] Hlen;
    try done. cbn [zip_with].
  rewrite !filter_cons. cbn [snd].
  assert (length keys = length row) as Hlen' by (cbn in Hlen; lia).
  destruct (decide (P t)).
  - rewrite fmap_cons. cbn [snd]. f_equal. by apply IH.
  - by apply IH.
Qed.

(** Gathering a row along any indices that rearrange its columns and sort
    its keys gives the tokens that are not padding, in their order, then the
    padding. *)
Lemma gather_sorted_indices (row : list Z) (pad : Z) (indices : list nat) :
  indices ≡ₚ List.seq 0 (length row) →
  StronglySorted Z.le ((λ i, sorting_row row pad !!! i) <$> indices) →
  gather row indices = padding_last pad row.
Proof.
  intros Hperm Hsorted.
  pose proof (length_sorting_row row pad) as Hlen.
  set (G := (λ i, (sorting_row row pad !!! i, row !!! i)) <$> indices).
  assert (G ≡ₚ keyed_row row pad) as HpermG.
  { unfold G. rewrite Hperm. unfold keyed_row.
    assert ((λ i, (sorting_row row pad !!! i, row !!! i))
              <$> List.seq 0 (length row) = zip (sorting_row row pad) row)
      as ->; [|done].
    apply list_eq. intros j. rewrite list_lookup_fmap, lookup_zip_with.
    destruct (row !! j) as [x|] eqn:Hx.
    - pose proof (lookup_lt_Some _ _ _ Hx) as Hj.
      rewrite lookup_seq_lt by done. cbn.
      destruct (sorting_row row pad !! j) as [k|] eqn:Hk.
      + cbn. by rewrite (list_lookup_total_correct _ _ _ Hk),
          (list_lookup_total_correct _ _ _ Hx).
      + apply lookup_ge_None in Hk. lia.
    - rewrite lookup_seq_ge by (by apply lookup_ge_None). cbn.
      by destruct (sorting_row row pad !! j). }
  assert (StronglySorted keyed_le G) as HsortedG.
  { unfold G. apply StronglySorted_fmap_inv in Hsorted.
    eapply StronglySorted_fmap; [|exact Hsorted]. by intros i j. }
  assert (G = filter (λ p : Z * Z, p.2 ≠ pad) (keyed_row row pad) ++
              filter (λ p : Z * Z, ¬ p.2 ≠ pad) (keyed_row row pad)) as HG.
  { apply (StronglySorted_unique_strong keyed_le).
    - intros p q Hp Hq Hpq Hqp. apply (keyed_row_key_inj row pad).
      + by rewrite <- HpermG.
      + apply elem_of_app in Hq as [[_ ?]%list_elem_of_filter|[_ ?]%list_elem_of_filter]; done.
      + unfold keyed_le in *. lia.
    - done.
    - apply keyed_partition_sorted.
    - rewrite HpermG. symmetry. apply filter_app_complement. }
  assert (gather row indices = G.*2) as ->.
  { unfold G, gather. by rewrite <- list_fmap_compose. }
  rewrite HG, fmap_app. unfold keyed_row, padding_last.
  pose proof (filter_zip_snd (λ t, t ≠ pad) (sorting_row row pad) row Hlen) as H1.
  pose proof (filter_zip_snd (λ t, ¬ t ≠ pad) (sorting_row row pad) row Hlen) as H2.
  cbn beta in H1, H2. rewrite H1, H2.
  f_equal. apply list_eq. intros j.
  destruct (filter (λ t, ¬ t ≠ pad) row !! j) as [t|] eqn:Ht.
  - rewrite lookup_replicate_2 by (by eapply lookup_lt_Some).
    apply list_elem_of_lookup_2, list_elem_of_filter in Ht as [Ht _].
    f_equal. by destruct (decide (t = pad)).
  - symmetry. apply lookup_replicate_None. by apply lookup_ge_None.
Qed.

Lemma move_padding_row (row : list Z) (pad : Z) :
  gather row (sort (sorting_row row pad)).2 = padding_last pad row.
Proof.
  destruct (sort_indices (sorting_row row pad)) as [Hperm Hsorted].
  rewrite length_sorting_row in Hperm.
  by apply gather_sorted_indices.
Qed.

Lemma move_padding_to_end_rows (tensor : list (list Z)) (pad : Z) :
  move_padding_to_end tensor pad = padding_last pad <$> tensor.
Proof.
  unfold move_padding_to_end. apply list_fmap_ext. intros _ row _.
  apply move_padding_row.
Qed.

Lemma filter_non_padding_replicate (pad : Z) (k : nat) :
  filter (λ t, t ≠ pad) (replicate k pad) = [].
Proof.
  induction k as [|k IH]; [done|]. cbn [replicate].
  by rewrite filter_cons_False by (intros H; by apply H).
Qed.

Lemma padding_last_Permutation (pad : Z) (row : list Z) :
  padding_last pad row ≡ₚ row.
Proof.
  unfold padding_last.
  assert (replicate (length (filter (λ t, ¬ t ≠ pad) row)) pad
          = filter (λ t, ¬ t ≠ pad) row) as ->.
  { apply list_eq. intros j.
    destruct (filter (λ t, ¬ t ≠ pad) row !! j) as [t|] eqn:Ht.
    - rewrite lookup_replicate_2 by (by eapply lookup_lt_Some).
      apply list_elem_of_lookup_2, list_elem_of_filter in Ht as [Ht _].
      f_equal. by destruct (decide (t = pad)).
    - apply lookup_replicate_None. by apply lookup_ge_None. }
  apply filter_app_complement.
Qed.

(** C5. For every 2-D integer tensor and every padding token,
    [move_padding_to_end] returns a tensor whose every row is a
    rearrangement of the input row in which the tokens that are not padding
    come first, in the relative order they have in the input row, and all
    the padding tokens come after them. *)
Theorem move_padding_to_end_spec (tensor : list (list Z)) (pad : Z) :
  Forall2
    (λ row row',
       row' ≡ₚ row ∧
       filter (λ t, t ≠ pad) row' = filter (λ t, t ≠ pad) row ∧
       ∃ k, row' = filter (λ t, t ≠ pad) row ++ replicate k pad)
    tensor (move_padding_to_end tensor pad).
Proof.
  rewrite move_padding_to_end_rows. apply Forall2_fmap_r, Forall_Forall2_diag.
  apply Forall_forall. intros row _. split; [|split].
  - apply padding_last_Permutation.
  - unfold padding_last. rewrite filter_app, filter_non_padding_replicate, app_nil_r.
    by apply list_filter_filter_l.
  - by eexists.
Qed.

End MovePadding.

(** ** [generate_batch] *)

Section GenerateBatch.

Import Torch Dataset Notions.

Lemma constructed_init (num_samples base number_length : Z) :
  constructed (Dataset.init num_samples base number_length).
Proof. by repeat split. Qed.

Lemma constructed_set_number_length (self : AdditionDataset) (n : Z) :
  constructed self → constructed (set_number_length self n).
Proof. intros (? & ? & ? & ? & ?). by repeat split. Qed.

(** [leading_zeros_to_padding_] on rows that have a last column, whatever
    they hold: rows keep their width, and every entry is kept or becomes the
    padding token. *)
Lemma leading_zeros_to_padding_generic (t : list (list Z)) (pad : Z) :
  Forall (λ row, row ≠ []) t →
  ∃ t', leading_zeros_to_padding_ t pad = Ok t' ∧
        Forall2 (λ row row',
                   length row' = length row ∧
                   ∀ P : Z → Prop, P pad → Forall P row → Forall P row') t t'.
Proof.
  intros Hne. eexists. split; [by apply leading_zeros_to_padding_rows|].
  apply Forall2_fmap_r, Forall_Forall2_diag, Forall_forall.
  intros row _. split.
  - rewrite length_zip_with, length_insert, length_fmap, length_cumsum. lia.
  - intros P Hpad Hrow. apply Forall_lookup. intros j x Hj.
    apply lookup_zip_with_Some in Hj as (y & m & -> & Hy & _).
    destruct m; [done|]. rewrite Forall_lookup in Hrow. eauto.
Qed.

Lemma leading_zeros_to_padding_tokens (t : list (list Z)) (pad b rows cols : Z) :
  1 ≤ cols → has_shape rows cols t → Forall (digit_row b) t →
  ∃ t', leading_zeros_to_padding_ t pad = Ok t' ∧
        has_shape rows cols t' ∧ Forall (token_row b pad) t'.
Proof.
  intros Hcols [Hrows Hwidth] Hdig.
  destruct (leading_zeros_to_padding_generic t pad) as (t' & Hrun & Hrel).
  { eapply Forall_impl; [exact Hwidth|]. intros [|x row] Hlen; [cbn in Hlen; lia|done]. }
  exists t'. split; [done|]. split; [split|].
  - apply Forall2_length in Hrel. lia.
  - apply Forall_lookup. intros i row' Hi.
    destruct (Forall2_lookup_r _ _ _ _ _ Hrel Hi) as (row & Hrow & Hlen & _).
    rewrite Forall_lookup in Hwidth. specialize (Hwidth i row Hrow). cbn in *. lia.
  - apply Forall_lookup. intros i row' Hi.
    destruct (Forall2_lookup_r _ _ _ _ _ Hrel Hi) as (row & Hrow & _ & Hkeep).
    apply (Hkeep (λ t, 0 ≤ t < b ∨ t = pad)); [by right|].
    rewrite Forall_lookup in Hdig. specialize (Hdig i row Hrow).
    eapply Forall_impl; [exact Hdig|]. cbn. by left.
Qed.

Lemma cat_dim1_six (t1 t2 t3 t4 t5 t6 : list (list Z)) (n : nat) :
  length t1 = n → length t2 = n → length t3 = n →
  length t4 = n → length t5 = n → length t6 = n →
  cat_dim1 [t1; t2; t3; t4; t5; t6] =
  Ok (zip_with app t1 (zip_with app t2 (zip_with app t3
        (zip_with app t4 (zip_with app t5 t6))))).
Proof.
  intros H1 H2 H3 H4 H5 H6. cbn [cat_dim1]. rewrite !bind_Ok.
  repeat (rewrite decide_True by (rewrite ?length_zip_with; lia); rewrite ?bind_Ok).
  reflexivity.
Qed.

Lemma length_padding_last (pad : Z) (row : list Z) :
  length (padding_last pad row) = length row.
Proof. apply Permutation_length, padding_last_Permutation. Qed.

Lemma full_lookup (rows cols v : Z) (i : nat) :
  (i < Z.to_nat rows)%nat →
  filled rows cols v !! i = Some (replicate (Z.to_nat cols) v).
Proof. intros. unfold filled. by apply lookup_replicate_2. Qed.

Lemma digits_to_numbers_Ok (ds : list (list Z)) (b : Z) :
  - 2 ^ 63 ≤ b < 2 ^ 64 →
  ∃ ns, digits_to_numbers ds b = Ok ns ∧ length ns = length ds.
Proof.
  intros Hb. unfold digits_to_numbers. rewrite pow_Ok, bind_Ok by done.
  eexists. split; [done|]. by rewrite length_fmap.
Qed.

Lemma digits_to_numbers_length (ds : list (list Z)) (b : Z) (ns : list Z) :
  digits_to_numbers ds b = Ok ns → length ns = length ds.
Proof.
  unfold digits_to_numbers. intros (bases & _ & H)%bind_Ok_inv.
  injection H as <-. by rewrite length_fmap.
Qed.

(** The batch, row by row, from the operands and the digits of the sums. *)
Lemma generate_batch_from_sum (self : AdditionDataset) (bs : Z)
    (rng0 rng1 : operand_draw) (d0 d1 dout : list (list Z)) :
  1 ≤ base self < 2 ^ 63 → 1 ≤ number_length self →
  int64 (separator_token self) → int64 (end_token self) →
  int64 (eos_token self) →
  draw_ok bs (base self) (number_length self) rng0 →
  draw_ok bs (base self) (number_length self) rng1 →
  make_digits_random_length bs (base self) (number_length self) rng0 = Ok d0 →
  make_digits_random_length bs (base self) (number_length self) rng1 = Ok d1 →
  sum_digits self d0 d1 = Ok dout →
  ∃ in0 in1 out,
    has_shape bs (number_length self) in0 ∧
    has_shape bs (number_length self) in1 ∧
    has_shape bs (number_length self + 1) out ∧
    Forall (token_row (base self) (padding_token self)) in0 ∧
    Forall (token_row (base self) (padding_token self)) in1 ∧
    Forall (token_row (base self) (padding_token self)) out ∧
    generate_batch self bs rng0 rng1 =
    Ok (padding_last (padding_token self) <$>
          zip_with app in0
            (zip_with app (filled bs 1 (separator_token self))
               (zip_with app in1
                  (zip_with app (filled bs 1 (end_token self))
                     (zip_with app out (filled bs 1 (eos_token self))))))).
Proof.
  set (b := base self). set (L := number_length self). set (pad := padding_token self).
  intros Hb HL Hsep64 Hend64 Heos64 Hrng0 Hrng1 Hd0 Hd1 Hdout.
  destruct (make_digits_random_length_Ok bs b L rng0) as (d0' & Hd0' & Hs0 & Hg0);
    [lia | lia | done |].
  destruct (make_digits_random_length_Ok bs b L rng1) as (d1' & Hd1' & Hs1 & Hg1);
    [lia | lia | done |].
  assert (d0' = d0) as -> by congruence. assert (d1' = d1) as -> by congruence.
  assert (has_shape bs (L + 1) dout ∧ Forall (digit_row b) dout) as [Hso Hgo].
  { pose proof Hdout as Hrun. unfold sum_digits in Hrun. fold b L in Hrun.
    apply bind_Ok_inv in Hrun as (n0 & Hn0%digits_to_numbers_length & Hrun).
    apply bind_Ok_inv in Hrun as (n1 & Hn1%digits_to_numbers_length & Hrun).
    apply numbers_to_digits_shape in Hrun as [Hlen Hrows]; [|lia].
    split; [split|].
    - rewrite Hlen, length_zip_with, Hn0, Hn1.
      destruct Hs0 as [? _], Hs1 as [? _]. lia.
    - eapply Forall_impl; [exact Hrows|]. by intros row [? _].
    - eapply Forall_impl; [exact Hrows|]. by intros row [_ ?]. }
  destruct (leading_zeros_to_padding_tokens dout pad b bs (L + 1))
    as (out & Hout & Hso' & Hto); [lia | done | done |].
  destruct (leading_zeros_to_padding_tokens d0 pad b bs L)
    as (in0 & Hin0 & Hs0' & Ht0); [lia | done | done |].
  destruct (leading_zeros_to_padding_tokens d1 pad b bs L)
    as (in1 & Hin1 & Hs1' & Ht1); [lia | done | done |].
  exists in0, in1, out. repeat (split; [done|]).
  unfold generate_batch. fold b L pad.
  rewrite Hd0, bind_Ok, Hd1, bind_Ok, Hdout, bind_Ok, Hout, bind_Ok,
    Hin0, bind_Ok, Hin1, bind_Ok.
  rewrite !full_Ok by done. rewrite !bind_Ok.
  destruct Hs0' as [Hr0 _], Hs1' as [Hr1 _], Hso' as [Hro _].
  rewrite (cat_dim1_six _ _ _ _ _ _ (Z.to_nat bs))
    by (unfold filled; rewrite ?length_replicate; lia).
  rewrite bind_Ok. by rewrite move_padding_to_end_rows.
Qed.

(** [generate_batch] returns whenever no weight of the output columns is 0. *)
Lemma generate_batch_returns (self : AdditionDataset) (bs : Z)
    (rng0 rng1 : operand_draw) :
  1 ≤ base self < 2 ^ 63 → 1 ≤ number_length self →
  weights_nonzero (base self) (number_length self) →
  draw_ok bs (base self) (number_length self) rng0 →
  draw_ok bs (base self) (number_length self) rng1 →
  ∃ d0 d1 dout,
    make_digits_random_length bs (base self) (number_length self) rng0 = Ok d0 ∧
    make_digits_random_length bs (base self) (number_length self) rng1 = Ok d1 ∧
    sum_digits self d0 d1 = Ok dout.
Proof.
  intros Hb HL Hw Hrng0 Hrng1.
  destruct (make_digits_random_length_Ok bs (base self) (number_length self) rng0)
    as (d0 & Hd0 & _); [lia | lia | done |].
  destruct (make_digits_random_length_Ok bs (base self) (number_length self) rng1)
    as (d1 & Hd1 & _); [lia | lia | done |].
  destruct (digits_to_numbers_Ok d0 (base self)) as (n0 & Hn0 & _); [lia|].
  destruct (digits_to_numbers_Ok d1 (base self)) as (n1 & Hn1 & _); [lia|].
  exists d0, d1. eexists. split; [done|]. split; [done|].
  unfold sum_digits. rewrite Hn0, bind_Ok, Hn1, bind_Ok.
  apply numbers_to_digits_Ok; [unfold int64; lia | lia | lia |].
  by replace (number_length self + 1 - 1) with (number_length self) by lia.
Qed.

(** A batch that was returned: the draws were accepted, so the base and the
    number length are positive, the digits of the sums were computed, and
    the three marker tokens are int64 values. *)
Lemma generate_batch_returned (self : AdditionDataset) (bs : Z)
    (rng0 rng1 : operand_draw) (res : list (list Z)) :
  generate_batch self bs rng0 rng1 = Ok res →
  1 ≤ base self ∧ 1 ≤ number_length self ∧
  int64 (separator_token self) ∧ int64 (end_token self) ∧
  int64 (eos_token self) ∧
  ∃ d0 d1 dout,
    make_digits_random_length bs (base self) (number_length self) rng0 = Ok d0 ∧
    make_digits_random_length bs (base self) (number_length self) rng1 = Ok d1 ∧
    sum_digits self d0 d1 = Ok dout.
Proof.
  intros H. unfold generate_batch in H.
  apply bind_Ok_inv in H as (d0 & Hd0 & H).
  apply bind_Ok_inv in H as (d1 & Hd1 & H).
  apply bind_Ok_inv in H as (dout & Hdout & H).
  apply bind_Ok_inv in H as (out & _ & H).
  apply bind_Ok_inv in H as (in0 & _ & H).
  apply bind_Ok_inv in H as (in1 & _ & H).
  apply bind_Ok_inv in H as (seps & [Hsep _]%full_Ok_inv & H).
  apply bind_Ok_inv in H as (ends & [Hend _]%full_Ok_inv & H).
  apply bind_Ok_inv in H as (eoss & [Heos _]%full_Ok_inv & _).
  assert (1 ≤ base self ∧ 1 ≤ number_length self) as [? ?].
  { unfold make_digits_random_length, randint in Hd0.
    destruct (decide (0 < base self ∧ _)) as [[? _]|]; [|discriminate].
    rewrite bind_Ok in Hd0.
    destruct (decide (0 < number_length self ∧ _)) as [[? _]|]; [|discriminate].
    lia. }
  repeat (split; [done|]). by exists d0, d1, dout.
Qed.

(** [max_output_length]: the digits of [2 * base ^ number_length], and one
    more for the eos token. *)
Lemma max_output_length_value (self : AdditionDataset) :
  constructed self → 2 ≤ base self → 0 ≤ number_length self →
  max_output_length self =
  Ok (if decide (base self = 2) then number_length self + 3
      else number_length self + 2).
Proof.
  intros (Hseq & _) Hb HL. unfold max_output_length. rewrite Hseq.
  set (b := base self) in *. set (L := number_length self) in *.
  assert (0 < b ^ L) as Hpos by (apply Z.pow_pos_nonneg; lia).
  destruct (int_to_digits_spec (2 * b ^ L) b) as (ds & Hrun & _ & _ & _ & Hlen & _);
    [lia | lia |].
  rewrite Hrun, bind_Ok. f_equal.
  specialize (Hlen ltac:(lia)). set (n := Z.of_nat (length ds)) in *.
  assert (0 ≤ n) by lia.
  destruct (decide (b = 2)) as [Hb2|Hb2].
  - rewrite Hb2 in *. replace (2 * 2 ^ L) with (2 ^ (L + 1)) in Hlen
      by (rewrite Z.pow_add_r; lia).
    destruct Hlen as [Hlo Hhi].
    apply Z.pow_lt_mono_r_iff in Hhi; [|lia|lia].
    destruct (decide (n - 1 < 0)); [lia|].
    apply Z.pow_le_mono_r_iff in Hlo; lia.
  - destruct Hlen as [Hlo Hhi].
    assert (b ^ L < b ^ n) as H1 by lia.
    apply Z.pow_lt_mono_r_iff in H1; [|lia|lia].
    destruct (decide (n - 1 < 0)); [lia|].
    assert (b ^ (n - 1) < b ^ (L + 1)) as H2.
    { rewrite (Z.pow_add_r b L 1) by lia. nia. }
    apply Z.pow_lt_mono_r_iff in H2; lia.
Qed.

End GenerateBatch.

Section GenerateBatchClaims.

Import Torch Dataset Notions.

(** C2, as amended. For every base from 2 up whose tokens, up to
    [base + 3], are int64 values, every [number_length] from 1 up none of
    whose weights [base ^ k], [k ≤ number_length], wraps to 0 in int64, and
    every batch of [bs] rows the generator can draw, [generate_batch] returns
    a tensor of [bs] rows and [3 * number_length + 4] columns. That is the
    shape [(bs, seq)] for every base from 3 up; for base 2 the [seq]
    property is one more, so the shape is [(bs, seq - 1)]. *)
Theorem generate_batch_shape (self : AdditionDataset) (bs : Z)
    (rng0 rng1 : operand_draw) :
  constructed self → 2 ≤ base self → base self + 3 < 2 ^ 63 →
  1 ≤ number_length self →
  weights_nonzero (base self) (number_length self) →
  draw_ok bs (base self) (number_length self) rng0 →
  draw_ok bs (base self) (number_length self) rng1 →
  ∃ res seq,
    generate_batch self bs rng0 rng1 = Ok res ∧
    Dataset.seq self = Ok seq ∧
    has_shape bs (3 * number_length self + 4) res ∧
    (3 ≤ base self → has_shape bs seq res) ∧
    (base self = 2 → has_shape bs (seq - 1) res).
Proof.
  intros Hself Hb Hb63 HL Hw Hrng0 Hrng1.
  pose proof Hself as (_ & Hendtok & Hseptok & _ & Heostok).
  destruct (generate_batch_returns self bs rng0 rng1)
    as (d0 & d1 & dout & Hd0 & Hd1 & Hdout); [lia | done..|].
  destruct (generate_batch_from_sum self bs rng0 rng1 d0 d1 dout)
    as (in0 & in1 & out & [Hr0 Hc0] & [Hr1 Hc1] & [Hro Hco] & _ & _ & _ & Hrun);
    [lia | done | unfold int64; lia | unfold int64; lia | unfold int64; lia
    | done..|].
  assert (has_shape bs (3 * number_length self + 4)
            (padding_last (padding_token self) <$>
               zip_with app in0
                 (zip_with app (filled bs 1 (separator_token self))
                    (zip_with app in1
                       (zip_with app (filled bs 1 (end_token self))
                          (zip_with app out (filled bs 1 (eos_token self))))))))
    as Hshape.
  { split.
    - rewrite length_fmap, !length_zip_with. unfold filled.
      rewrite !length_replicate. lia.
    - apply Forall_fmap, Forall_lookup. intros i row Hi. cbn.
      rewrite length_padding_last.
      apply lookup_zip_with_Some in Hi as (r0 & x1 & -> & H0 & Hi).
      apply lookup_zip_with_Some in Hi as (s1 & x2 & -> & Hsep & Hi).
      apply lookup_zip_with_Some in Hi as (r1 & x3 & -> & H1 & Hi).
      apply lookup_zip_with_Some in Hi as (s2 & x4 & -> & Hend & Hi).
      apply lookup_zip_with_Some in Hi as (ro & s3 & -> & Ho & Hs3).
      unfold filled in *.
      apply lookup_replicate in Hsep as [-> _].
      apply lookup_replicate in Hend as [-> _].
      apply lookup_replicate in Hs3 as [-> _].
      rewrite Forall_lookup in Hc0, Hc1, Hco.
      specialize (Hc0 i r0 H0). specialize (Hc1 i r1 H1).
      specialize (Hco i ro Ho). cbn in Hc0, Hc1, Hco.
      rewrite !length_app, !length_replicate. lia. }
  destruct Hself as (Hseq & Htokens).
  eexists. eexists. split; [exact Hrun|]. split; [|split; [exact Hshape|]].
  - unfold Dataset.seq. rewrite max_output_length_value; [|by split|lia|lia].
    rewrite bind_Ok. reflexivity.
  - cbn beta. unfold max_input_length. rewrite Hseq.
    destruct (decide (base self = 2)); split; intros Hbase; try lia.
    + replace (2 * (number_length self + 1) + (number_length self + 3) - 1)
        with (3 * number_length self + 4) by lia. exact Hshape.
    + replace (2 * (number_length self + 1) + (number_length self + 2))
        with (3 * number_length self + 4) by lia. exact Hshape.
Qed.

Lemma generate_batch_shape_witness :
  let self := Dataset.init (10 ^ 6) 10 2 in
  let rng0 := {| drawn_digits := [[5; 7]]; drawn_n_digits := [1] |} in
  let rng1 := {| drawn_digits := [[9; 3]]; drawn_n_digits := [1] |} in
  ∃ res, generate_batch self 1 rng0 rng1 = Ok res ∧
         Dataset.seq self = Ok 10 ∧ has_shape 1 10 res.
Proof.
  intros self rng0 rng1.
  destruct (generate_batch_shape self 1 rng0 rng1)
    as (res & seq & Hrun & Hseq & Hshape & _).
  - apply constructed_init.
  - cbn. lia.
  - cbn. lia.
  - cbn. lia.
  - intros k Hk. cbn in Hk.
    assert (k = 0 ∨ k = 1 ∨ k = 2) as [-> | [-> | ->]] by lia; vm_compute; discriminate.
  - repeat split; repeat constructor; lia.
  - repeat split; repeat constructor; lia.
  - exists res. split; [exact Hrun|]. split; [reflexivity|exact Hshape].
Defined.

(** C2 as stated fails for base 2: with [number_length] 1 the batch has 7
    columns while [seq] is 8, because [2 * 2 ^ 1] has three binary digits. *)
Lemma generate_batch_shape_base2 :
  let self := Dataset.init (10 ^ 6) 2 1 in
  let rng := {| drawn_digits := [[1]]; drawn_n_digits := [0] |} in
  draw_ok 1 2 1 rng ∧
  generate_batch self 1 rng rng = Ok [[1; 3; 1; 2; 1; 0; 5]] ∧
  Dataset.seq self = Ok 8 ∧
  ¬ has_shape 1 8 [[1; 3; 1; 2; 1; 0; 5]].
Proof.
  intros self rng. split; [repeat split; repeat constructor; lia|].
  split; [vm_compute; reflexivity|]. split; [vm_compute; reflexivity|].
  intros [_ Hcols]. apply Forall_inv in Hcols. cbn in Hcols. lia.
Qed.

Lemma count_app (tok : Z) (l k : list Z) :
  count tok (l ++ k) = (count tok l + count tok k)%nat.
Proof. unfold count. by rewrite filter_app, length_app. Qed.

Lemma count_cons (tok x : Z) (l : list Z) :
  count tok (x :: l) = ((if decide (x = tok) then 1 else 0) + count tok l)%nat.
Proof. unfold count. rewrite filter_cons. by destruct (decide (x = tok)). Qed.

Lemma count_absent (tok : Z) (l : list Z) :
  Forall (λ t, t ≠ tok) l → count tok l = 0%nat.
Proof.
  unfold count. induction 1 as [|x l Hx _ IH]; [done|].
  by rewrite filter_cons_False.
Qed.

Lemma token_row_digits (b pad : Z) (row : list Z) :
  token_row b pad row → digit_row b (filter (λ t, t ≠ pad) row).
Proof.
  intros Hrow. apply Forall_forall. intros t [Ht Hin]%list_elem_of_filter.
  unfold token_row in Hrow. rewrite Forall_forall in Hrow.
  destruct (Hrow t Hin); done.
Qed.

(** C7. Every row that [generate_batch] returns is a run of digits, the
    separator, a run of digits, the end token, a run of digits, the eos
    token and then padding only; so it holds exactly one separator, one end
    token and one eos token, in this order. And no digit of the base equals
    one of the four reserved tokens. *)
Theorem generate_batch_row_tokens (self : AdditionDataset) (bs : Z)
    (rng0 rng1 : operand_draw) (res : list (list Z)) :
  constructed self →
  draw_ok bs (base self) (number_length self) rng0 →
  draw_ok bs (base self) (number_length self) rng1 →
  generate_batch self bs rng0 rng1 = Ok res →
  (∀ row, row ∈ res →
     count (separator_token self) row = 1%nat ∧
     count (end_token self) row = 1%nat ∧
     count (eos_token self) row = 1%nat ∧
     ∃ (a b c : list Z) (k : nat),
       row = a ++ separator_token self :: b ++ end_token self :: c
               ++ eos_token self :: replicate k (padding_token self) ∧
       digit_row (base self) a ∧ digit_row (base self) b ∧
       digit_row (base self) c) ∧
  (∀ d, 0 ≤ d < base self →
     d ≠ end_token self ∧ d ≠ separator_token self ∧
     d ≠ padding_token self ∧ d ≠ eos_token self).
Proof.
  intros (_ & Hend & Hsep & Hpad & Heos) Hrng0 Hrng1 Hrun.
  split; [|intros d Hd; lia].
  destruct (generate_batch_returned self bs rng0 rng1 res Hrun)
    as (Hb & HL & Hsep64 & Hend64 & Heos64 & d0 & d1 & dout & Hd0 & Hd1 & Hdout).
  destruct (generate_batch_from_sum self bs rng0 rng1 d0 d1 dout)
    as (in0 & in1 & out & _ & _ & _ & Ht0 & Ht1 & Hto & Hrun'); try done.
  { unfold int64 in Hend64. lia. }
  rewrite Hrun in Hrun'. injection Hrun' as ->.
  intros row (row0 & -> & Hrow0)%list_elem_of_fmap.
  apply list_elem_of_lookup_1 in Hrow0 as (i & Hi).
  apply lookup_zip_with_Some in Hi as (r0 & x1 & -> & H0 & Hi).
  apply lookup_zip_with_Some in Hi as (s1 & x2 & -> & Hs1 & Hi).
  apply lookup_zip_with_Some in Hi as (r1 & x3 & -> & H1 & Hi).
  apply lookup_zip_with_Some in Hi as (s2 & x4 & -> & Hs2 & Hi).
  apply lookup_zip_with_Some in Hi as (ro & s3 & -> & Ho & Hs3).
  unfold filled in *.
  apply lookup_replicate in Hs1 as [-> _].
  apply lookup_replicate in Hs2 as [-> _].
  apply lookup_replicate in Hs3 as [-> _].
  rewrite Forall_lookup in Ht0, Ht1, Hto.
  pose proof (token_row_digits _ _ _ (Ht0 i r0 H0)) as Ha.
  pose proof (token_row_digits _ _ _ (Ht1 i r1 H1)) as Hb'.
  pose proof (token_row_digits _ _ _ (Hto i ro Ho)) as Hc.
  set (pad := padding_token self) in *.
  set (a := filter (λ t, t ≠ pad) r0) in *.
  set (b := filter (λ t, t ≠ pad) r1) in *.
  set (c := filter (λ t, t ≠ pad) ro) in *.
  assert (∃ k, padding_last pad
                 (r0 ++ replicate (Z.to_nat 1) (separator_token self) ++ r1 ++
                  replicate (Z.to_nat 1) (end_token self) ++ ro ++
                  replicate (Z.to_nat 1) (eos_token self))
               = a ++ separator_token self :: b ++ end_token self :: c
                   ++ eos_token self :: replicate k pad) as [k ->].
  { eexists. unfold padding_last. change (Z.to_nat 1) with 1%nat. cbn [replicate].
    rewrite !filter_app.
    rewrite !(filter_cons_True (λ t, t ≠ pad)) by (cbn; lia).
    rewrite !filter_nil, <- !app_assoc. cbn [app]. reflexivity. }
  assert (∀ tok l, base self ≤ tok → digit_row (base self) l →
                   count tok l = 0%nat) as Hdig.
  { intros tok l Htok Hl. apply count_absent.
    eapply Forall_impl; [exact Hl|]. cbn. lia. }
  assert (∀ tok n, tok ≠ pad → count tok (replicate n pad) = 0%nat) as Hrep.
  { intros tok n Htok. apply count_absent, Forall_replicate. congruence. }
  split; [|split; [|split]].
  - rewrite !count_app, !count_cons, !count_app, !count_cons, !count_app, !count_cons.
    rewrite !Hdig, Hrep by (done || lia).
    rewrite decide_True by done. rewrite !decide_False by lia. done.
  - rewrite !count_app, !count_cons, !count_app, !count_cons, !count_app, !count_cons.
    rewrite !Hdig, Hrep by (done || lia).
    rewrite decide_False by lia. rewrite decide_True by done.
    rewrite decide_False by lia. done.
  - rewrite !count_app, !count_cons, !count_app, !count_cons, !count_app, !count_cons.
    rewrite !Hdig, Hrep by (done || lia).
    rewrite !decide_False by lia. rewrite decide_True by done. done.
  - exists a, b, c, k. done.
Qed.

Lemma generate_batch_row_tokens_witness :
  let self := Dataset.init (10 ^ 6) 10 2 in
  let rng0 := {| drawn_digits := [[5; 7]]; drawn_n_digits := [1] |} in
  let rng1 := {| drawn_digits := [[9; 3]]; drawn_n_digits := [1] |} in
  let res := [[7; 11; 3; 10; 1; 0; 13; 12; 12; 12]] in
  generate_batch self 1 rng0 rng1 = Ok res ∧
  ∀ row, row ∈ res →
    count 11 row = 1%nat ∧ count 10 row = 1%nat ∧ count 13 row = 1%nat.
Proof.
  intros self rng0 rng1 res.
  assert (generate_batch self 1 rng0 rng1 = Ok res) as Hrun
    by (vm_compute; reflexivity).
  split; [exact Hrun|]. intros row Hrow.
  destruct (generate_batch_row_tokens self 1 rng0 rng1 res) as [Hrows _].
  - apply constructed_init.
  - repeat split; repeat constructor; lia.
  - repeat split; repeat constructor; lia.
  - exact Hrun.
  - destruct (Hrows row Hrow) as (H1 & H2 & H3 & _). auto.
Defined.

End GenerateBatchClaims.

(** ** The curriculum loop and the entry point *)

Section Curriculum.

Import Float32 Dataset Train Notions.

Lemma counter_get_incr (c : gmap Z Z) (k : Z) :
  counter_get (counter_incr c k) k = counter_get c k + 1.
Proof. unfold counter_incr. unfold counter_get at 1. by rewrite lookup_insert_eq. Qed.

Lemma counter_get_incr_ne (c : gmap Z Z) (k k' : Z) :
  k ≠ k' → counter_get (counter_incr c k) k' = counter_get c k'.
Proof. intros. unfold counter_incr, counter_get. by rewrite lookup_insert_ne. Qed.

Lemma counter_get_incr_le (c : gmap Z Z) (k k' : Z) :
  counter_get c k' ≤ counter_get (counter_incr c k) k'.
Proof.
  destruct (decide (k = k')) as [->|Hne].
  - rewrite counter_get_incr. lia.
  - rewrite counter_get_incr_ne by done. lia.
Qed.

(** One curriculum check: the counter of the current length goes up by one,
    and the length goes up by one exactly when the mean accuracy exceeds
    0.9. *)
Lemma curriculum_check_step (st : driver_state) (accs : list float32)
    (order : reduction) :
  number_length (dataset (curriculum_check st accs order)) =
    number_length (dataset st)
      + (if gt (mean accs order) threshold then 1 else 0) ∧
  time_to_success (curriculum_check st accs order) =
    counter_incr (time_to_success st) (number_length (dataset st)).
Proof.
  unfold curriculum_check.
  destruct (gt (mean accs order) threshold); cbn; split; (lia || done).
Qed.

(** The threshold [.9] as a float32, and the float32 values of 0.5 and
    0.95: the first is below the threshold, the second above it. *)
Lemma threshold_value : threshold = S754_finite false 15099494 (-24).
Proof. vm_compute. reflexivity. Qed.

Lemma gt_half : gt (of_ratio 1 2) threshold = false.
Proof. vm_compute. reflexivity. Qed.

Lemma gt_nineteen_twentieths : gt (of_ratio 19 20) threshold = true.
Proof. vm_compute. reflexivity. Qed.

(** Running [k + m] epochs is running [k] epochs and then, unless one of
    them raised, [m] more. *)
Lemma epoch_loop_add (k m epoch : nat) (observe : nat → epoch_outcome)
    (st : driver_state) :
  epoch_loop (k + m) epoch observe st =
  match epoch_loop k epoch observe st with
  | (st', Ok _) => epoch_loop m (epoch + k) observe st'
  | stopped => stopped
  end.
Proof.
  revert epoch st. induction k as [|k IH]; intros epoch st; cbn [epoch_loop Nat.add].
  - by rewrite Nat.add_0_r.
  - destruct (observe epoch) as [accs order|e]; [|done].
    rewrite IH. by replace (S epoch + k)%nat with (epoch + S k)%nat by lia.
Qed.

Lemma epoch_loop_monotone (m epoch : nat) (observe : nat → epoch_outcome)
    (st : driver_state) :
  number_length (dataset st)
    ≤ number_length (dataset (epoch_loop m epoch observe st).1) ∧
  ∀ key, counter_get (time_to_success st) key
           ≤ counter_get (time_to_success (epoch_loop m epoch observe st).1) key.
Proof.
  revert epoch st. induction m as [|m IH]; intros epoch st; cbn [epoch_loop].
  - cbn. split; [lia|]. intros. lia.
  - destruct (observe epoch) as [accs order|e]; [|cbn; split; [lia|intros; lia]].
    destruct (IH (S epoch) (curriculum_check st accs order)) as [Hlen Hcount].
    destruct (curriculum_check_step st accs order) as [Hstep Htts].
    split.
    + destruct (gt (mean accs order) threshold); lia.
    + intros key. specialize (Hcount key). rewrite Htts in Hcount.
      pose proof (counter_get_incr_le (time_to_success st)
                    (number_length (dataset st)) key). lia.
Qed.

(** C8. With a validation stream whose mean accuracies, as [torch.mean]
    computes them in float32, are 0.5 and then 0.95, from [number_length] 1
    and an empty counter: [number_length] is still 1 after the first epoch
    and is 2 after the second, which is when [time_to_success[1]] has reached
    2; and a curriculum check raises [number_length], by one, exactly when
    the float32 mean exceeds the float32 value of 0.9. *)
Theorem curriculum_two_validations (ds : AdditionDataset) (batch : Z)
    (observe : nat → epoch_outcome) (accs1 accs2 : list float32)
    (order1 order2 : reduction) :
  number_length ds = 1 →
  observe 0%nat = Validated accs1 order1 →
  observe 1%nat = Validated accs2 order2 →
  mean accs1 order1 = of_ratio 1 2 →
  mean accs2 order2 = of_ratio 19 20 →
  let after k :=
    (manual_training ds {| epochs := k; batch_size := batch |} observe).1 in
  number_length (dataset (after 0)) = 1 ∧
  number_length (dataset (after 1)) = 1 ∧
  counter_get (time_to_success (after 1)) 1 = 1 ∧
  number_length (dataset (after 2)) = 2 ∧
  counter_get (time_to_success (after 2)) 1 = 2 ∧
  (∀ st accs order, ltb threshold (mean accs order) = true →
     number_length (dataset (curriculum_check st accs order)) =
       number_length (dataset st) + 1) ∧
  (∀ st accs order, ltb threshold (mean accs order) = false →
     number_length (dataset (curriculum_check st accs order)) =
       number_length (dataset st)).
Proof.
  intros Hlen Hobs1 Hobs2 Hm1 Hm2 after.
  assert (gt (mean accs1 order1) threshold = false) as Hgt1
    by (rewrite Hm1; apply gt_half).
  assert (gt (mean accs2 order2) threshold = true) as Hgt2
    by (rewrite Hm2; apply gt_nineteen_twentieths).
  set (start := {| dataset := ds; time_to_success := ∅ |}).
  assert (after 0 = start) as ->.
  { unfold after, manual_training. cbn [epochs]. reflexivity. }
  assert (after 1 = curriculum_check start accs1 order1) as ->.
  { unfold after, manual_training. cbn [epochs].
    change (Z.to_nat 1) with 1%nat. cbn [epoch_loop]. by rewrite Hobs1. }
  assert (after 2 = curriculum_check (curriculum_check start accs1 order1)
                      accs2 order2) as ->.
  { unfold after, manual_training. cbn [epochs].
    change (Z.to_nat 2) with 2%nat. cbn [epoch_loop]. by rewrite Hobs1, Hobs2. }
  destruct (curriculum_check_step start accs1 order1) as [Hn1 Ht1].
  destruct (curriculum_check_step (curriculum_check start accs1 order1)
              accs2 order2) as [Hn2 Ht2].
  rewrite Hgt1 in Hn1. rewrite Hgt2 in Hn2. cbn [dataset time_to_success start] in *.
  assert (counter_get (∅ : gmap Z Z) 1 = 0) as Hempty
    by (unfold counter_get; by rewrite lookup_empty).
  split; [done|]. split; [lia|]. split.
  { rewrite Ht1, Hlen, counter_get_incr. lia. }
  split; [lia|]. split.
  { rewrite Ht2, Hn1, Hlen, Z.add_0_r, Ht1, Hlen, !counter_get_incr. lia. }
  split.
  - intros st accs order Hlt.
    destruct (curriculum_check_step st accs order) as [-> _].
    unfold gt. by rewrite Hlt.
  - intros st accs order Hnlt.
    destruct (curriculum_check_step st accs order) as [-> _].
    unfold gt. rewrite Hnlt. lia.
Qed.

(** The stream of the scenario, with accuracies that differ from batch to
    batch: a first epoch with 50 batches at 0.25 and 50 at 0.75, a second
    with 95 batches at 1 and 5 at 0, added by halves and from left to
    right. *)
Lemma curriculum_two_validations_witness :
  let ds := Dataset.init (10 ^ 6) 10 1 in
  let accs1 := replicate 50 (of_ratio 1 4) ++ replicate 50 (of_ratio 3 4) in
  let accs2 := replicate 95 (of_int 1) ++ replicate 5 (of_int 0) in
  let observe (epoch : nat) :=
    match epoch with
    | O => Validated accs1 (pairwise 100 0 100)
    | _ => Validated accs2 (sequential 100)
    end in
  let final := (manual_training ds {| epochs := 2; batch_size := 256 |} observe).1 in
  mean accs1 (pairwise 100 0 100) = of_ratio 1 2 ∧
  mean accs2 (sequential 100) = of_ratio 19 20 ∧
  number_length (dataset final) = 2 ∧ counter_get (time_to_success final) 1 = 2.
Proof.
  intros ds accs1 accs2 observe final.
  assert (mean accs1 (pairwise 100 0 100) = of_ratio 1 2) as Hm1
    by (vm_compute; reflexivity).
  assert (mean accs2 (sequential 100) = of_ratio 19 20) as Hm2
    by (vm_compute; reflexivity).
  split; [exact Hm1|]. split; [exact Hm2|].
  destruct (curriculum_two_validations ds 256 observe accs1 accs2
              (pairwise 100 0 100) (sequential 100))
    as (_ & _ & _ & H1 & H2 & _ & _);
    [reflexivity | reflexivity | reflexivity | exact Hm1 | exact Hm2 |].
  split; [exact H1 | exact H2].
Defined.

(** C9. In every execution of the loop, whatever is observed in its epochs,
    between any point and any later point [number_length] does not decrease
    and no entry of [time_to_success] decreases. *)
Theorem curriculum_ratchet (ds : AdditionDataset) (observe : nat → epoch_outcome)
    (k m : nat) :
  let start := {| dataset := ds; time_to_success := ∅ |} in
  let earlier := (epoch_loop k 0 observe start).1 in
  let later := (epoch_loop (k + m) 0 observe start).1 in
  number_length ds ≤ number_length (dataset earlier) ∧
  number_length (dataset earlier) ≤ number_length (dataset later) ∧
  ∀ key, 0 ≤ counter_get (time_to_success earlier) key ∧
         counter_get (time_to_success earlier) key
           ≤ counter_get (time_to_success later) key.
Proof.
  intros start earlier later.
  pose proof (epoch_loop_monotone k 0 observe start) as [Hlen Hcount].
  fold earlier in Hlen, Hcount. split; [exact Hlen|].
  assert (number_length (dataset earlier) ≤ number_length (dataset later) ∧
          ∀ key, counter_get (time_to_success earlier) key
                   ≤ counter_get (time_to_success later) key) as [H1 H2].
  { unfold later. rewrite epoch_loop_add. fold earlier.
    destruct (epoch_loop k 0 observe start) as [st' [[]| |]] eqn:Hrun;
      subst earlier; cbn [fst].
    - apply epoch_loop_monotone.
    - split; [lia|intros; lia].
    - split; [lia|intros; lia]. }
  split; [exact H1|]. intros key. split; [|apply H2].
  specialize (Hcount key). cbn in Hcount. unfold counter_get in Hcount at 1.
  rewrite lookup_empty in Hcount. exact Hcount.
Qed.

(** The call of [__init__] that [main] should have made binds its three
    parameters. *)
Lemma call_without_sequence_length :
  Dataset.call [10 ^ 6] [("base", 10); ("number_length", 1)]%string
  = Ok (Dataset.init (10 ^ 6) 10 1).
Proof. vm_compute. reflexivity. Qed.

(** C10. Once the command line is parsed, [main] raises [TypeError] at the
    construction of the dataset, whose [__init__] has no parameter
    [sequence_length]: no dataset is built, no model is created and the
    training loop is not entered, whatever the arguments and the model. *)
Theorem main_raises_TypeError {Model : Type}
    (AdditionModel : AdditionDataset → result Model) (args : Namespace)
    (observe : nat → epoch_outcome) :
  Dataset.call [10 ^ 6]
    [("base", 10); ("number_length", 1); ("sequence_length", 2)]%string
  = Raise TypeError ∧
  main AdditionModel args observe = ([], Raise TypeError).
Proof.
  assert (Dataset.call [10 ^ 6]
            [("base", 10); ("number_length", 1); ("sequence_length", 2)]%string
          = Raise TypeError) as Hcall by (vm_compute; reflexivity).
  split; [exact Hcall|]. unfold main. by rewrite Hcall.
Qed.

End Curriculum.

(** * Further properties of the code *)

(** ** [int_to_digits] and [digits_to_int] outside and inside their domain *)

Section ScalarCodecEdges.

Import Dataset Notions.

Lemma int_to_digits_loop_base_1 (fuel : nat) (n : Z) (acc : list Z) :
  0 < n → int_to_digits_loop fuel n 1 acc = OutOfFuel.
Proof.
  intros Hn. revert acc. induction fuel as [|fuel IH]; intros acc; [done|].
  rewrite int_to_digits_loop_S, decide_True by lia.
  rewrite mod_Ok, floordiv_Ok by lia. result_simpl.
  rewrite Z.div_1_r. apply IH.
Qed.

(** X1. For a positive [n], [int_to_digits n 0] raises [ZeroDivisionError]
    (at [n % base]), and [int_to_digits n 1] never returns: [n // 1] is [n],
    so the loop runs out of any fuel. *)
Theorem int_to_digits_base_0_1 (n : Z) :
  0 < n →
  int_to_digits n 0 = Raise ZeroDivisionError ∧
  (∀ fuel, (0 < fuel)%nat → int_to_digits_fuel fuel n 0 = Raise ZeroDivisionError) ∧
  (∀ fuel, int_to_digits_fuel fuel n 1 = OutOfFuel).
Proof.
  intros Hn.
  assert (∀ fuel, (0 < fuel)%nat →
            int_to_digits_fuel fuel n 0 = Raise ZeroDivisionError) as H0.
  { intros [|fuel] Hfuel; [lia|]. unfold int_to_digits_fuel.
    rewrite int_to_digits_loop_S, decide_True by lia. reflexivity. }
  split; [|split].
  - apply H0. unfold digits_fuel. lia.
  - exact H0.
  - intros fuel. unfold int_to_digits_fuel.
    by rewrite int_to_digits_loop_base_1.
Qed.

Lemma int_to_digits_base_0_1_witness :
  0 < 5 ∧ int_to_digits 5 0 = Raise ZeroDivisionError ∧
  int_to_digits_fuel 1000 5 1 = OutOfFuel.
Proof.
  split; [lia|].
  destruct (int_to_digits_base_0_1 5) as (H0 & _ & H1); [lia|].
  split; [exact H0 | exact (H1 1000%nat)].
Defined.

(** X2. For a positive [n] and a negative base the loop runs once:
    [int_to_digits] returns the single digit [n % base], which is not
    positive, and [digits_to_int] does not give [n] back. *)
Theorem int_to_digits_negative_base (n b : Z) :
  0 < n → b < 0 →
  int_to_digits n b = Ok [n mod b] ∧
  b < n mod b ≤ 0 ∧
  digits_to_int [n mod b] b ≠ n.
Proof.
  intros Hn Hb.
  pose proof (Z.mod_neg_bound n b Hb) as Hmod.
  split; [|split; [lia|]].
  - unfold int_to_digits, int_to_digits_fuel, digits_fuel.
    rewrite int_to_digits_loop_S, decide_True by lia.
    rewrite mod_Ok, floordiv_Ok by lia. result_simpl.
    rewrite int_to_digits_loop_S, decide_False; [reflexivity|].
    assert (n / b < 0); [|lia].
    pose proof (Z.div_mod n b ltac:(lia)). nia.
  - unfold digits_to_int. cbn. lia.
Qed.

Lemma int_to_digits_negative_base_witness :
  0 < 5 ∧ -3 < 0 ∧ int_to_digits 5 (-3) = Ok [-1].
Proof.
  split; [lia|]. split; [lia|].
  exact (proj1 (int_to_digits_negative_base 5 (-3) ltac:(lia) ltac:(lia))).
Defined.

(** X3. For every integer [n], negative ones included, and every base from 2
    up, [int_to_digits] returns and [digits_to_int] of the digits is
    [max n 0]: a number below 0 is encoded as [[0]]. *)
Theorem int_to_digits_any_integer (n b : Z) :
  2 ≤ b →
  ∃ ds, int_to_digits n b = Ok ds ∧
        digits_to_int ds b = Z.max n 0 ∧
        (n ≤ 0 → ds = [0]).
Proof.
  intros Hb. destruct (decide (0 ≤ n)) as [Hn|Hn].
  - destruct (int_to_digits_spec n b Hn Hb) as (ds & Hrun & _ & Hval & _ & _ & Hz).
    exists ds. split; [done|]. split; [lia|]. intros ?. apply Hz. lia.
  - exists [0]. split; [|split; [|done]].
    + unfold int_to_digits, int_to_digits_fuel, digits_fuel.
      by rewrite int_to_digits_loop_S, decide_False by lia.
    + unfold digits_to_int. cbn. lia.
Qed.

Lemma int_to_digits_any_integer_witness :
  2 ≤ 10 ∧ int_to_digits (-42) 10 = Ok [0].
Proof.
  split; [lia|].
  destruct (int_to_digits_any_integer (-42) 10) as (ds & Hrun & _ & Hz); [lia|].
  by rewrite <- (Hz ltac:(lia)).
Defined.

End ScalarCodecEdges.

Section ScalarCodecCanonical.

Import Torch Dataset Notions.

Lemma pow_lt_inv (b x y : Z) : 2 ≤ b → 0 ≤ x → 0 ≤ y → b ^ x < b ^ y → x < y.
Proof. intros Hb Hx Hy H. apply (Z.pow_lt_mono_r_iff b); lia. Qed.

(** The value of a list of digits, least significant first, has these digits
    and is below [b ^ length]. *)
Lemma digits_to_int_digits (b : Z) (ds : list Z) :
  1 ≤ b → digit_row b ds →
  0 ≤ digits_to_int ds b < b ^ Z.of_nat (length ds) ∧
  ∀ i d, ds !! i = Some d → (digits_to_int ds b / b ^ Z.of_nat i) mod b = d.
Proof.
  intros Hb. induction 1 as [|d ds Hd Hds [Hbound Hdig]].
  - split; [cbn; lia|]. intros i d Hi. by rewrite lookup_nil in Hi.
  - rewrite digits_to_int_cons. cbn [length].
    rewrite Nat2Z.inj_succ, Z.pow_succ_r by lia.
    assert ((d + b * digits_to_int ds b) / b = digits_to_int ds b) as Hdiv.
    { symmetry. apply (Z.div_unique_pos _ _ _ d); lia. }
    split; [nia|]. intros [|i] x Hi; cbn in Hi.
    + injection Hi as <-. cbn [Z.of_nat]. rewrite Z.pow_0_r, Z.div_1_r.
      replace (d + b * digits_to_int ds b) with (d + digits_to_int ds b * b) by lia.
      rewrite Z_mod_plus_full. apply Z.mod_small. lia.
    + rewrite Nat2Z.inj_succ, Z.pow_succ_r by lia.
      rewrite <- Z.div_div by (try apply Z.pow_pos_nonneg; lia).
      rewrite Hdiv. by apply Hdig.
Qed.

Lemma digits_to_int_lower (b : Z) (ds : list Z) (d : Z) :
  1 ≤ b → digit_row b ds → last ds = Some d → d ≠ 0 →
  b ^ (Z.of_nat (length ds) - 1) ≤ digits_to_int ds b.
Proof.
  intros Hb Hds. revert d. induction Hds as [|d0 ds Hd0 Hds IH]; intros d Hlast Hd.
  - done.
  - rewrite digits_to_int_cons. destruct ds as [|d1 ds'].
    + cbn in Hlast. injection Hlast as <-. unfold digits_to_int. cbn. lia.
    + specialize (IH d Hlast Hd). cbn [length] in *.
      replace (Z.of_nat (S (S (length ds'))) - 1)
        with (Z.succ (Z.of_nat (S (length ds')) - 1)) by lia.
      rewrite Z.pow_succ_r by lia. nia.
Qed.

(** X4. Encoding after decoding: for every base from 2 up and every list of
    digits of that base, least significant first, that is [[0]] or ends in
    a digit other than 0, [int_to_digits (digits_to_int ds b) b] returns
    [ds]. *)
Theorem int_to_digits_of_digits_to_int (b : Z) (ds : list Z) :
  2 ≤ b → digit_row b ds →
  ds = [0] ∨ (∃ d, last ds = Some d ∧ d ≠ 0) →
  int_to_digits (digits_to_int ds b) b = Ok ds.
Proof.
  intros Hb Hds Hcanon.
  destruct (digits_to_int_digits b ds ltac:(lia) Hds) as [Hbound Hdig].
  destruct (int_to_digits_spec (digits_to_int ds b) b ltac:(lia) Hb)
    as (ds' & Hrun & _ & _ & Hdig' & Hlen' & Hz).
  rewrite Hrun. f_equal.
  destruct Hcanon as [->|(d & Hlast & Hd)]; [by apply Hz|].
  pose proof (digits_to_int_lower b ds d ltac:(lia) Hds Hlast Hd) as Hlow.
  assert (0 < length ds)%nat as Hpos by (destruct ds; [done|cbn; lia]).
  assert (0 < b ^ (Z.of_nat (length ds) - 1)) by (apply Z.pow_pos_nonneg; lia).
  specialize (Hlen' ltac:(lia)).
  assert (0 < length ds')%nat as Hpos'.
  { destruct ds'; [cbn in Hlen'; lia|cbn; lia]. }
  assert (length ds' = length ds) as Hlen.
  { assert (Z.of_nat (length ds') - 1 < Z.of_nat (length ds))
      by (apply (pow_lt_inv b); lia).
    assert (Z.of_nat (length ds) - 1 < Z.of_nat (length ds'))
      by (apply (pow_lt_inv b); lia).
    lia. }
  apply list_eq. intros i. destruct (ds !! i) as [x|] eqn:Hx.
  - rewrite Hdig' by (rewrite Hlen; by eapply lookup_lt_Some).
    f_equal. by apply Hdig.
  - apply lookup_ge_None. rewrite Hlen. by apply lookup_ge_None.
Qed.

Lemma int_to_digits_of_digits_to_int_witness :
  digit_row 10 [4; 3; 2; 1] ∧
  int_to_digits (digits_to_int [4; 3; 2; 1] 10) 10 = Ok [4; 3; 2; 1].
Proof.
  assert (digit_row 10 [4; 3; 2; 1]) as H by (repeat constructor; lia).
  split; [exact H|].
  apply (int_to_digits_of_digits_to_int 10 [4; 3; 2; 1]); [lia | exact H |].
  right. exists 1. split; [reflexivity|lia].
Defined.

(** The digits of [n] over the columns [0 .. L - 1], least significant
    first, are the digits [int_to_digits] returns followed by zeros. *)
Lemma digits_columns (n b : Z) (L : nat) (ds : list Z) :
  2 ≤ b → 0 ≤ n → n < b ^ Z.of_nat (length ds) →
  (length ds ≤ L)%nat →
  (∀ i, (i < length ds)%nat → ds !! i = Some ((n / b ^ Z.of_nat i) mod b)) →
  (λ e, (n / b ^ e) mod b) <$> seqZ 0 (Z.of_nat L) =
  ds ++ replicate (L - length ds) 0.
Proof.
  intros Hb Hn Hlt Hle Hdig. apply list_eq. intros i.
  rewrite list_lookup_fmap.
  destruct (decide (i < L)%nat) as [Hi|Hi].
  - rewrite lookup_seqZ_lt by lia. cbn. rewrite Z.add_0_l.
    destruct (decide (i < length ds)%nat) as [Hids|Hids].
    + rewrite lookup_app_l by done. by rewrite Hdig.
    + rewrite lookup_app_r by lia. rewrite lookup_replicate_2 by lia.
      f_equal. rewrite Z.div_small; [by apply Z.mod_0_l; lia|].
      split; [done|]. apply Z.lt_le_trans with (b ^ Z.of_nat (length ds)); [done|].
      apply Z.pow_le_mono_r; lia.
  - rewrite lookup_seqZ_ge by lia. cbn. symmetry. apply lookup_ge_None.
    rewrite length_app, length_replicate. lia.
Qed.

(** X5. The scalar and the batched encoder agree: for a non-negative [n]
    below [b ^ L] with [L] at least 1, a base from 2 up that is an int64
    value and weights that fit in int64, the row [numbers_to_digits] makes
    for [n] is the list [int_to_digits] returns, reversed and filled with
    zeros on the left up to [L] columns. *)
Theorem numbers_to_digits_int_to_digits (n b L : Z) :
  2 ≤ b < 2 ^ 63 → 1 ≤ L → 0 ≤ n < b ^ L → n < 2 ^ 63 →
  (∀ k, 0 ≤ k < L → b ^ k < 2 ^ 63) →
  ∃ ds, int_to_digits n b = Ok ds ∧
        (length ds ≤ Z.to_nat L)%nat ∧
        numbers_to_digits [n] b L =
          Ok [replicate (Z.to_nat L - length ds) 0 ++ reverse ds].
Proof.
  intros Hb HL Hn Hn64 Hfit.
  destruct (int_to_digits_spec n b ltac:(lia) ltac:(lia))
    as (ds & Hrun & _ & _ & Hdig & Hlen & Hz).
  assert (n < b ^ Z.of_nat (length ds) ∧ (length ds ≤ Z.to_nat L)%nat) as [Hlt Hle].
  { destruct (decide (n = 0)) as [->|Hnz].
    - rewrite (Hz eq_refl). cbn. lia.
    - specialize (Hlen ltac:(lia)). split; [lia|].
      assert (0 < length ds)%nat.
      { destruct ds; [cbn in Hlen; lia|cbn; lia]. }
      assert (Z.of_nat (length ds) - 1 < L) by (apply (pow_lt_inv b); lia).
      lia. }
  exists ds. split; [done|]. split; [done|].
  rewrite numbers_to_digits_exact; [|done|lia|done|repeat constructor; lia].
  rewrite fmap_cons, fmap_nil. do 2 f_equal. unfold arange_desc.
  rewrite fmap_reverse. rewrite <- (Z2Nat.id L) at 1 by lia.
  rewrite (digits_columns n b (Z.to_nat L) ds) by (done || lia).
  by rewrite reverse_app, reverse_replicate.
Qed.

Lemma numbers_to_digits_int_to_digits_witness :
  ∃ ds, int_to_digits 10 10 = Ok ds ∧
        numbers_to_digits [10] 10 3 = Ok [[0; 1; 0]] ∧ reverse ds = [1; 0].
Proof.
  destruct (numbers_to_digits_int_to_digits 10 10 3)
    as (ds & Hrun & Hle & Hrow); [lia | lia | lia | lia | |].
  { intros k Hk. apply Z.le_lt_trans with (10 ^ 2); [|lia].
    apply Z.pow_le_mono_r; lia. }
  exists ds. split; [exact Hrun|].
  vm_compute in Hrun. injection Hrun as <-. split; reflexivity.
Defined.

End ScalarCodecCanonical.

(** ** [numbers_to_digits] and [digits_to_numbers] beyond the round trip *)

Section TensorCodecEdges.

Import Torch Dataset Notions.

(** X6. Values that need more than [L] digits lose their high digits: for
    non-negative int64 values, a base from 2 up that is an int64 value and
    weights that fit in int64, [digits_to_numbers] of [numbers_to_digits] is
    the value modulo [b ^ L]. *)
Theorem numbers_to_digits_truncates (xs : list Z) (b L : Z) :
  2 ≤ b < 2 ^ 63 → 0 ≤ L → (∀ k, 0 ≤ k < L → b ^ k < 2 ^ 63) →
  Forall (λ x, 0 ≤ x < 2 ^ 63) xs →
  ∃ ds, numbers_to_digits xs b L = Ok ds ∧
        digits_to_numbers ds b = Ok ((λ x, x mod b ^ L) <$> xs).
Proof.
  intros Hb HL Hfit Hxs. eexists. split.
  - by apply numbers_to_digits_exact.
  - rewrite (digits_to_numbers_value _ b (Z.of_nat (length xs)) L);
      [|lia|by apply digits_shape].
    f_equal. rewrite <- list_fmap_compose.
    apply list_fmap_ext. intros _ x Hx%list_elem_of_lookup_2. cbn.
    rewrite Forall_forall in Hxs. specialize (Hxs x Hx).
    rewrite <- (Z2Nat.id L) at 1 by done.
    rewrite row_value_digits by lia. rewrite Z2Nat.id by done.
    assert (0 < b ^ L) by (apply Z.pow_pos_nonneg; lia).
    pose proof (Z.mod_pos_bound x (b ^ L) ltac:(lia)).
    pose proof (Z.mod_le x (b ^ L) ltac:(lia) ltac:(lia)).
    apply wrap64_small. unfold int64. lia.
Qed.

Lemma numbers_to_digits_truncates_witness :
  ∃ ds, numbers_to_digits [1234; 7] 10 2 = Ok ds ∧
        digits_to_numbers ds 10 = Ok [34; 7].
Proof.
  destruct (numbers_to_digits_truncates [1234; 7] 10 2) as (ds & Hrun & Hdec);
    [lia | lia | | repeat constructor; lia |].
  { intros k Hk. apply Z.le_lt_trans with (10 ^ 1); [|lia].
    apply Z.pow_le_mono_r; lia. }
  exists ds. split; [exact Hrun|]. rewrite Hdec. reflexivity.
Defined.

Lemma mapM_Ok_or_Raise {A B : Type} (g : A → result B) (e : exn) (l : list A) :
  Forall (λ x, (∃ y, g x = Ok y) ∨ g x = Raise e) l →
  (∃ k, mapM g l = Ok k) ∨ mapM g l = Raise e.
Proof.
  induction 1 as [|x l Hx _ IH]; [left; by eexists|]. cbn [mapM].
  destruct Hx as [[y ->] | ->]; [|by right]. rewrite bind_Ok.
  destruct IH as [[k ->] | ->]; [left; by eexists|by right].
Qed.

(** [numbers_to_digits] of numbers, at least one, returns only when no
    weight is 0. *)
Lemma numbers_to_digits_returned_weights (x : Z) (xs : list Z) (b L : Z)
    (ds : list (list Z)) :
  int64 b →
  numbers_to_digits (x :: xs) b L = Ok ds → weights_nonzero b (L - 1).
Proof.
  intros Hb. rewrite numbers_to_digits_int64 by done.
  destruct (decide (L < 0)); [done|].
  intros H%mapM_Ok_inv. apply Forall2_cons_inv_l in H as (row & ds' & Hrow & _ & _).
  apply mapM_Ok_inv in Hrow. intros k Hk Hzero.
  assert (wrap64 (b ^ k) ∈ powers b (arange_desc L)) as Hin.
  { unfold powers. apply list_elem_of_fmap. exists k. split; [done|].
    apply elem_of_arange_desc. lia. }
  apply list_elem_of_lookup_1 in Hin as (i & Hi).
  destruct (Forall2_lookup_l _ _ _ _ _ Hrow Hi) as (y & _ & Hy).
  rewrite Hzero in Hy. unfold floor_divide in Hy.
  by rewrite decide_True in Hy.
Qed.

(** With at least one number and a weight that wraps to 0 the division
    raises. *)
Lemma numbers_to_digits_raises (xs : list Z) (b L : Z) :
  int64 b → b ≠ 0 → 0 ≤ L → xs ≠ [] → ¬ weights_nonzero b (L - 1) →
  numbers_to_digits xs b L = Raise RuntimeError.
Proof.
  intros H64 Hb HL Hne Hw.
  assert ((∃ ds, numbers_to_digits xs b L = Ok ds) ∨
          numbers_to_digits xs b L = Raise RuntimeError) as [[ds Hrun]|H];
    [|exfalso|done].
  - rewrite numbers_to_digits_int64 by done. rewrite decide_False by lia.
    apply mapM_Ok_or_Raise, Forall_forall. intros x _.
    apply mapM_Ok_or_Raise, Forall_forall. intros w _.
    unfold floor_divide, remainder.
    destruct (decide (w = 0)); [by right|]. rewrite bind_Ok.
    rewrite decide_False by lia. left. by eexists.
  - destruct xs as [|x xs]; [done|].
    by apply Hw, (numbers_to_digits_returned_weights x xs b L ds).
Qed.

Lemma numbers_to_digits_Raise_Overflow (xs : list Z) (b L : Z) :
  0 ≤ L → b < - 2 ^ 63 ∨ 2 ^ 64 ≤ b →
  numbers_to_digits xs b L = Raise OverflowError.
Proof.
  intros HL Hb. unfold numbers_to_digits, pow.
  rewrite decide_False by lia. by rewrite scalar_Raise.
Qed.

(** X7. For a positive base that is an int64 value, whatever the numbers
    (negative ones included) and however the weights wrap, a call of
    [numbers_to_digits] that returns gives one row per number, [max_length]
    columns per row and entries that are digits of the base; it returns
    whenever no weight [base ^ k], [k < max_length], wraps to 0, and for at
    least one number it raises [RuntimeError] as soon as one does. For a base
    that does not fit in 64 bits, signed or unsigned, it raises
    [OverflowError]. *)
Theorem numbers_to_digits_outcome (xs : list Z) (b L : Z) :
  0 ≤ L →
  (0 < b < 2 ^ 63 →
   (∀ ds, numbers_to_digits xs b L = Ok ds →
      length ds = length xs ∧
      Forall (λ row, Z.of_nat (length row) = L ∧ digit_row b row) ds) ∧
   (weights_nonzero b (L - 1) → ∃ ds, numbers_to_digits xs b L = Ok ds) ∧
   (xs ≠ [] → ¬ weights_nonzero b (L - 1) →
      numbers_to_digits xs b L = Raise RuntimeError)) ∧
  (b < - 2 ^ 63 ∨ 2 ^ 64 ≤ b →
   numbers_to_digits xs b L = Raise OverflowError).
Proof.
  intros HL. split; [intros Hb; split; [|split]|].
  - intros ds Hrun. by eapply numbers_to_digits_shape.
  - intros Hw. eexists.
    apply numbers_to_digits_Ok; [unfold int64; lia|lia|done..].
  - intros Hne Hw.
    apply numbers_to_digits_raises; (done || lia || (unfold int64; lia)).
  - by apply numbers_to_digits_Raise_Overflow.
Qed.

Lemma numbers_to_digits_outcome_witness :
  numbers_to_digits [5; 12] 10 2 = Ok [[0; 5]; [1; 2]] ∧
  numbers_to_digits [1] 2 65 = Raise RuntimeError ∧
  numbers_to_digits [1] (2 ^ 64) 2 = Raise OverflowError.
Proof.
  split; [vm_compute; reflexivity|].
  destruct (numbers_to_digits_outcome [1] 2 65) as [Hint _]; [lia|].
  destruct Hint as (_ & _ & Hraise); [lia|]. split.
  - apply Hraise; [done|]. intros Hw. apply (Hw 64); [lia|]. vm_compute. reflexivity.
  - vm_compute. reflexivity.
Defined.

(** X8. On a tensor whose rows have one width, [digits_to_numbers] returns
    for every base that is an int64 value, whatever the entries: each number
    is the positional value of its row, most significant column first,
    wrapped to int64, and rows without columns give 0. For a base that does
    not fit in 64 bits, signed or unsigned, it raises [OverflowError]. *)
Theorem digits_to_numbers_wraps (ds : list (list Z)) (b rows cols : Z) :
  has_shape rows cols ds →
  (int64 b →
   digits_to_numbers ds b = Ok ((λ row, wrap64 (row_value b row)) <$> ds) ∧
   Forall int64 ((λ row, wrap64 (row_value b row)) <$> ds) ∧
   (cols = 0 → digits_to_numbers ds b = Ok (replicate (length ds) 0))) ∧
  (b < - 2 ^ 63 ∨ 2 ^ 64 ≤ b →
   digits_to_numbers ds b = Raise OverflowError).
Proof.
  intros Hshape. split; [|apply digits_to_numbers_Raise].
  intros Hb. unfold int64 in Hb.
  rewrite (digits_to_numbers_value ds b rows cols) by (done || lia).
  split; [done|]. split.
  - apply Forall_fmap, Forall_forall. intros row _. apply wrap64_range.
  - intros ->. f_equal. destruct Hshape as [_ Hcols]. clear Hb.
    induction ds as [|row ds IH]; [done|].
    apply Forall_cons in Hcols as [Hrow Hcols].
    destruct row; [|cbn in Hrow; lia]. cbn. f_equal. by apply IH.
Qed.

Lemma digits_to_numbers_wraps_witness :
  digits_to_numbers [[1; 2; 3]; [0; 0; 7]] 10 = Ok [123; 7] ∧
  digits_to_numbers [[1; 2]] (2 ^ 64) = Raise OverflowError.
Proof.
  destruct (digits_to_numbers_wraps [[1; 2; 3]; [0; 0; 7]] 10 2 3) as [Hint _].
  - split; [reflexivity|]. repeat constructor.
  - destruct Hint as (Hrun & _); [unfold int64; lia|].
    split; [exact Hrun|]. vm_compute. reflexivity.
Defined.

End TensorCodecEdges.

(** ** Operand rows, padding and its removal *)

Section RowsEdges.

Import Torch Dataset Notions MoreNotions.

(** X9. On a draw it can make, with a positive base and number length,
    [make_digits_random_length] returns [bs] rows of [max_number_length]
    digits; row [i] is the drawn row with its first [n_digits[i]] columns
    set to 0 and the others kept, so its last column always is the drawn
    digit. *)
Theorem make_digits_random_length_rows (bs b L : Z) (rng : operand_draw) :
  0 < b → 0 < L → draw_ok bs b L rng →
  ∃ t, make_digits_random_length bs b L rng = Ok t ∧
       has_shape bs L t ∧ Forall (digit_row b) t ∧
       ∀ i row n,
         drawn_digits rng !! i = Some row → drawn_n_digits rng !! i = Some n →
         t !! i = Some (replicate (Z.to_nat n) 0 ++ drop (Z.to_nat n) row) ∧
         last (replicate (Z.to_nat n) 0 ++ drop (Z.to_nat n) row) = last row.
Proof.
  intros Hb HL Hrng.
  destruct (make_digits_random_length_Ok bs b L rng Hb HL Hrng)
    as (t & Hrun & Hshape & Hdig).
  exists t. repeat (split; [done|]). intros i row n Hrow Hn.
  destruct Hrng as [[Hbs Hgrid] [_ Hns]].
  rewrite Forall_lookup in Hgrid. rewrite Forall_lookup in Hns.
  destruct (Hgrid i row Hrow) as [Hlen _]. specialize (Hns i n Hn). cbn in Hns.
  unfold make_digits_random_length in Hrun.
  rewrite !randint_Ok in Hrun by (repeat constructor; lia).
  rewrite !bind_Ok in Hrun. injection Hrun as <-. split.
  - unfold masked_fill. rewrite lookup_zip_with, Hrow. cbn.
    rewrite list_lookup_fmap, Hn. cbn. f_equal.
    apply list_eq. intros j. rewrite lookup_zip_with.
    destruct (row !! j) as [x|] eqn:Hx; cbn.
    + pose proof (lookup_lt_Some _ _ _ Hx) as Hj.
      unfold arange. rewrite list_lookup_fmap, lookup_seqZ_lt by lia. cbn.
      rewrite Z.add_0_l. destruct (decide (Z.of_nat j < n)) as [Hjn|Hjn].
      * rewrite bool_decide_eq_true_2 by done.
        rewrite lookup_app_l by (rewrite length_replicate; lia).
        by rewrite lookup_replicate_2 by lia.
      * rewrite bool_decide_eq_false_2 by done.
        rewrite lookup_app_r by (rewrite length_replicate; lia).
        rewrite length_replicate, lookup_drop.
        by replace (Z.to_nat n + (j - Z.to_nat n))%nat with j by lia.
    + apply lookup_ge_None in Hx. symmetry. apply lookup_ge_None.
      rewrite length_app, length_replicate, length_drop. lia.
  - rewrite <- (take_drop (Z.to_nat n) row) at 2.
    destruct (drop (Z.to_nat n) row) as [|y l] eqn:Hdrop.
    + apply (f_equal length) in Hdrop. rewrite length_drop in Hdrop.
      cbn in Hdrop. lia.
    + by rewrite !last_app_cons.
Qed.

Lemma make_digits_random_length_rows_witness :
  let rng := {| drawn_digits := [[4; 7; 2]; [5; 0; 9]];
                drawn_n_digits := [2; 0] |} in
  draw_ok 2 10 3 rng ∧
  make_digits_random_length 2 10 3 rng = Ok [[0; 0; 2]; [5; 0; 9]].
Proof.
  intros rng.
  assert (draw_ok 2 10 3 rng) as Hrng by (repeat split; repeat constructor; lia).
  split; [exact Hrng|].
  destruct (make_digits_random_length_rows 2 10 3 rng)
    as (t & Hrun & _); [lia | lia | exact Hrng |].
  rewrite Hrun. vm_compute in Hrun. symmetry. exact Hrun.
Defined.

Lemma filter_Forall_id {A : Type} (P : A → Prop) `{!∀ x, Decision (P x)}
    (l : list A) :
  Forall P l → filter P l = l.
Proof.
  induction 1 as [|x l Hx _ IH]; [done|]. by rewrite filter_cons_True, IH.
Qed.

Lemma row_value_drop_zeros (b : Z) (row : list Z) (k : nat) :
  (k ≤ leading_zeros row)%nat → row_value b (drop k row) = row_value b row.
Proof.
  revert k. induction row as [|d row IH]; intros k Hk; [by destruct k|].
  destruct k as [|k]; [done|]. cbn [drop].
  destruct d; cbn [leading_zeros] in Hk; try lia.
  rewrite IH by lia. cbn [row_value]. lia.
Qed.

Lemma drop_leading_zeros_head (row : list Z) :
  (leading_zeros row < length row)%nat →
  ∃ d rest, drop (leading_zeros row) row = d :: rest ∧ d ≠ 0.
Proof.
  induction row as [|d row IH]; intros Hlt; [cbn in Hlt; lia|].
  destruct (decide (d = 0)) as [->|Hd].
  - cbn [leading_zeros length] in *. cbn [drop]. apply IH. lia.
  - exists d, row. split; [|done]. by destruct d.
Qed.

Lemma strip_zeros_no_leading_zero (row : list Z) :
  row ≠ [] → no_leading_zero (strip_zeros row).
Proof.
  intros Hne. unfold strip_zeros.
  assert (0 < length row)%nat as Hlen by (destruct row; [done|cbn; lia]).
  pose proof (leading_zeros_le row) as Hle.
  destruct (decide (leading_zeros row < Nat.pred (length row))%nat) as [Hlt|Hge].
  - rewrite Nat.min_l by lia.
    destruct (drop_leading_zeros_head row) as (d & rest & -> & Hd); [lia|].
    by destruct rest.
  - rewrite Nat.min_r by lia.
    destruct (drop (Nat.pred (length row)) row) as [|y [|z l]] eqn:Hdrop;
      apply (f_equal length) in Hdrop; rewrite length_drop in Hdrop;
      cbn in Hdrop; (lia || done).
Qed.

(** [leading_zeros_to_padding_] as a row function, for rows of a digit
    matrix. *)
Lemma leading_zeros_to_padding_padded (digits : list (list Z)) (pad : Z) :
  Forall digits_row digits →
  leading_zeros_to_padding_ digits pad = Ok (padded_row pad <$> digits).
Proof.
  intros Hdigits. rewrite leading_zeros_to_padding_rows.
  - f_equal. apply list_fmap_ext. intros i row Hrow%list_elem_of_lookup_2.
    rewrite Forall_forall in Hdigits. by apply padded_row_eq, Hdigits.
  - eapply Forall_impl; [exact Hdigits|]. by intros row [? _].
Qed.

Lemma padded_row_non_padding (b pad : Z) (row : list Z) :
  pad < 0 ∨ b ≤ pad → digit_row b row →
  filter (λ t, t ≠ pad) (padded_row pad row) = strip_zeros row.
Proof.
  intros Hpad Hrow. unfold padded_row, strip_zeros.
  rewrite filter_app, filter_non_padding_replicate, app_nil_l.
  apply filter_Forall_id, Forall_drop.
  eapply Forall_impl; [exact Hrow|]. cbn. lia.
Qed.

(** X10. On a matrix of digits of a base, with a padding token that is not
    such a digit, what [leading_zeros_to_padding_] leaves unpadded in a row
    is the row without its leading zeros: it denotes the same number, and it
    is a single digit or starts with a digit other than 0. *)
Theorem leading_zeros_to_padding_value (digits : list (list Z)) (b pad : Z) :
  pad < 0 ∨ b ≤ pad →
  Forall (λ row, digit_row b row ∧ digits_row row) digits →
  ∃ padded,
    leading_zeros_to_padding_ digits pad = Ok padded ∧
    Forall2
      (λ row row',
         filter (λ t, t ≠ pad) row' = strip_zeros row ∧
         row_value b (strip_zeros row) = row_value b row ∧
         no_leading_zero (strip_zeros row))
      digits padded.
Proof.
  intros Hpad Hdigits. eexists. split.
  - apply leading_zeros_to_padding_padded.
    eapply Forall_impl; [exact Hdigits|]. by intros row [_ ?].
  - apply Forall2_fmap_r, Forall_Forall2_diag.
    eapply Forall_impl; [exact Hdigits|]. intros row [Hdig (Hne & _)].
    split; [by eapply padded_row_non_padding|]. split.
    + apply row_value_drop_zeros. lia.
    + by apply strip_zeros_no_leading_zero.
Qed.

Lemma leading_zeros_to_padding_value_witness :
  ∃ padded,
    leading_zeros_to_padding_ [[0; 0; 3; 0]; [0; 0; 0; 0]] 12 = Ok padded ∧
    Forall2 (λ row row', filter (λ t, t ≠ 12) row' = strip_zeros row)
      [[0; 0; 3; 0]; [0; 0; 0; 0]] padded.
Proof.
  destruct (leading_zeros_to_padding_value [[0; 0; 3; 0]; [0; 0; 0; 0]] 10 12)
    as (padded & Hrun & Hrows); [lia | repeat constructor; (lia || done) |].
  exists padded. split; [exact Hrun|].
  eapply Forall2_impl; [exact Hrows|]. by intros row row' [? _].
Defined.

Lemma filter_padding_none (pad : Z) (l : list Z) :
  Forall (λ t, t ≠ pad) l → filter (λ t, ¬ t ≠ pad) l = [].
Proof.
  induction 1 as [|x l Hx _ IH]; [done|].
  by rewrite filter_cons_False by (intros H; by apply H).
Qed.

(** X11. [move_padding_to_end] is idempotent, and it leaves alone every
    tensor that holds no padding token. *)
Theorem move_padding_to_end_idempotent (tensor : list (list Z)) (pad : Z) :
  move_padding_to_end (move_padding_to_end tensor pad) pad
    = move_padding_to_end tensor pad ∧
  (Forall (Forall (λ t, t ≠ pad)) tensor →
   move_padding_to_end tensor pad = tensor).
Proof.
  rewrite !move_padding_to_end_rows. split.
  - rewrite <- list_fmap_compose. apply list_fmap_ext. intros _ row _. cbn.
    unfold padding_last at 1.
    assert (filter (λ t, t ≠ pad) (padding_last pad row)
            = filter (λ t, t ≠ pad) row) as ->.
    { unfold padding_last.
      rewrite filter_app, filter_non_padding_replicate, app_nil_r.
      by apply list_filter_filter_l. }
    assert (length (filter (λ t, ¬ t ≠ pad) (padding_last pad row))
            = length (filter (λ t, ¬ t ≠ pad) row)) as ->; [|done].
    apply Permutation_length, filter_Permutation, padding_last_Permutation.
  - intros Hall. rewrite <- (list_fmap_id tensor) at 2.
    apply list_fmap_ext. intros i row Hrow. cbn.
    rewrite Forall_lookup in Hall. specialize (Hall i row Hrow).
    unfold padding_last. rewrite filter_Forall_id by done.
    by rewrite filter_padding_none, app_nil_r.
Qed.

Lemma move_padding_to_end_idempotent_witness :
  move_padding_to_end [[1; 0; 11; 2]; [3; 10; 4; 5]] 12
    = [[1; 0; 11; 2]; [3; 10; 4; 5]].
Proof.
  apply (proj2 (move_padding_to_end_idempotent [[1; 0; 11; 2]; [3; 10; 4; 5]] 12)).
  repeat constructor; lia.
Defined.

End RowsEdges.

(** ** [generate_batch]: when it returns and what its rows hold *)

Section GenerateBatchEdges.

Import Torch Dataset Notions MoreNotions.

Lemma draw_ok_positive (bs b L : Z) (rng : operand_draw) :
  1 ≤ bs → draw_ok bs b L rng → 1 ≤ b ∧ 1 ≤ L.
Proof.
  intros Hbs [[Hrows Hgrid] [Hn Hns]].
  destruct (drawn_n_digits rng) as [|n ns]; [cbn in Hn; lia|].
  apply Forall_inv in Hns.
  destruct (drawn_digits rng) as [|row rows]; [cbn in Hrows; lia|].
  apply Forall_inv in Hgrid as [Hlen Hrow].
  destruct row as [|d row]; [cbn in Hlen; lia|].
  apply Forall_inv in Hrow. lia.
Qed.

Lemma row_sum_le_value (b : Z) (row : list Z) :
  1 ≤ b → Forall (λ d, 0 ≤ d) row → row_sum row ≤ row_value b row.
Proof.
  intros Hb. induction 1 as [|d row Hd _ IH]; [done|].
  rewrite row_sum_cons. cbn [row_value].
  pose proof (Z.pow_pos_nonneg b (Z.of_nat (length row)) ltac:(lia) ltac:(lia)).
  nia.
Qed.

Lemma digit_row_digits_row (b : Z) (row : list Z) :
  1 ≤ b → row ≠ [] → digit_row b row → row_value b row < 2 ^ 63 →
  digits_row row.
Proof.
  intros Hb Hne Hrow Hval.
  assert (Forall (λ d, 0 ≤ d) row) as Hnonneg.
  { eapply Forall_impl; [exact Hrow|]. cbn. lia. }
  split; [done|]. split; [done|].
  pose proof (row_sum_le_value b row Hb Hnonneg). lia.
Qed.

(** The sums of the operands, when [2 * b ^ L] fits in int64. *)
Lemma operand_sums_exact (b L rows : Z) (d0 d1 : list (list Z)) :
  2 ≤ b → 0 ≤ L → 2 * b ^ L < 2 ^ 63 →
  has_shape rows L d0 → Forall (digit_row b) d0 →
  has_shape rows L d1 → Forall (digit_row b) d1 →
  zip_with add64 (row_value b <$> d0) (row_value b <$> d1) =
    zip_with Z.add (row_value b <$> d0) (row_value b <$> d1) ∧
  Forall (λ x, 0 ≤ x < 2 * b ^ L)
    (zip_with Z.add (row_value b <$> d0) (row_value b <$> d1)).
Proof.
  intros Hb HL Hfit Hs0 Hd0 Hs1 Hd1.
  assert (0 < b ^ L) as Hpos by (apply Z.pow_pos_nonneg; lia).
  assert (Forall (λ x, 0 ≤ x < 2 * b ^ L)
            (zip_with Z.add (row_value b <$> d0) (row_value b <$> d1))) as Hsum.
  { apply Forall_lookup. intros i x Hi.
    apply lookup_zip_with_Some in Hi as (v0 & v1 & -> & H0 & H1).
    apply list_lookup_fmap_Some in H0 as (r0 & -> & Hr0).
    apply list_lookup_fmap_Some in H1 as (r1 & -> & Hr1).
    destruct Hs0 as [_ Hc0]. destruct Hs1 as [_ Hc1].
    rewrite Forall_lookup in Hc0, Hc1, Hd0, Hd1.
    pose proof (row_value_bounds b r0 ltac:(lia) (Hd0 i r0 Hr0)) as B0.
    pose proof (row_value_bounds b r1 ltac:(lia) (Hd1 i r1 Hr1)) as B1.
    rewrite (Hc0 i r0 Hr0) in B0. rewrite (Hc1 i r1 Hr1) in B1. lia. }
  split; [|done].
  apply list_eq. intros i. rewrite !lookup_zip_with.
  destruct ((row_value b <$> d0) !! i) as [v0|] eqn:H0; [|done].
  destruct ((row_value b <$> d1) !! i) as [v1|] eqn:H1; [|done]. cbn.
  f_equal. apply wrap64_small. unfold int64.
  rewrite Forall_lookup in Hsum. specialize (Hsum i (v0 + v1)).
  rewrite lookup_zip_with, H0, H1 in Hsum. specialize (Hsum eq_refl). lia.
Qed.

(** For a base whose tokens are int64 values, on draws it can make, for at
    least one row, [generate_batch] returns when no weight is 0 and raises
    [RuntimeError] when one is. *)
Lemma generate_batch_on_draws (self : AdditionDataset) (bs : Z)
    (rng0 rng1 : operand_draw) :
  constructed self → base self + 3 < 2 ^ 63 → 1 ≤ bs →
  draw_ok bs (base self) (number_length self) rng0 →
  draw_ok bs (base self) (number_length self) rng1 →
  (weights_nonzero (base self) (number_length self) →
   ∃ res, generate_batch self bs rng0 rng1 = Ok res) ∧
  (¬ weights_nonzero (base self) (number_length self) →
   generate_batch self bs rng0 rng1 = Raise RuntimeError).
Proof.
  intros (_ & Hend & Hsep & _ & Heos) Hb63 Hbs Hrng0 Hrng1.
  destruct (draw_ok_positive _ _ _ _ Hbs Hrng0) as [Hb HL].
  split.
  - intros Hw.
    destruct (generate_batch_returns self bs rng0 rng1)
      as (d0 & d1 & dout & Hd0 & Hd1 & Hdout); try done; [lia|].
    destruct (generate_batch_from_sum self bs rng0 rng1 d0 d1 dout)
      as (in0 & in1 & out & _ & _ & _ & _ & _ & _ & Hrun);
      try done; try (unfold int64; lia).
    by eexists.
  - intros Hw.
    destruct (make_digits_random_length_Ok bs (base self) (number_length self) rng0)
      as (d0 & Hd0 & [Hr0 _] & _); [lia | lia | done |].
    destruct (make_digits_random_length_Ok bs (base self) (number_length self) rng1)
      as (d1 & Hd1 & [Hr1 _] & _); [lia | lia | done |].
    destruct (digits_to_numbers_Ok d0 (base self)) as (n0 & Hn0 & Hl0); [lia|].
    destruct (digits_to_numbers_Ok d1 (base self)) as (n1 & Hn1 & Hl1); [lia|].
    unfold generate_batch. rewrite Hd0, bind_Ok, Hd1, bind_Ok.
    unfold sum_digits. rewrite Hn0, bind_Ok, Hn1, bind_Ok.
    rewrite numbers_to_digits_raises; [done|unfold int64; lia|lia|lia| |].
    + intros Hnil%(f_equal length). rewrite length_zip_with in Hnil.
      cbn in Hnil. lia.
    + by replace (number_length self + 1 - 1) with (number_length self) by lia.
Qed.

(** X12. When [generate_batch] raises. It raises [RuntimeError] (from
    [torch.randint]) whenever the base or the number length is not positive.
    For a dataset as [__init__] builds it, whose tokens up to [base + 3] are
    int64 values, on draws it can make, for at least one row, it returns
    exactly when no weight [base ^ k], [k ≤ number_length], wraps to 0 in
    int64, and raises [RuntimeError] (from the integer division) otherwise. *)
Theorem generate_batch_outcome (self : AdditionDataset) (bs : Z)
    (rng0 rng1 : operand_draw) :
  (int64 (base self) → int64 (number_length self) → int64 bs →
   base self ≤ 0 ∨ number_length self ≤ 0 →
   generate_batch self bs rng0 rng1 = Raise RuntimeError) ∧
  (constructed self → base self + 3 < 2 ^ 63 → 1 ≤ bs →
   draw_ok bs (base self) (number_length self) rng0 →
   draw_ok bs (base self) (number_length self) rng1 →
   (weights_nonzero (base self) (number_length self) →
    ∃ res, generate_batch self bs rng0 rng1 = Ok res) ∧
   (¬ weights_nonzero (base self) (number_length self) →
    generate_batch self bs rng0 rng1 = Raise RuntimeError)).
Proof.
  split.
  - intros _ _ _ Hbad. unfold generate_batch, make_digits_random_length, randint.
    destruct (decide (0 < base self ∧ _)) as [[Hb _]|]; [|done].
    rewrite bind_Ok.
    destruct (decide (0 < number_length self ∧ _)) as [[HL _]|]; [lia|done].
  - apply generate_batch_on_draws.
Qed.

Lemma generate_batch_outcome_witness :
  let self := Dataset.init (10 ^ 6) 16 16 in
  let zeros := {| drawn_digits := [replicate 16 0]; drawn_n_digits := [0] |} in
  generate_batch self 1 zeros zeros = Raise RuntimeError ∧
  generate_batch (Dataset.init (10 ^ 6) 10 0) 1 zeros zeros = Raise RuntimeError.
Proof.
  intros self zeros. split.
  - destruct (generate_batch_outcome self 1 zeros zeros) as [_ H].
    destruct H as [_ Hraise]; [apply constructed_init | cbn; lia | lia | | |].
    + repeat split; repeat constructor; lia.
    + repeat split; repeat constructor; lia.
    + apply Hraise. intros Hw. apply (Hw 16); [cbn; lia|]. vm_compute. reflexivity.
  - destruct (generate_batch_outcome (Dataset.init (10 ^ 6) 10 0) 1 zeros zeros)
      as [H _].
    apply H; [unfold int64; cbn; lia..|]. right. cbn. lia.
Defined.

(** X13. What a batch holds when [2 * base ^ number_length] fits in int64.
    Row [i] of the batch is the first operand of row [i] without its leading
    zeros, the separator, the second operand without its leading zeros, the
    end token, the digits of a number [c], the eos token and then padding;
    [c] has no leading zero and denotes the sum of the two operands, and an
    operand without its leading zeros denotes the operand. *)
Theorem generate_batch_examples (self : AdditionDataset) (bs : Z)
    (rng0 rng1 : operand_draw) :
  constructed self → 2 ≤ base self → 1 ≤ number_length self →
  2 * base self ^ number_length self < 2 ^ 63 →
  draw_ok bs (base self) (number_length self) rng0 →
  draw_ok bs (base self) (number_length self) rng1 →
  ∃ d0 d1 res,
    make_digits_random_length bs (base self) (number_length self) rng0 = Ok d0 ∧
    make_digits_random_length bs (base self) (number_length self) rng1 = Ok d1 ∧
    generate_batch self bs rng0 rng1 = Ok res ∧
    Z.of_nat (length res) = bs ∧
    ∀ i r0 r1, d0 !! i = Some r0 → d1 !! i = Some r1 →
      ∃ c k,
        res !! i
          = Some (example_row self (strip_zeros r0) (strip_zeros r1) c k) ∧
        digit_row (base self) c ∧ no_leading_zero c ∧
        row_value (base self) c
          = row_value (base self) r0 + row_value (base self) r1 ∧
        row_value (base self) (strip_zeros r0) = row_value (base self) r0 ∧
        row_value (base self) (strip_zeros r1) = row_value (base self) r1 ∧
        no_leading_zero (strip_zeros r0) ∧ no_leading_zero (strip_zeros r1).
Proof.
  set (b := base self). set (L := number_length self).
  intros (_ & Hend & Hsep & Hpad & Heos) Hb HL Hfit Hrng0 Hrng1.
  set (pad := padding_token self) in *. fold b in Hend, Hsep, Hpad, Heos.
  assert (0 < b ^ L) as Hpos by (apply Z.pow_pos_nonneg; lia).
  assert (b ^ (L + 1) = b * b ^ L) as Hsucc by (rewrite Z.pow_add_r; lia).
  destruct (make_digits_random_length_Ok bs b L rng0) as (d0 & Hd0 & Hs0 & Hg0);
    [lia | lia | done |].
  destruct (make_digits_random_length_Ok bs b L rng1) as (d1 & Hd1 & Hs1 & Hg1);
    [lia | lia | done |].
  destruct (operand_sums_exact b L bs d0 d1) as [Hadd Hsums]; try done; [lia|].
  set (sums := zip_with Z.add (row_value b <$> d0) (row_value b <$> d1)) in *.
  set (digits := λ x : Z, (λ e, (x / b ^ e) mod b) <$> arange_desc (L + 1)).
  pose proof (base_bound b L Hb HL Hfit) as Hb62.
  assert (sum_digits self d0 d1 = Ok (digits <$> sums)) as Hdout.
  { unfold sum_digits. fold b L.
    rewrite (digits_to_numbers_exact d0 bs b L) by (done || lia).
    rewrite (digits_to_numbers_exact d1 bs b L) by (done || lia).
    rewrite !bind_Ok, Hadd.
    apply numbers_to_digits_exact; [lia | lia | |].
    - intros k Hk. apply Z.le_lt_trans with (b ^ L); [|lia].
      apply Z.pow_le_mono_r; lia.
    - eapply Forall_impl; [exact Hsums|]. cbn. lia. }
  assert (∀ x, 0 ≤ x < 2 * b ^ L →
               Z.of_nat (length (digits x)) = L + 1 ∧ digit_row b (digits x) ∧
               row_value b (digits x) = x) as Hdigits.
  { intros x Hx. unfold digits. split; [|split].
    - rewrite length_fmap, length_arange_desc. lia.
    - apply Forall_fmap, Forall_forall. intros e _. cbn.
      apply Z.mod_pos_bound. lia.
    - rewrite <- (Z2Nat.id (L + 1)) at 1 by lia.
      rewrite row_value_digits by lia. rewrite Z2Nat.id by lia.
      apply Z.mod_small. nia. }
  assert (∀ t, has_shape bs L t → Forall (digit_row b) t → Forall digits_row t)
    as Hrows.
  { intros t [_ Hc] Hg. apply Forall_lookup. intros i row Hi.
    rewrite Forall_lookup in Hc, Hg.
    specialize (Hc i row Hi). specialize (Hg i row Hi). cbn in Hc.
    pose proof (row_value_bounds b row ltac:(lia) Hg) as Hv. rewrite Hc in Hv.
    apply (digit_row_digits_row b); [lia | | done | lia].
    intros ->. cbn in Hc. lia. }
  assert (Forall digits_row (digits <$> sums)) as Hrowso.
  { apply Forall_fmap, Forall_lookup. intros i x Hi. cbn.
    rewrite Forall_lookup in Hsums. specialize (Hsums i x Hi). cbn in Hsums.
    destruct (Hdigits x Hsums) as (Hlen & Hdig & Hval).
    apply (digit_row_digits_row b); [lia | | done | lia].
    intros Hnil. rewrite Hnil in Hlen. cbn in Hlen. lia. }
  assert (0 ≤ bs) as Hbs by (destruct Hs0 as [? _]; lia).
  assert (length d0 = Z.to_nat bs ∧ length d1 = Z.to_nat bs) as [Hl0 Hl1].
  { destruct Hs0 as [? _], Hs1 as [? _]. lia. }
  assert (length sums = Z.to_nat bs) as Hls.
  { unfold sums. rewrite length_zip_with, !length_fmap. lia. }
  exists d0, d1. eexists. split; [done|]. split; [done|]. split.
  { unfold generate_batch. fold b L pad.
    rewrite Hd0, bind_Ok, Hd1, bind_Ok, Hdout, bind_Ok.
    rewrite !leading_zeros_to_padding_padded by auto. rewrite !bind_Ok.
    rewrite !full_Ok by (unfold int64; lia). rewrite !bind_Ok.
    rewrite (cat_dim1_six _ _ _ _ _ _ (Z.to_nat bs))
      by (unfold filled; rewrite ?length_fmap, ?length_replicate; lia).
    rewrite bind_Ok, move_padding_to_end_rows. reflexivity. }
  split.
  { rewrite length_fmap, !length_zip_with, !length_fmap. unfold filled.
    rewrite !length_replicate. lia. }
  intros i r0 r1 Hr0 Hr1.
  pose proof (lookup_lt_Some _ _ _ Hr0) as Hi.
  assert (sums !! i = Some (row_value b r0 + row_value b r1)) as Hsum.
  { unfold sums. by rewrite lookup_zip_with, !list_lookup_fmap, Hr0, Hr1. }
  pose proof Hsums as Hsums'. rewrite Forall_lookup in Hsums'.
  destruct (Hdigits _ (Hsums' i _ Hsum)) as (Hleno & Hdigo & Hvalo).
  set (ro := digits (row_value b r0 + row_value b r1)) in *.
  rewrite Forall_lookup in Hg0, Hg1.
  pose proof (Hg0 i r0 Hr0) as Hdig0. pose proof (Hg1 i r1 Hr1) as Hdig1.
  assert (r0 ≠ [] ∧ r1 ≠ [] ∧ ro ≠ []) as (Hne0 & Hne1 & Hneo).
  { destruct Hs0 as [_ Hc0], Hs1 as [_ Hc1]. rewrite Forall_lookup in Hc0, Hc1.
    specialize (Hc0 i r0 Hr0). specialize (Hc1 i r1 Hr1). cbn in Hc0, Hc1.
    repeat split; intros Hnil; rewrite Hnil in *; cbn in *; lia. }
  exists (strip_zeros ro).
  exists (length (filter (λ t, ¬ t ≠ pad)
            (padded_row pad r0 ++ [separator_token self] ++ padded_row pad r1 ++
             [end_token self] ++ padded_row pad ro ++ [eos_token self]))).
  split; [|split; [|split; [|split; [|split; [|split; [|split]]]]]].
  - rewrite list_lookup_fmap, !lookup_zip_with, !list_lookup_fmap.
    rewrite Hr0, Hr1, Hsum. unfold filled.
    rewrite !lookup_replicate_2 by lia. cbn [fmap option_fmap option_map mbind
      option_bind]. change (Z.to_nat 1) with 1%nat. cbn [replicate].
    f_equal. unfold padding_last, example_row. fold pad.
    rewrite !filter_app.
    rewrite !(filter_cons_True (λ t, t ≠ pad)) by (cbn; lia).
    rewrite !filter_nil.
    rewrite !(padded_row_non_padding b pad) by (done || lia).
    rewrite <- !app_assoc. reflexivity.
  - unfold strip_zeros. by apply Forall_drop.
  - by apply strip_zeros_no_leading_zero.
  - unfold strip_zeros. rewrite row_value_drop_zeros by lia. exact Hvalo.
  - unfold strip_zeros. apply row_value_drop_zeros. lia.
  - unfold strip_zeros. apply row_value_drop_zeros. lia.
  - by apply strip_zeros_no_leading_zero.
  - by apply strip_zeros_no_leading_zero.
Qed.

Lemma generate_batch_examples_witness :
  let self := Dataset.init (10 ^ 6) 10 2 in
  let rng0 := {| drawn_digits := [[5; 7]]; drawn_n_digits := [1] |} in
  let rng1 := {| drawn_digits := [[9; 3]]; drawn_n_digits := [1] |} in
  generate_batch self 1 rng0 rng1
    = Ok [example_row self [7] [3] [1; 0] 3].
Proof.
  intros self rng0 rng1.
  destruct (generate_batch_examples self 1 rng0 rng1)
    as (d0 & d1 & res & _ & _ & Hrun & _).
  - apply constructed_init.
  - cbn. lia.
  - cbn. lia.
  - cbn. lia.
  - repeat split; repeat constructor; lia.
  - repeat split; repeat constructor; lia.
  - rewrite Hrun. vm_compute in Hrun. symmetry. exact Hrun.
Defined.

End GenerateBatchEdges.

(** ** Bases, bounds and the constructor *)

Section DatasetEdges.

Import Torch Dataset Notions MoreNotions.

Lemma wrap64_zero_even (z : Z) : wrap64 z = 0 → ∃ q, z = 2 ^ 64 * q.
Proof.
  unfold wrap64. intros H.
  pose proof (Z.div_mod (z + 2 ^ 63) (2 ^ 64) ltac:(lia)) as Hdm.
  exists ((z + 2 ^ 63) / 2 ^ 64). lia.
Qed.

Lemma weights_nonzero_odd (b L : Z) : Z.odd b = true → weights_nonzero b L.
Proof.
  intros Hodd k Hk [q Hq]%wrap64_zero_even.
  assert (Z.odd (b ^ k) = true) as Hpow.
  { destruct (decide (k = 0)) as [->|]; [done|]. by rewrite Z.odd_pow by lia. }
  rewrite Hq in Hpow.
  replace (2 ^ 64 * q) with (2 * (2 ^ 63 * q)) in Hpow by lia.
  by rewrite Z.odd_even in Hpow.
Qed.

Lemma weights_nonzero_10 (L : Z) : weights_nonzero 10 L ↔ L ≤ 63.
Proof.
  split.
  - intros Hw. destruct (decide (L ≤ 63)) as [|Hbig]; [done|].
    exfalso. apply (Hw 64); [lia|]. by vm_compute.
  - intros HL k Hk.
    assert (Forall (λ k, wrap64 (10 ^ k) ≠ 0) (seqZ 0 64)) as Hall
      by (refine (bool_decide_unpack _ _); by vm_compute).
    rewrite Forall_forall in Hall. apply Hall, elem_of_seqZ. lia.
Qed.

(** X14. With an odd base no weight wraps to 0: for a dataset as [__init__]
    builds it, whose tokens up to [base + 3] are int64 values, on draws it
    can make, for at least one row, [generate_batch] returns whatever the
    number length (whether or not the digits of the sums are then right). *)
Theorem generate_batch_odd_base (self : AdditionDataset) (bs : Z)
    (rng0 rng1 : operand_draw) :
  constructed self → base self + 3 < 2 ^ 63 →
  Z.odd (base self) = true → 1 ≤ bs →
  draw_ok bs (base self) (number_length self) rng0 →
  draw_ok bs (base self) (number_length self) rng1 →
  ∃ res, generate_batch self bs rng0 rng1 = Ok res.
Proof.
  intros Hself Hb63 Hodd Hbs Hrng0 Hrng1.
  apply (generate_batch_on_draws self bs rng0 rng1); try done.
  by apply weights_nonzero_odd.
Qed.

Lemma generate_batch_odd_base_witness :
  let a := [2; 1; 6; 5; 4; 6; 4; 5; 1; 4; 4; 1; 4; 3; 5; 3; 2; 5; 3; 2; 0; 6; 5] in
  let rng0 := {| drawn_digits := [a]; drawn_n_digits := [0] |} in
  let rng1 := {| drawn_digits := [replicate 23 0]; drawn_n_digits := [0] |} in
  ∃ res, generate_batch (Dataset.init (10 ^ 6) 7 23) 1 rng0 rng1 = Ok res.
Proof.
  intros a rng0 rng1.
  apply (generate_batch_odd_base (Dataset.init (10 ^ 6) 7 23) 1 rng0 rng1).
  - apply constructed_init.
  - cbn. lia.
  - reflexivity.
  - lia.
  - repeat split; repeat constructor; lia.
  - repeat split; repeat constructor; lia.
Defined.

(** X15. With the base 10 that [main] passes, [10 ^ 64] is the first weight
    that wraps to 0: for a dataset as [__init__] builds it, on draws it can
    make, for at least one row, [generate_batch] returns while
    [number_length] is at most 63, and raises [RuntimeError] (from the
    integer division by the weight 0) from 64 on. *)
Theorem generate_batch_base_10 (self : AdditionDataset) (bs : Z)
    (rng0 rng1 : operand_draw) :
  constructed self → base self = 10 → 1 ≤ bs →
  draw_ok bs (base self) (number_length self) rng0 →
  draw_ok bs (base self) (number_length self) rng1 →
  (number_length self ≤ 63 → ∃ res, generate_batch self bs rng0 rng1 = Ok res) ∧
  (64 ≤ number_length self →
   generate_batch self bs rng0 rng1 = Raise RuntimeError).
Proof.
  intros Hself Hbase Hbs Hrng0 Hrng1.
  destruct (generate_batch_on_draws self bs rng0 rng1) as [Hok Hraise];
    try done; [lia|].
  rewrite Hbase in Hok, Hraise. split.
  - intros HL. by apply Hok, weights_nonzero_10.
  - intros HL. apply Hraise. rewrite weights_nonzero_10. lia.
Qed.

Lemma generate_batch_base_10_witness :
  let zeros := {| drawn_digits := [replicate 64 0]; drawn_n_digits := [0] |} in
  generate_batch (Dataset.init (10 ^ 6) 10 64) 1 zeros zeros
    = Raise RuntimeError.
Proof.
  intros zeros.
  destruct (generate_batch_base_10 (Dataset.init (10 ^ 6) 10 64) 1 zeros zeros)
    as [_ Hraise].
  - apply constructed_init.
  - reflexivity.
  - lia.
  - repeat split; repeat constructor; lia.
  - repeat split; repeat constructor; lia.
  - apply Hraise. cbn. lia.
Defined.

(** X16. [max_output_length] is, as its comment says, an upper bound on the
    output length with the eos token: for every base from 2 up it returns a
    number that is at least the number of digits of any sum up to
    [2 * base ^ number_length], plus one, and at least the
    [number_length + 2] columns that [generate_batch] fills with the output
    block and the eos token. *)
Theorem max_output_length_bound (self : AdditionDataset) (s : Z) :
  constructed self → 2 ≤ base self → 0 ≤ number_length self →
  0 ≤ s ≤ 2 * base self ^ number_length self →
  ∃ m ds, max_output_length self = Ok m ∧
          int_to_digits s (base self) = Ok ds ∧
          Z.of_nat (length ds) + 1 ≤ m ∧
          number_length self + 2 ≤ m.
Proof.
  intros Hself Hb HL Hs.
  set (b := base self) in *. set (L := number_length self) in *.
  assert (0 < b ^ L) as Hpos by (apply Z.pow_pos_nonneg; lia).
  destruct (int_to_digits_spec s b ltac:(lia) Hb)
    as (ds & Hrun & _ & _ & _ & Hlen & Hz).
  eexists. exists ds. split; [by apply max_output_length_value|].
  split; [done|]. fold b L.
  assert (Z.of_nat (length ds) ≤ (if decide (b = 2) then L + 2 else L + 1)) as Hle.
  { destruct (decide (s = 0)) as [->|Hnz].
    - rewrite (Hz eq_refl). cbn. destruct (decide (b = 2)); lia.
    - specialize (Hlen ltac:(lia)).
      assert (0 < length ds)%nat by (destruct ds; [cbn in Hlen; lia|cbn; lia]).
      destruct (decide (b = 2)) as [Hb2|Hb2].
      + assert (Z.of_nat (length ds) - 1 < L + 2); [|lia].
        apply (pow_lt_inv b); [lia..|].
        rewrite (Z.pow_add_r b L 2) by lia. rewrite Hb2 in *. lia.
      + assert (Z.of_nat (length ds) - 1 < L + 1); [|lia].
        apply (pow_lt_inv b); [lia..|].
        rewrite (Z.pow_add_r b L 1) by lia. nia. }
  destruct (decide (b = 2)); lia.
Qed.

Lemma max_output_length_bound_witness :
  ∃ m ds, max_output_length (Dataset.init (10 ^ 6) 10 2) = Ok m ∧
          int_to_digits 198 10 = Ok ds ∧ Z.of_nat (length ds) + 1 ≤ m.
Proof.
  destruct (max_output_length_bound (Dataset.init (10 ^ 6) 10 2) 198)
    as (m & ds & Hm & Hds & Hle & _).
  - apply constructed_init.
  - cbn. lia.
  - cbn. lia.
  - cbn. lia.
  - exists m, ds. auto.
Defined.

(** X17. With base 1 the properties [max_output_length] and [seq] never
    return: they call [int_to_digits] on 2 with base 1, whose loop does not
    end. *)
Theorem seq_base_1 (self : AdditionDataset) :
  constructed self → base self = 1 → 0 ≤ number_length self →
  max_output_length self = OutOfFuel ∧ Dataset.seq self = OutOfFuel ∧
  ∀ fuel,
    int_to_digits_fuel fuel
      (sequence_length self * base self ^ number_length self) (base self)
    = OutOfFuel.
Proof.
  intros (Hseq & _) Hbase HL.
  assert (sequence_length self * base self ^ number_length self = 2) as Hmax.
  { rewrite Hseq, Hbase, Z.pow_1_l by done. lia. }
  assert (∀ fuel, int_to_digits_fuel fuel 2 1 = OutOfFuel) as Hloop.
  { intros fuel. unfold int_to_digits_fuel.
    by rewrite int_to_digits_loop_base_1. }
  assert (max_output_length self = OutOfFuel) as Hout.
  { unfold max_output_length. rewrite Hmax, Hbase. unfold int_to_digits.
    by rewrite Hloop. }
  split; [done|]. split.
  - unfold Dataset.seq. by rewrite Hout.
  - intros fuel. rewrite Hmax, Hbase. apply Hloop.
Qed.

Lemma seq_base_1_witness :
  Dataset.seq (Dataset.init (10 ^ 6) 1 3) = OutOfFuel.
Proof.
  destruct (seq_base_1 (Dataset.init (10 ^ 6) 1 3)) as (_ & H & _).
  - apply constructed_init.
  - reflexivity.
  - cbn. lia.
  - exact H.
Defined.

(** X18. [seq] is computed from the current [number_length]: for every base
    from 2 up it is [3 * number_length + 4] (one more for base 2), and after
    [number_length] has been raised by one it is 3 more. *)
Theorem seq_after_promotion (self : AdditionDataset) :
  constructed self → 2 ≤ base self → 0 ≤ number_length self →
  ∃ s, Dataset.seq self = Ok s ∧
       s = 3 * number_length self + (if decide (base self = 2) then 5 else 4) ∧
       Dataset.seq (set_number_length self (number_length self + 1)) = Ok (s + 3).
Proof.
  intros Hself Hb HL. destruct Hself as (Hseq & Htok).
  eexists. split; [|split].
  - unfold Dataset.seq. rewrite max_output_length_value by (done || by split).
    rewrite bind_Ok. reflexivity.
  - unfold max_input_length. rewrite Hseq. destruct (decide (base self = 2)); lia.
  - unfold Dataset.seq.
    rewrite max_output_length_value; cbn [base number_length set_number_length
      sequence_length]; [| |done|lia].
    + rewrite bind_Ok. f_equal. unfold max_input_length.
      cbn [base number_length set_number_length sequence_length].
      rewrite Hseq. destruct (decide (base self = 2)); lia.
    + apply constructed_set_number_length. by split.
Qed.

Lemma seq_after_promotion_witness :
  Dataset.seq (Dataset.init (10 ^ 6) 10 1) = Ok 7 ∧
  Dataset.seq (set_number_length (Dataset.init (10 ^ 6) 10 1) 2) = Ok 10.
Proof.
  destruct (seq_after_promotion (Dataset.init (10 ^ 6) 10 1))
    as (s & H1 & Hs & H2).
  - apply constructed_init.
  - cbn. lia.
  - cbn. lia.
  - cbn in Hs. subst s. split; [exact H1 | exact H2].
Defined.

End DatasetEdges.

(** ** The constructor's parameters *)

Section Constructor.

Import Dataset Notions MoreNotions.

Lemma fst_zip_take {A B : Type} (l : list A) (k : list B) :
  (zip l k).*1 = take (length k) l.
Proof.
  revert k. induction l as [|x l IH]; intros [|y k]; cbn; [done..|].
  by rewrite IH.
Qed.

Lemma list_to_map_zip_None (params : list string) (args : list Z) (p : string) :
  p ∉ params → (list_to_map (zip params args) : gmap string Z) !! p = None.
Proof.
  intros Hp. apply not_elem_of_list_to_map_1. rewrite fst_zip_take.
  intros Hin%elem_of_take. destruct Hin as (i & Hi & _).
  by apply list_elem_of_lookup_2 in Hi.
Qed.

(** Positional arguments fill the first parameters; more arguments than
    parameters raise. *)
Lemma bind_positional_spec (params : list string) (args : list Z)
    (env : gmap string Z) :
  NoDup params →
  bind_positional params args env =
  if decide (length args ≤ length params)%nat
  then Ok (list_to_map (zip params args) ∪ env, drop (length args) params)
  else Raise TypeError.
Proof.
  intros Hnd. revert params env Hnd.
  induction args as [|a args IH]; intros params env Hnd.
  - cbn [bind_positional]. rewrite decide_True by (cbn; lia).
    destruct params; cbn; by rewrite (left_id_L ∅ (∪)).
  - destruct params as [|p params]; cbn [bind_positional].
    + rewrite decide_False by (cbn; lia). done.
    + apply NoDup_cons in Hnd as [Hp Hnd]. rewrite IH by done. cbn [length].
      destruct (decide (length args ≤ length params)%nat).
      * rewrite decide_True by lia. cbn. do 2 f_equal.
        rewrite <- insert_union_r by (by apply list_to_map_zip_None).
        by rewrite insert_union_l.
      * rewrite decide_False by lia. done.
Qed.

(** Keywords are bound when each names a parameter that is still unbound,
    and none comes twice; any other list of keywords raises. *)
Lemma bind_keywords_spec (params : list string) (kwargs : list (string * Z))
    (env : gmap string Z) :
  bind_keywords params kwargs env =
  if decide (Forall (λ k, k ∈ params ∧ env !! k = None) kwargs.*1
             ∧ NoDup kwargs.*1)
  then Ok (list_to_map kwargs ∪ env)
  else Raise TypeError.
Proof.
  revert env. induction kwargs as [|[k v] kwargs IH]; intros env.
  - cbn. rewrite decide_True; [by rewrite (left_id_L ∅ (∪))|].
    split; constructor.
  - cbn [bind_keywords]. rewrite fmap_cons. cbn [fst].
    destruct (decide (k ∈ params)) as [Hk|Hk].
    + destruct (env !! k) as [x|] eqn:Hx.
      * rewrite decide_False; [done|]. intros [Hall _].
        apply Forall_inv in Hall as [_ ?]. congruence.
      * rewrite IH.
        destruct (decide (Forall (λ k', k' ∈ params ∧ <[k:=v]> env !! k' = None)
                            kwargs.*1 ∧ NoDup kwargs.*1)) as [[Hall Hnd]|Hno].
        -- assert (k ∉ kwargs.*1) as Hfresh.
           { intros Hin. rewrite Forall_forall in Hall.
             destruct (Hall k Hin) as [_ Hnone].
             by rewrite lookup_insert_eq in Hnone. }
           rewrite decide_True.
           ++ f_equal. cbn [list_to_map foldr uncurry].
              rewrite <- insert_union_r
                by (by apply not_elem_of_list_to_map_1).
              by rewrite insert_union_l.
           ++ split.
              ** constructor; [done|]. eapply Forall_impl; [exact Hall|].
                 intros k' [? Hn]. split; [done|].
                 destruct (decide (k = k')) as [->|Hne].
                 --- by rewrite lookup_insert_eq in Hn.
                 --- by rewrite lookup_insert_ne in Hn.
              ** by constructor.
        -- rewrite decide_False; [done|]. intros [Hall Hnd]. apply Hno.
           apply Forall_cons in Hall as [_ Hall].
           apply NoDup_cons in Hnd as [Hnin Hnd]. split; [|done].
           apply Forall_forall. intros k' Hk'. rewrite Forall_forall in Hall.
           destruct (Hall k' Hk') as [? ?]. split; [done|].
           rewrite lookup_insert_ne; [done|]. by intros ->.
    + rewrite decide_False; [done|]. intros [Hall _].
      by apply Forall_inv in Hall as [? _].
Qed.

Section Binding.

Context (params : list string) (args : list Z) (kwargs : list (string * Z)).
Hypothesis params_NoDup : NoDup params.
Hypothesis args_fit : (length args ≤ length params)%nat.

Let positional : gmap string Z := list_to_map (zip params args) ∪ ∅.
Let bound : gmap string Z := list_to_map kwargs ∪ positional.

Lemma take_drop_disjoint (p : string) :
  p ∈ take (length args) params → p ∉ drop (length args) params.
Proof.
  pose proof params_NoDup as Hnd.
  rewrite <- (take_drop (length args) params) in Hnd.
  apply NoDup_app in Hnd as (_ & Hdisj & _). apply Hdisj.
Qed.

Lemma positional_None (p : string) :
  positional !! p = None ↔ p ∉ take (length args) params.
Proof.
  unfold positional. rewrite (right_id_L ∅ (∪)).
  by rewrite <- not_elem_of_list_to_map, fst_zip_take.
Qed.

Lemma positional_lookup (i : nat) (p : string) (v : Z) :
  params !! i = Some p → args !! i = Some v → positional !! p = Some v.
Proof.
  intros Hp Hv. unfold positional. rewrite (right_id_L ∅ (∪)).
  apply elem_of_list_to_map_1.
  - rewrite fst_zip_take. pose proof params_NoDup as Hnd.
    rewrite <- (take_drop (length args) params) in Hnd.
    by apply NoDup_app in Hnd as (? & _ & _).
  - apply (list_elem_of_lookup_2 _ i). by rewrite lookup_zip_with, Hp, Hv.
Qed.

Lemma keyword_is_Some (p : string) :
  is_Some ((list_to_map kwargs : gmap string Z) !! p) ↔ p ∈ kwargs.*1.
Proof.
  rewrite <- not_eq_None_Some, <- not_elem_of_list_to_map.
  split; [apply dec_stable|by intros ? ?].
Qed.

(** The checks of [bind_arguments] pass exactly when each parameter is given
    once. *)
Lemma bound_each_once :
  (Forall (λ k, k ∈ params ∧ positional !! k = None) kwargs.*1
   ∧ NoDup kwargs.*1)
  ∧ Forall (λ p, is_Some (bound !! p)) params
  ↔ kwargs.*1 ≡ₚ drop (length args) params.
Proof.
  assert (NoDup (drop (length args) params)) as Hnd_drop.
  { pose proof params_NoDup as Hnd.
    rewrite <- (take_drop (length args) params) in Hnd.
    by apply NoDup_app in Hnd as (_ & _ & ?). }
  assert (∀ p, p ∈ params ↔
               p ∈ take (length args) params ∨ p ∈ drop (length args) params)
    as Hsplit.
  { intros p. rewrite <- (take_drop (length args) params) at 1.
    apply elem_of_app. }
  split.
  - intros [[Hall Hnd] Hbound]. apply NoDup_Permutation; [done..|].
    intros p. split.
    + intros Hp. rewrite Forall_forall in Hall.
      destruct (Hall p Hp) as [Hin Hnone%positional_None].
      apply Hsplit in Hin as [|]; done.
    + intros Hp. rewrite Forall_forall in Hbound.
      assert (p ∈ params) as Hin by (apply Hsplit; by right).
      specialize (Hbound p Hin). unfold bound in Hbound.
      apply keyword_is_Some.
      destruct ((list_to_map kwargs : gmap string Z) !! p) as [v|] eqn:Hkw;
        [done|].
      rewrite lookup_union_r in Hbound by done.
      assert (positional !! p = None) as Hnone.
      { apply positional_None. intros Htake.
        by apply (take_drop_disjoint p). }
      rewrite Hnone in Hbound. by destruct Hbound.
  - intros Hperm. split; [split|].
    + apply Forall_forall. intros k Hk. rewrite Hperm in Hk. split.
      * apply Hsplit. by right.
      * apply positional_None. intros Htake.
        by apply (take_drop_disjoint k).
    + by rewrite Hperm.
    + apply Forall_forall. intros p [Htake|Hdrop]%Hsplit; unfold bound.
      * destruct ((list_to_map kwargs : gmap string Z) !! p) as [v|] eqn:Hkw.
        -- rewrite (lookup_union_Some_l _ _ _ v) by done. by eexists.
        -- rewrite lookup_union_r by done.
           destruct (positional !! p) as [v|] eqn:Hpos; [by eexists|].
           by apply positional_None in Hpos.
      * rewrite <- Hperm in Hdrop. apply keyword_is_Some in Hdrop as [v Hv].
        rewrite (lookup_union_Some_l _ _ _ v) by done. by eexists.
Qed.

Lemma bind_arguments_spec :
  (kwargs.*1 ≡ₚ drop (length args) params →
   bind_arguments params args kwargs = Ok bound) ∧
  (¬ kwargs.*1 ≡ₚ drop (length args) params →
   bind_arguments params args kwargs = Raise TypeError).
Proof.
  unfold bind_arguments. rewrite bind_positional_spec by done.
  rewrite decide_True by done. rewrite bind_Ok. cbn beta iota.
  rewrite bind_keywords_spec. fold positional.
  destruct (decide (Forall (λ k, k ∈ params ∧ positional !! k = None)
                      kwargs.*1 ∧ NoDup kwargs.*1)) as [Hfresh|Hfresh].
  - rewrite bind_Ok. fold bound.
    destruct (decide (Forall (λ p, is_Some (bound !! p)) params))
      as [Hall|Hall].
    + split; [done|]. intros Hno. exfalso. by apply Hno, bound_each_once.
    + split; [|done]. intros Hperm%bound_each_once. by destruct Hperm.
  - split; [|done]. intros Hperm%bound_each_once. by destruct Hperm.
Qed.

(** A parameter that is given once is bound to its argument. *)
Lemma bound_argument (i : nat) (p : string) :
  kwargs.*1 ≡ₚ drop (length args) params → params !! i = Some p →
  bound !!! p = argument args kwargs i p.
Proof.
  intros Hperm Hp. unfold argument. rewrite lookup_total_alt. unfold bound.
  destruct (args !! i) as [v|] eqn:Hv.
  - assert (p ∈ take (length args) params) as Htake.
    { apply elem_of_take. exists i. split; [done|]. by eapply lookup_lt_Some. }
    rewrite lookup_union_r.
    + by rewrite (positional_lookup i p v).
    + apply not_elem_of_list_to_map_1. rewrite Hperm.
      by apply take_drop_disjoint.
  - assert (p ∈ kwargs.*1) as [v Hkw]%keyword_is_Some.
    { rewrite Hperm. apply list_elem_of_lookup.
      exists (i - length args)%nat. rewrite lookup_drop.
      apply lookup_ge_None in Hv.
      by replace (length args + (i - length args))%nat with i by lia. }
    by rewrite (lookup_union_Some_l _ _ _ v), Hkw.
Qed.

End Binding.

(** X19. [__init__] takes [num_samples], [base] and [number_length] and
    nothing else, and has no default. A call that gives each of them once,
    the first ones by position and the others by keyword in any order,
    builds the dataset from the arguments, with [sequence_length] 2 and the
    four tokens [base], ..., [base + 3]. Every other call raises
    [TypeError]: more than three positional arguments, an unknown keyword, a
    parameter given twice or a parameter left out. *)
Theorem call_parameters (args : list Z) (kwargs : list (string * Z)) :
  (binds_each_once init_params args kwargs →
   let num_samples := argument args kwargs 0 "num_samples" in
   let base := argument args kwargs 1 "base" in
   let number_length := argument args kwargs 2 "number_length" in
   Dataset.call args kwargs = Ok (init num_samples base number_length) ∧
   sequence_length (init num_samples base number_length) = 2 ∧
   end_token (init num_samples base number_length) = base ∧
   separator_token (init num_samples base number_length) = base + 1 ∧
   padding_token (init num_samples base number_length) = base + 2 ∧
   eos_token (init num_samples base number_length) = base + 3) ∧
  (¬ binds_each_once init_params args kwargs →
   Dataset.call args kwargs = Raise TypeError) ∧
  ((3 < length args)%nat → ¬ binds_each_once init_params args kwargs) ∧
  (∀ k, k ∈ kwargs.*1 → k ∉ init_params →
        ¬ binds_each_once init_params args kwargs) ∧
  (∀ i k, init_params !! i = Some k → (i < length args)%nat → k ∈ kwargs.*1 →
          ¬ binds_each_once init_params args kwargs) ∧
  (∀ i k, init_params !! i = Some k → (length args ≤ i)%nat → k ∉ kwargs.*1 →
          ¬ binds_each_once init_params args kwargs).
Proof.
  assert (NoDup init_params) as Hnd.
  { apply (bool_decide_unpack _). by vm_compute. }
  assert (∀ p, p ∈ drop (length args) init_params → p ∈ init_params) as Hdrop.
  { intros p Hp. rewrite <- (take_drop (length args) init_params).
    apply elem_of_app. by right. }
  split; [|split; [|split; [|split; [|split]]]].
  - intros [Hlen Hperm]. cbn zeta. split; [|done].
    unfold call.
    rewrite (proj1 (bind_arguments_spec init_params args kwargs Hnd Hlen) Hperm).
    rewrite bind_Ok.
    pose proof (bound_argument init_params args kwargs Hnd Hlen 0
                  "num_samples" Hperm eq_refl) as H0.
    pose proof (bound_argument init_params args kwargs Hnd Hlen 1
                  "base" Hperm eq_refl) as H1.
    pose proof (bound_argument init_params args kwargs Hnd Hlen 2
                  "number_length" Hperm eq_refl) as H2.
    cbn zeta in H0, H1, H2. by rewrite H0, H1, H2.
  - intros Hno. unfold call.
    destruct (decide (length args ≤ length init_params)%nat) as [Hlen|Hlen].
    + rewrite (proj2 (bind_arguments_spec init_params args kwargs Hnd Hlen));
        [done|]. intros Hperm. by apply Hno.
    + unfold bind_arguments. rewrite bind_positional_spec by done.
      by rewrite decide_False.
  - intros Hlen [Hle _]. cbn in Hle. lia.
  - intros k Hk Hunknown [_ Hperm]. rewrite Hperm in Hk. by apply Hunknown, Hdrop.
  - intros i k Hi Hlt Hk [Hle Hperm]. rewrite Hperm in Hk.
    apply (take_drop_disjoint init_params args Hnd k); [|done].
    apply elem_of_take. by exists i.
  - intros i k Hi Hge Hk [Hle Hperm]. apply Hk. rewrite Hperm.
    apply list_elem_of_lookup. exists (i - length args)%nat.
    rewrite lookup_drop.
    by replace (length args + (i - length args))%nat with i by lia.
Qed.

Lemma call_parameters_witness :
  Dataset.call [10 ^ 6] [("number_length", 1); ("base", 10)]%string
    = Ok (init (10 ^ 6) 10 1).
Proof.
  destruct (call_parameters [10 ^ 6] [("number_length", 1); ("base", 10)]%string)
    as [Hcall _].
  destruct Hcall as [Hrun _].
  - split; [cbn; lia|]. cbn. apply perm_swap.
  - exact Hrun.
Defined.

End Constructor.

(** ** The loop of [manual_training] *)

Section CurriculumInvariants.

Import Float32 Dataset Train Notions MoreNotions.

Lemma counter_total_empty : counter_total ∅ = 0.
Proof. unfold counter_total. by rewrite map_fold_empty. Qed.

Lemma counter_total_incr (c : gmap Z Z) (k : Z) :
  counter_total (counter_incr c k) = counter_total c + 1.
Proof.
  unfold counter_total, counter_incr, counter_get.
  destruct (c !! k) as [v|] eqn:Hk; cbn [default].
  - rewrite <- insert_delete_eq.
    rewrite map_fold_insert_L; [|intros; lia|by rewrite lookup_delete_eq].
    rewrite (map_fold_delete_L _ _ k v c); [cbn beta; unfold id; lia|intros; lia|done].
  - rewrite map_fold_insert_L; [cbn beta; unfold id; lia|intros; lia|done].
Qed.

Lemma counter_incr_lookup_None (c : gmap Z Z) (k k' : Z) :
  k ≠ k' → c !! k' = None → counter_incr c k !! k' = None.
Proof. intros. unfold counter_incr. by rewrite lookup_insert_ne. Qed.

Lemma counter_get_None (c : gmap Z Z) (k : Z) : c !! k = None → counter_get c k = 0.
Proof. unfold counter_get. by intros ->. Qed.

Lemma after_epochs_S (ds : AdditionDataset) (observe : nat → epoch_outcome)
    (k : nat) :
  after_epochs ds observe (S k) =
  match after_epochs ds observe k with
  | (st, Ok _) =>
      match observe k with
      | Validated accs order => (curriculum_check st accs order, Ok ())
      | Raised e => (st, Raise e)
      end
  | stopped => stopped
  end.
Proof.
  unfold after_epochs. replace (S k) with (k + 1)%nat by lia.
  rewrite epoch_loop_add. destruct (epoch_loop k 0 observe _) as [st [[]| |]]; [|done..].
  cbn [epoch_loop Nat.add]. by destruct (observe k).
Qed.

(** The loop completes [k] epochs exactly when each of them reaches its
    curriculum check. *)
Lemma after_epochs_Ok (ds : AdditionDataset) (observe : nat → epoch_outcome)
    (k : nat) :
  (after_epochs ds observe k).2 = Ok () ↔ all_validated observe k.
Proof.
  induction k as [|k IH].
  - split; [|done]. intros _ i Hi. lia.
  - rewrite after_epochs_S.
    destruct (after_epochs ds observe k) as [st [[]| |]]; cbn [snd] in *.
    + destruct (observe k) as [accs order|e] eqn:Hobs; cbn [snd]; split.
      * intros _ i Hi. destruct (decide (i = k)) as [->|]; [by eexists; eexists|].
        apply IH; [done|lia].
      * done.
      * done.
      * intros Hall. destruct (Hall k ltac:(lia)) as (accs & order & Hk). congruence.
    + split; [done|]. intros Hall.
      apply IH. intros i Hi. apply Hall. lia.
    + split; [done|]. intros Hall.
      apply IH. intros i Hi. apply Hall. lia.
Qed.

(** What holds after [k] completed epochs. *)
Lemma after_epochs_invariant (ds : AdditionDataset)
    (observe : nat → epoch_outcome) (k : nat) :
  all_validated observe k →
  let st := (after_epochs ds observe k).1 in
  let nl := number_length (dataset st) in
  dataset st = set_number_length ds nl ∧
  nl = number_length ds + promotions observe k ∧
  0 ≤ promotions observe k ≤ Z.of_nat k ∧
  counter_total (time_to_success st) = Z.of_nat k ∧
  counter_get (time_to_success st) nl = trailing_failures observe k ∧
  (∀ key, key < number_length ds ∨ nl < key → time_to_success st !! key = None) ∧
  (∀ key, number_length ds ≤ key < nl → 1 ≤ counter_get (time_to_success st) key).
Proof.
  induction k as [|k IH]; intros Hall.
  - cbn. split; [by destruct ds|]. split; [lia|]. split; [lia|].
    split; [apply counter_total_empty|]. split; [done|].
    split; [intros; apply lookup_empty|]. intros. lia.
  - assert (all_validated observe k) as Hall' by (intros i Hi; apply Hall; lia).
    specialize (IH Hall').
    pose proof (proj2 (after_epochs_Ok ds observe k) Hall') as Hok.
    destruct (Hall k ltac:(lia)) as (accs & order & Hobs).
    rewrite after_epochs_S.
    destruct (after_epochs ds observe k) as [st r]; cbn [fst snd] in *. subst r.
    rewrite Hobs. cbn [fst]. cbn zeta in IH.
    destruct IH as (Hds & Hnl & Hprom & Htot & Hcur & Hout & Hin).
    destruct (curriculum_check_step st accs order) as [Hstep Htts].
    cbn [promotions trailing_failures]. rewrite Hobs. cbn [passed].
    cbn zeta. rewrite Htts.
    split; [|split; [|split; [|split; [|split; [|split]]]]].
    + unfold curriculum_check. destruct (gt (mean accs order) threshold); cbn.
      * rewrite Hds at 1. done.
      * rewrite Hds at 1. done.
    + rewrite Hstep. lia.
    + destruct (gt (mean accs order) threshold); lia.
    + rewrite counter_total_incr. lia.
    + rewrite Hstep. destruct (gt (mean accs order) threshold).
      * rewrite counter_get_incr_ne by lia.
        apply counter_get_None, Hout. lia.
      * rewrite Z.add_0_r, counter_get_incr. lia.
    + intros key Hkey. apply counter_incr_lookup_None.
      * destruct (gt (mean accs order) threshold); lia.
      * apply Hout. destruct (gt (mean accs order) threshold); lia.
    + intros key Hkey.
      destruct (decide (key = number_length (dataset st))) as [->|Hne].
      * rewrite counter_get_incr.
        assert (0 ≤ counter_get (time_to_success st) (number_length (dataset st))).
        { rewrite Hcur. clear. induction k as [|k IH]; cbn; [lia|].
          destruct (passed (observe k)); lia. }
        lia.
      * rewrite counter_get_incr_ne by done. apply Hin.
        destruct (gt (mean accs order) threshold); lia.
Qed.

(** Once [number_length] is above a key, the loop leaves the entry of the key
    alone. *)
Lemma epoch_loop_frozen (m epoch : nat) (observe : nat → epoch_outcome)
    (st : driver_state) (key : Z) :
  key < number_length (dataset st) →
  time_to_success (epoch_loop m epoch observe st).1 !! key
    = time_to_success st !! key.
Proof.
  revert epoch st. induction m as [|m IH]; intros epoch st Hkey; cbn [epoch_loop];
    [done|].
  destruct (observe epoch) as [accs order|e]; [|done].
  destruct (curriculum_check_step st accs order) as [Hstep Htts].
  rewrite IH.
  - rewrite Htts. unfold counter_incr. rewrite lookup_insert_ne; [done|lia].
  - rewrite Hstep. destruct (gt (mean accs order) threshold); lia.
Qed.

(** X20. An exception in an epoch ends [manual_training] there: when the
    epochs before epoch [j] reach their curriculum check and epoch [j], one
    of the [epochs] asked for, raises, the exception leaves the function with
    the state that [j] epochs have made, and no later epoch is run. When
    all the epochs asked for reach their check the function returns, and it
    runs no epoch when [epochs] is zero or negative. *)
Theorem manual_training_stops (ds : AdditionDataset) (args : Namespace)
    (observe : nat → epoch_outcome) :
  (∀ j e, all_validated observe j → observe j = Raised e →
     Z.of_nat j < epochs args →
     manual_training ds args observe
       = ((after_epochs ds observe j).1, Raise e) ∧
     ∀ observe', (∀ i, (i ≤ j)%nat → observe' i = observe i) →
       manual_training ds args observe' = manual_training ds args observe) ∧
  (all_validated observe (Z.to_nat (epochs args)) →
     (manual_training ds args observe).2 = Ok ()) ∧
  (epochs args ≤ 0 →
     manual_training ds args observe
       = ({| dataset := ds; time_to_success := ∅ |}, Ok ())).
Proof.
  assert (∀ observe j e, all_validated observe j → observe j = Raised e →
            Z.of_nat j < epochs args →
            manual_training ds args observe
              = ((after_epochs ds observe j).1, Raise e)) as Hstop.
  { intros obs j e Hall Hobs Hj. unfold manual_training.
    replace (Z.to_nat (epochs args)) with (j + S (Z.to_nat (epochs args) - S j))%nat
      by lia.
    rewrite epoch_loop_add.
    pose proof (proj2 (after_epochs_Ok ds obs j) Hall) as Hok.
    unfold after_epochs in *.
    destruct (epoch_loop j 0 obs _) as [st r]; cbn [fst snd] in *. subst r.
    cbn [epoch_loop Nat.add]. by rewrite Hobs. }
  assert (∀ obs obs' k epoch st,
            (∀ i, (epoch ≤ i < epoch + k)%nat → obs' i = obs i) →
            epoch_loop k epoch obs' st = epoch_loop k epoch obs st) as Hext.
  { intros obs obs' k. induction k as [|k IH]; intros epoch st Heq; [done|].
    cbn [epoch_loop]. rewrite Heq by lia. destruct (obs epoch); [|done].
    apply IH. intros i Hi. apply Heq. lia. }
  split; [|split].
  - intros j e Hall Hobs Hj. split; [by apply Hstop|].
    intros observe' Heq.
    rewrite (Hstop observe j e), (Hstop observe' j e); try done.
    + unfold after_epochs. f_equal. f_equal. apply Hext. intros i Hi. apply Heq. lia.
    + intros i Hi. rewrite Heq by lia. by apply Hall.
    + by rewrite Heq.
  - intros Hall. by apply after_epochs_Ok.
  - intros Hle. unfold manual_training.
    by replace (Z.to_nat (epochs args)) with 0%nat by lia.
Qed.

Lemma manual_training_stops_witness :
  let observe (epoch : nat) :=
    match epoch with
    | 1%nat => Raised RuntimeError
    | _ => Validated [of_int 1] (sequential 1)
    end in
  manual_training (Dataset.init (10 ^ 6) 10 1) {| epochs := 5; batch_size := 256 |}
    observe
  = ((after_epochs (Dataset.init (10 ^ 6) 10 1) observe 1).1, Raise RuntimeError).
Proof.
  intros observe.
  destruct (manual_training_stops (Dataset.init (10 ^ 6) 10 1)
              {| epochs := 5; batch_size := 256 |} observe) as [Hstop _].
  destruct (Hstop 1%nat RuntimeError) as [Hrun _].
  - intros i Hi. assert (i = 0%nat) as -> by lia. by eexists; eexists.
  - reflexivity.
  - cbn. lia.
  - exact Hrun.
Defined.

(** X21. After [k] completed epochs [number_length] is its initial value
    plus the number of epochs, among these [k], whose mean accuracy, as
    [torch.mean] computes it in float32, exceeded the float32 value of 0.9:
    it goes up by at most one per epoch; and nothing else of the dataset has
    changed. *)
Theorem number_length_promotions (ds : AdditionDataset)
    (observe : nat → epoch_outcome) (k : nat) :
  all_validated observe k →
  let st := (after_epochs ds observe k).1 in
  number_length (dataset st) = number_length ds + promotions observe k ∧
  number_length ds ≤ number_length (dataset st) ≤ number_length ds + Z.of_nat k ∧
  dataset st = set_number_length ds (number_length (dataset st)) ∧
  ((∀ i, (i < k)%nat → passed (observe i) = true) →
     number_length (dataset st) = number_length ds + Z.of_nat k) ∧
  ((∀ i, (i < k)%nat → passed (observe i) = false) →
     number_length (dataset st) = number_length ds).
Proof.
  intros Hall st.
  destruct (after_epochs_invariant ds observe k Hall)
    as (Hds & Hnl & Hprom & _).
  fold st in Hds, Hnl. split; [done|]. split; [lia|]. split; [done|].
  rewrite Hnl. clear. split.
  - intros Hpass. f_equal. induction k as [|k IH]; [done|].
    cbn [promotions]. rewrite Hpass, IH by lia || (intros; apply Hpass; lia). lia.
  - intros Hfail. enough (promotions observe k = 0) by lia.
    induction k as [|k IH]; [done|].
    cbn [promotions]. rewrite Hfail, IH by lia || (intros; apply Hfail; lia). lia.
Qed.

(** Three epochs: one batch at 0.900001 and 99 at 0.9, added by halves, have
    the float32 mean 0.9 and do not pass, although their exact mean is above
    0.9; the second epoch, one batch at 0.5 and nine at 1, passes. *)
Lemma number_length_promotions_witness :
  let close := of_ratio 900001 1000000 :: replicate 99 (of_ratio 9 10) in
  let observe (epoch : nat) :=
    match epoch with
    | 1%nat => Validated (of_ratio 1 2 :: replicate 9 (of_int 1)) (sequential 10)
    | _ => Validated close (pairwise 100 0 100)
    end in
  mean close (pairwise 100 0 100) = threshold ∧
  number_length
    (dataset (after_epochs (Dataset.init (10 ^ 6) 10 1) observe 1).1) = 1 ∧
  number_length
    (dataset (after_epochs (Dataset.init (10 ^ 6) 10 1) observe 3).1) = 2.
Proof.
  intros close observe. split; [vm_compute; reflexivity|].
  assert (∀ k, all_validated observe k) as Hall.
  { intros k i _. destruct i as [|[|i]]; by eexists; eexists. }
  destruct (number_length_promotions (Dataset.init (10 ^ 6) 10 1) observe 1
              (Hall 1%nat)) as [H1 _].
  destruct (number_length_promotions (Dataset.init (10 ^ 6) 10 1) observe 3
              (Hall 3%nat)) as [H3 _].
  split; [rewrite H1|rewrite H3]; vm_compute; reflexivity.
Defined.

(** X22. After [k] completed epochs the entries of [time_to_success] add up
    to [k]; its keys are lengths from the initial to the current one; each
    length that has been passed has an entry of at least 1; and the entry of
    the current length is the number of epochs since the last one whose
    mean accuracy, as [torch.mean] computes it in float32, exceeded the
    float32 value of 0.9. *)
Theorem time_to_success_total (ds : AdditionDataset)
    (observe : nat → epoch_outcome) (k : nat) :
  all_validated observe k →
  let st := (after_epochs ds observe k).1 in
  let nl := number_length (dataset st) in
  counter_total (time_to_success st) = Z.of_nat k ∧
  (∀ key, is_Some (time_to_success st !! key) → number_length ds ≤ key ≤ nl) ∧
  (∀ key, number_length ds ≤ key < nl → 1 ≤ counter_get (time_to_success st) key) ∧
  counter_get (time_to_success st) nl = trailing_failures observe k.
Proof.
  intros Hall st nl.
  destruct (after_epochs_invariant ds observe k Hall)
    as (_ & _ & _ & Htot & Hcur & Hout & Hin).
  fold st in Htot, Hcur, Hout, Hin. fold nl in Hcur, Hout, Hin.
  split; [done|]. split; [|done].
  intros key [v Hv].
  destruct (decide (number_length ds ≤ key ≤ nl)) as [|Hno]; [done|].
  rewrite Hout in Hv by lia. done.
Qed.

(** With one batch at 0.900001 and 99 at 0.9 in its first epoch, the loop is
    still at length 1 after that epoch, and [time_to_success[1]] is 1. *)
Lemma time_to_success_total_witness :
  let close := of_ratio 900001 1000000 :: replicate 99 (of_ratio 9 10) in
  let observe (epoch : nat) :=
    match epoch with
    | 1%nat => Validated (of_ratio 1 2 :: replicate 9 (of_int 1)) (sequential 10)
    | _ => Validated close (pairwise 100 0 100)
    end in
  let ds := Dataset.init (10 ^ 6) 10 1 in
  counter_get (time_to_success (after_epochs ds observe 1).1) 1 = 1 ∧
  counter_total (time_to_success (after_epochs ds observe 3).1) = 3.
Proof.
  intros close observe ds.
  assert (∀ k, all_validated observe k) as Hall.
  { intros k i _. destruct i as [|[|i]]; by eexists; eexists. }
  destruct (time_to_success_total ds observe 1 (Hall 1%nat))
    as (_ & _ & _ & H1).
  destruct (time_to_success_total ds observe 3 (Hall 3%nat)) as (H3 & _).
  split; [|exact H3].
  assert (number_length (dataset (after_epochs ds observe 1).1) = 1) as Hnl
    by (vm_compute; reflexivity).
  rewrite Hnl in H1. rewrite H1. vm_compute. reflexivity.
Defined.

(** X23. The entry of a length that has been passed is final: once
    [number_length] is above a key, no later epoch changes
    [time_to_success] at that key, whatever is observed. *)
Theorem time_to_success_frozen (ds : AdditionDataset)
    (observe : nat → epoch_outcome) (k m : nat) (key : Z) :
  let earlier := (after_epochs ds observe k).1 in
  let later := (after_epochs ds observe (k + m)).1 in
  key < number_length (dataset earlier) →
  time_to_success later !! key = time_to_success earlier !! key.
Proof.
  intros earlier later Hkey. unfold later, after_epochs.
  rewrite epoch_loop_add. fold (after_epochs ds observe k).
  unfold earlier in *.
  destruct (after_epochs ds observe k) as [st [[]| |]]; cbn [fst] in *; [|done..].
  by apply epoch_loop_frozen.
Qed.

Lemma time_to_success_frozen_witness :
  let observe (epoch : nat) :=
    match epoch with
    | 1%nat => Validated [of_int 1] (sequential 1)
    | _ => Validated [of_ratio 1 2] (sequential 1)
    end in
  let ds := Dataset.init (10 ^ 6) 10 1 in
  time_to_success (after_epochs ds observe 5).1 !! 1
    = time_to_success (after_epochs ds observe 2).1 !! 1.
Proof.
  intros observe ds.
  apply (time_to_success_frozen ds observe 2 3 1).
  vm_compute. reflexivity.
Defined.

End CurriculumInvariants.
